(** * ORCA dense matrix engine: a shallow embedding of [Mat.h] and [Vec.h]

    The development follows the C++ sources of the ORCAMath header
    library (default build: no [ORCA_DISABLE_*] macro is defined, so every
    check and the sticky-compute cache are compiled in).

    - [index_t] is [long long]; indices and dimensions are modelled in [Z].
      Signed overflow is undefined in C++ and lies outside the model.
    - A matrix owns a [malloc]ed buffer.  Buffers live in an explicit heap,
      so that the shallow copies made by the implicit copy constructor
      (which copy the [_mat] pointer) alias the same cells.
    - A read outside an allocated buffer, or of a cell or field that was
      never written, is undefined behaviour: outcome [Undefined].
    - C++ exceptions are the outcome [Throw]. *)

From Stdlib Require Import ZArith QArith Lia.
From stdpp Require Import base list.

Local Open Scope Z_scope.

(** ** Exceptions ([Except.h]) and error codes ([ORCAMath.h]) *)

Inductive ORCAException : Type :=
| BadDimensionsError
| EmptyElementError
| OutOfBoundsError
| UnknownFillError.

Definition ORCA_OUT_OF_BOUNDS : Z := 2.
Definition ORCA_EMPTY_ELEMENT : Z := 4.
Definition ORCA_BAD_DIMENSIONS : Z := 5.
Definition ORCA_UNKNOWN_FILL_TYPE : Z := 6.

Definition code (e : ORCAException) : Z :=
  match e with
  | BadDimensionsError => ORCA_BAD_DIMENSIONS
  | EmptyElementError => ORCA_EMPTY_ELEMENT
  | OutOfBoundsError => ORCA_OUT_OF_BOUNDS
  | UnknownFillError => ORCA_UNKNOWN_FILL_TYPE
  end.

(** Sticky compute mask definitions ([ORCAMath.h]). *)

Definition ORCA_STICKY_COMPUTE_DIAG_MASK : Z := Z.shiftl 1 0.
Definition ORCA_STICKY_COMPUTE_DET_MASK : Z := Z.shiftl 1 1.
Definition ORCA_STICKY_COMPUTE_INV_MASK : Z := Z.shiftl 1 2.

(** Fill types ([Fill.h], [typedef const int fillType]). *)

Module fill.
Definition fillType : Type := Z.
Definition zeros : fillType := 0.
Definition ones : fillType := 1.
Definition value : fillType := 2.
Definition eye : fillType := 3.
Definition rand : fillType := 4.
End fill.

(** ** The scalar contract

    The template parameter [T] is used through [+], [*], [/], unary [-],
    [==] against another scalar and conversion from an integer literal. *)

Class Scalar (T : Type) : Type := {
  lit : Z -> T;
  s_add : T -> T -> T;
  s_mul : T -> T -> T;
  s_div : T -> T -> T;
  s_neg : T -> T;
  s_eqb : T -> T -> bool
}.

(** Exact rationals, kept in lowest terms. *)

#[export] Instance Scalar_Q : Scalar Q := {|
  lit := fun z => inject_Z z;
  s_add := fun a b => Qred (Qplus a b);
  s_mul := fun a b => Qred (Qmult a b);
  s_div := fun a b => Qred (Qdiv a b);
  s_neg := fun a => Qred (Qopp a);
  s_eqb := Qeq_bool
|}.

(** Binary [-] of the scalar type, used by [operator -] of two matrices. *)
Class Subtraction (T : Type) : Type := s_sub : T -> T -> T.

#[export] Instance Subtraction_Q : Subtraction Q := fun a b => Qred (Qminus a b).

(** ** Outcomes and the heap monad *)

Inductive outcome (A : Type) : Type :=
| Ret (a : A)
| Throw (e : ORCAException)
| Undefined
| OutOfFuel.

Arguments Ret {A} a.
Arguments Throw {A} e.
Arguments Undefined {A}.
Arguments OutOfFuel {A}.

Definition loc : Type := nat.

(** A pointer [T*]: a buffer and an element offset into it. *)
Definition ptr : Type := (loc * Z)%type.

(** The heap has one entry per [malloc]ed buffer; [None] is a cell not yet
    written. *)
Abbreviation heap T := (list (list (option T))) (only parsing).

Section Heap.
Context {T : Type}.

Definition M (A : Type) : Type := heap T -> outcome (A * heap T).

Definition ret {A} (a : A) : M A := fun h => Ret (a, h).

Definition bind {A B} (c : M A) (k : A -> M B) : M B :=
  fun h =>
    match c h with
    | Ret (a, h') => k a h'
    | Throw e => Throw e
    | Undefined => Undefined
    | OutOfFuel => OutOfFuel
    end.

Definition throw {A} (e : ORCAException) : M A := fun _ => Throw e.
Definition undefined {A} : M A := fun _ => Undefined.
Definition out_of_fuel {A} : M A := fun _ => OutOfFuel.

Definition lift {A} (o : outcome A) : M A :=
  fun h =>
    match o with
    | Ret a => Ret (a, h)
    | Throw e => Throw e
    | Undefined => Undefined
    | OutOfFuel => OutOfFuel
    end.

(** [static_cast<T*>(malloc(sizeof(T) * n))] *)
Definition malloc (n : Z) : M loc :=
  fun h => Ret (length h, h ++ [replicate (Z.to_nat n) None]).

(** [*p] as an rvalue *)
Definition load (p : ptr) : M T :=
  fun h =>
    match h !! fst p with
    | Some buf =>
        if snd p <? 0 then Undefined else
        match buf !! Z.to_nat (snd p) with
        | Some (Some v) => Ret (v, h)
        | _ => Undefined
        end
    | None => Undefined
    end.

(** [*p = v] *)
Definition store (p : ptr) (v : T) : M unit :=
  fun h =>
    match h !! fst p with
    | Some buf =>
        if snd p <? 0 then Undefined else
        if Nat.ltb (Z.to_nat (snd p)) (length buf) then
          Ret (tt, <[fst p := <[Z.to_nat (snd p) := Some v]> buf]> h)
        else Undefined
    | None => Undefined
    end.
End Heap.

Arguments M T A : clear implicits.

Notation "x <- c1 ;; c2" := (bind c1 (fun x => c2))
  (at level 100, c1 at next level, right associativity).

(** ** Loops

    [for (i = lo; i < hi; ++i) body]: the bounds of every counted loop of
    the sources are fixed on entry, so the loop is a fold over [lo..hi-1]. *)

Section Loops.
Context {T : Type}.

Fixpoint foldM {A S} (body : A -> S -> M T S) (l : list A) (s : S) : M T S :=
  match l with
  | [] => ret s
  | a :: l' => s' <- body a s ;; foldM body l' s'
  end.

Definition for_range {S} (lo hi : Z) (body : Z -> S -> M T S) (s : S) : M T S :=
  foldM body (seqZ lo (hi - lo)) s.

(** A counted loop whose body may [return]: [inr r] leaves the function. *)
Fixpoint foldM_ret {A S R} (body : A -> S -> M T (S + R)) (l : list A) (s : S)
  : M T (S + R) :=
  match l with
  | [] => ret (inl s)
  | a :: l' =>
      x <- body a s ;;
      match x with
      | inl s' => foldM_ret body l' s'
      | inr r => ret (inr r)
      end
  end.

Definition for_range_ret {S R} (lo hi : Z) (body : Z -> S -> M T (S + R)) (s : S)
  : M T (S + R) :=
  foldM_ret body (seqZ lo (hi - lo)) s.
End Loops.

(** ** [Vec<T>] ([Vec.h])

    [Vec.h] writes its indices as [ORCA_SIZE_TYPE], a macro that the
    sources at hand do not define; it is the index type of the library and
    is read as [index_t].  The member [at] is spelled [at_], [at] being a
    keyword here. *)

Module Vec.
Section Vec.
Context {T : Type} {ST : Scalar T}.

(** The fields a [Vec<T>] object carries; [_stickyComputeMask] is
    inherited from [Mat<T>] and is not initialised by [Vec::_allocate]. *)
Record t : Type := {
  _mat : loc;
  _n_rows : Z;
  _n_cols : Z;
  _n_elems : Z;
  _stickyComputeMask : option Z
}.

Definition _allocate (n_elems : Z) : M T t :=
  if n_elems <? 0 then throw EmptyElementError
  else
    m <- malloc n_elems ;;
    ret {| _mat := m; _n_rows := 1; _n_cols := n_elems; _n_elems := n_elems;
           _stickyComputeMask := None |}.

Definition length (this : t) : Z := _n_elems this.

Definition _address (this : t) (elem : Z) : outcome ptr :=
  if (elem <? 0) || (length this <? elem) then Throw OutOfBoundsError
  else Ret (_mat this, elem).

(** [Vec(ORCA_SIZE_TYPE elements)] *)
Definition new (elements : Z) : M T t := _allocate elements.

(** [set(index, elem)] *)
Definition set (this : t) (index : Z) (elem : T) : M T t :=
  p <- lift (_address this index) ;;
  _ <- store p elem ;;
  ret {| _mat := _mat this; _n_rows := _n_rows this; _n_cols := _n_cols this;
         _n_elems := _n_elems this; _stickyComputeMask := Some 0 |}.

(** [at(index)] *)
Definition at_ (this : t) (index : Z) : M T T :=
  p <- lift (_address this index) ;;
  load p.

(** Modelled from the spec: [Vec<T>::prod()] is called by [Mat<T>::det]
    but its definition is not part of the sources at hand; the spec
    describes it as the product of the elements (of the diagonal). *)
Definition prod (this : t) : M T T :=
  for_range 0 (length this)
    (fun i acc => x <- at_ this i ;; ret (s_mul acc x)) (lit 1).

(** [at(row, col)] of a row vector *)
Definition at2 (this : t) (row col : Z) : M T T :=
  if negb (row =? 0) then throw OutOfBoundsError
  else
    p <- lift (_address this col) ;;
    load p.

(** [set(row, col, elem)] of a row vector *)
Definition set2 (this : t) (row col : Z) (elem : T) : M T t :=
  if negb (row =? 0) then throw OutOfBoundsError
  else
    p <- lift (_address this col) ;;
    _ <- store p elem ;;
    ret {| _mat := _mat this; _n_rows := _n_rows this; _n_cols := _n_cols this;
           _n_elems := _n_elems this; _stickyComputeMask := Some 0 |}.

(** [Vec(std::initializer_list<T> _casted_values)] *)
Definition of_list (_casted_values : list T) : M T t :=
  this <- _allocate (Z.of_nat (List.length _casted_values)) ;;
  for_range 0 (_n_elems this)
    (fun i this =>
       match _casted_values !! Z.to_nat i with
       | Some x => set this i x
       | None => undefined
       end) this.

(** [template <class T1, class T2> auto dot(Vec<T1> v1, Vec<T2> v2)], at
    one scalar type. *)
Definition dot (v1 v2 : t) : M T T :=
  if (length v1 =? 0) || (length v2 =? 0) then throw EmptyElementError
  else if negb (length v1 =? length v2) then throw BadDimensionsError
  else
    a <- at_ v1 0 ;;
    b <- at_ v2 0 ;;
    for_range 1 (length v1)
      (fun i result =>
         a <- at_ v1 i ;;
         b <- at_ v2 i ;;
         ret (s_add result (s_mul a b))) (s_mul a b).
End Vec.
End Vec.

(** ** [Mat<T>] ([Mat.h]) *)

Module Mat.
Section Mat.
Context {T : Type} {ST : Scalar T}.

(** [fill::rand] draws from a generator seeded with the system clock;
    [generator i j] stands for the value drawn for cell [(i, j)]. *)
Variable generator : Z -> Z -> T.

(** A [MatInv] object as [inv()] leaves it behind [_inv]: its buffer and
    dimensions (its own cache fields are never read). *)
Record MatInv : Type := {
  inv_mat : loc;
  inv_n_rows : Z;
  inv_n_cols : Z
}.

(** The fields of a [Mat<T>] object.  [_det] and [_inv] are not
    initialised by any constructor: [None] until [det()]/[inv()] write
    them. *)
Record t : Type := {
  _mat : loc;
  _n_rows : Z;
  _n_cols : Z;
  _stickyComputeMask : Z;
  _det : option T;
  _inv : option MatInv
}.

Definition with_mask (this : t) (mask : Z) : t :=
  {| _mat := _mat this; _n_rows := _n_rows this; _n_cols := _n_cols this;
     _stickyComputeMask := mask; _det := _det this; _inv := _inv this |}.

Definition with_det (this : t) (d : T) : t :=
  {| _mat := _mat this; _n_rows := _n_rows this; _n_cols := _n_cols this;
     _stickyComputeMask := _stickyComputeMask this; _det := Some d;
     _inv := _inv this |}.

Definition with_inv (this : t) (i : MatInv) : t :=
  {| _mat := _mat this; _n_rows := _n_rows this; _n_cols := _n_cols this;
     _stickyComputeMask := _stickyComputeMask this; _det := _det this;
     _inv := Some i |}.

(** *** Private members *)

Definition _allocate (rows cols : Z) : M T t :=
  if (rows <? 0) || (cols <? 0) then throw BadDimensionsError
  else if (rows =? 0) || (cols =? 0) then throw EmptyElementError
  else
    m <- malloc (rows * cols) ;;
    ret {| _mat := m; _n_rows := rows; _n_cols := cols;
           _stickyComputeMask := 0; _det := None; _inv := None |}.

Definition _address (this : t) (row col : Z) : outcome ptr :=
  if (_n_rows this <? row) || (row <? 0) || (_n_cols this <? col) || (col <? 0)
  then Throw OutOfBoundsError
  else Ret (_mat this, col + row * _n_cols this).

(** *** Setters and getters of the storage class *)

Definition set (this : t) (row col : Z) (elem : T) : M T t :=
  p <- lift (_address this row col) ;;
  _ <- store p elem ;;
  ret (with_mask this 0).

(** [Mat<T>::at], the implementation of the base class. *)
Definition at_ (this : t) (row col : Z) : M T T :=
  p <- lift (_address this row col) ;;
  load p.

(** *** The class hierarchy under virtual dispatch

    [MatTr] and [SubMat] derive from [Mat<T>], keep a pointer [_matrix] to
    their parent and override [at].  Their inherited [_n_rows]/[_n_cols]
    are set by the constructor; the parent's dimensions and buffer pointer
    never change after construction, so the pointer is modelled by the
    parent object itself, the elements staying in the shared heap. *)
Inductive obj : Type :=
| Plain (m : t)
| MatTr (n_rows n_cols : Z) (_matrix : obj)
| SubMat (n_rows n_cols : Z) (_matrix : obj) (_r1 _r2 _c1 _c2 : Z).

Definition rows (o : obj) : Z :=
  match o with
  | Plain m => _n_rows m
  | MatTr n_rows _ _ => n_rows
  | SubMat n_rows _ _ _ _ _ _ => n_rows
  end.

Definition cols (o : obj) : Z :=
  match o with
  | Plain m => _n_cols m
  | MatTr _ n_cols _ => n_cols
  | SubMat _ n_cols _ _ _ _ _ => n_cols
  end.

(** [virtual T at(index_t row, index_t col) const] *)
Fixpoint vat (o : obj) (row col : Z) : M T T :=
  match o with
  | Plain m => at_ m row col
  | MatTr _ _ _matrix => vat _matrix col row
  | SubMat n_rows n_cols _matrix _r1 _ _c1 _ =>
      if (row <? 0) || (n_rows <? row) || (col <? 0) || (n_cols <? col)
      then throw OutOfBoundsError
      else vat _matrix (row + _r1) (col + _c1)
  end.

(** [MatTr(const Mat<T>* matrix)] and [t()] *)
Definition MatTr_new (matrix : obj) : obj :=
  MatTr (cols matrix) (rows matrix) matrix.

Definition tr (this : obj) : obj := MatTr_new this.

(** [SubMat(const Mat<T>* matrix, r1, r2, c1, c2)] and [range(...)] *)
Definition SubMat_new (matrix : obj) (r1 r2 c1 c2 : Z) : outcome obj :=
  if (r2 <? r1) || (c2 <? c1) then Throw BadDimensionsError
  else Ret (SubMat (r2 - r1 + 1) (c2 - c1 + 1) matrix r1 r2 c1 c2).

Definition range (this : obj) (row1 row2 col1 col2 : Z) : outcome obj :=
  SubMat_new this row1 row2 col1 col2.

(** *** Fillers *)

Definition fill_cells (this : t) (f : Z -> Z -> T) : M T t :=
  for_range 0 (_n_rows this)
    (fun i this => for_range 0 (_n_cols this)
       (fun j this => set this i j (f i j)) this) this.

Definition zeros (this : t) : M T t := fill_cells this (fun _ _ => lit 0).

Definition randFill (this : t) (lowerBound upperBound : T) : M T t :=
  fill_cells this generator.

Definition eye (this : t) : M T t :=
  this <- zeros this ;;
  for_range 0 (Z.min (_n_rows this) (_n_cols this))
    (fun i this => set this i i (lit 1)) this.

Definition fill (this : t) (elem : T) : M T t :=
  fill_cells this (fun _ _ => elem).

Definition ones (this : t) : M T t := fill this (lit 1).

(** *** Constructors *)

(** [Mat(index_t rows, index_t cols)] *)
Definition new (rows cols : Z) : M T t := _allocate rows cols.

(** [template <class T1> Mat(Mat<T1>* _castM)]: the deep copy behind
    [Mat<T> clone = this;] *)
Definition of_ptr (_castM : obj) : M T t :=
  this <- _allocate (rows _castM) (cols _castM) ;;
  for_range 0 (_n_rows this)
    (fun i this => for_range 0 (_n_cols this)
       (fun j this => x <- vat _castM i j ;; set this i j x) this) this.

(** [Mat(std::initializer_list<std::initializer_list<T> > _castValues)];
    [*(_castValues.begin())] on an empty list is undefined. *)
Definition of_list (_castValues : list (list T)) : M T t :=
  match _castValues with
  | [] => undefined
  | first :: _ =>
      this <- _allocate (Z.of_nat (length _castValues)) (Z.of_nat (length first)) ;;
      for_range 0 (_n_rows this)
        (fun i this => for_range 0 (_n_cols this)
           (fun j this =>
              match _castValues !! Z.to_nat i with
              | None => undefined
              | Some row =>
                  if negb (Z.of_nat (length row) =? _n_cols this)
                  then throw BadDimensionsError
                  else match row !! Z.to_nat j with
                       | Some x => set this i j x
                       | None => undefined
                       end
              end) this) this
  end.

(** [Mat(index_t rows, index_t cols, fill::fillType type)] *)
Definition of_fill (rows cols : Z) (type : fill.fillType) : M T t :=
  this <- _allocate rows cols ;;
  if type =? fill.zeros then zeros this
  else if type =? fill.eye then eye this
  else if type =? fill.ones then ones this
  else if type =? fill.rand then randFill this (lit 0) (lit 1)
  else throw UnknownFillError.

(** [MatInv(Mat<T> _castM)]: [MatInv::_allocate] repeats the checks of
    [Mat::_allocate]. *)
Definition MatInv_new (_castM : t) : M T MatInv :=
  this <- _allocate (_n_rows _castM) (_n_cols _castM) ;;
  this <- for_range 0 (_n_rows this)
    (fun i this => for_range 0 (_n_cols this)
       (fun j this => x <- at_ _castM i j ;; set this i j x) this) this ;;
  ret {| inv_mat := _mat this; inv_n_rows := _n_rows this;
         inv_n_cols := _n_cols this |}.

(** [return *this->_inv;]: the [MatInv] sliced to a [Mat<T>] by the
    implicit copy constructor; the copy shares the cached buffer. *)
Definition of_MatInv (i : MatInv) : t :=
  {| _mat := inv_mat i; _n_rows := inv_n_rows i; _n_cols := inv_n_cols i;
     _stickyComputeMask := 0; _det := None; _inv := None |}.

(** *** Row and diagonal accessors *)

(** [setRow(index_t row, Vec<T> _vec)] *)
Definition setRow (this : t) (row : Z) (_vec : Vec.t) : M T t :=
  if negb (Vec.length _vec =? _n_cols this) then throw BadDimensionsError
  else
    for_range 0 (_n_cols this)
      (fun i this => x <- Vec.at_ _vec i ;; set this row i x) this.

(** [Mat<T>::MatRow] ([Vec.h]): a row vector that points into a matrix. *)
Record MatRow : Type := {
  _matrix : obj;
  _row : Z;
  row_n_elems : Z
}.

(** [MatRow(Mat<T>* matrix, row)] *)
Definition MatRow_new (matrix : obj) (row : Z) : MatRow :=
  {| _matrix := matrix; _row := row; row_n_elems := cols matrix |}.

(** [MatRow::at(index)] *)
Definition MatRow_at (this : MatRow) (index : Z) : M T T :=
  vat (_matrix this) (_row this) index.

Definition getRow (this : obj) (row : Z) : outcome MatRow :=
  if (rows this <? row) || (row <? 0) then Throw OutOfBoundsError
  else Ret (MatRow_new this row).

Definition diag (this : t) : M T Vec.t :=
  result <- Vec.new (Z.min (_n_rows this) (_n_cols this)) ;;
  for_range 0 (Vec.length result)
    (fun i result => x <- at_ this i i ;; Vec.set result i x) result.

(** *** Row operations *)

Definition rowSwap (this : t) (r1 r2 : Z) : M T t :=
  r1Temp <- lift (getRow (Plain this) r1) ;;
  r1TempLoaded <- Vec.new (_n_cols this) ;;
  r1TempLoaded <- for_range 0 (_n_cols this)
    (fun i v => x <- MatRow_at r1Temp i ;; Vec.set v i x) r1TempLoaded ;;
  this <- for_range 0 (_n_cols this)
    (fun i this => x <- at_ this r2 i ;; set this r1 i x) this ;;
  setRow this r2 r1TempLoaded.

Definition rowMutliply (this : t) (r1 : Z) (t1 : T) : M T t :=
  for_range 0 (_n_cols this)
    (fun i this => x <- at_ this r1 i ;; set this r1 i (s_mul t1 x)) this.

(** [rowAdd(index_t r1, index_t r2, T multiply)] *)
Definition rowAdd (this : t) (r1 r2 : Z) (multiply : T) : M T t :=
  for_range 0 (_n_cols this)
    (fun i this =>
       x <- at_ this r1 i ;;
       y <- at_ this r2 i ;;
       set this r1 i (s_add x (s_mul multiply y))) this.

(** *** Elimination kernels *)

(** The pivot search shared, as the same text, by [det], [rref] and
    [rref(Mat<T>)]:
<<
    while (m.at(i,lead) == 0) {
        ++i;
        if (m.rows() == i) { i = r; ++lead; if (m.cols() == lead) return ...; }
    }
>>
    [None] is the [return] inside the loop, [Some (i, lead)] the normal
    exit.  Every iteration advances [i] or [lead] and [at] throws once
    [lead] exceeds [cols], so [pivot_fuel] iterations are never used up
    (lemma [find_pivot_total]). *)
Fixpoint find_pivot (fuel : nat) (m : t) (r i lead : Z) : M T (option (Z * Z)) :=
  match fuel with
  | O => out_of_fuel
  | S fuel' =>
      x <- at_ m i lead ;;
      if s_eqb x (lit 0) then
        let i := i + 1 in
        if _n_rows m =? i then
          let lead := lead + 1 in
          if _n_cols m =? lead then ret None
          else find_pivot fuel' m r r lead
        else find_pivot fuel' m r i lead
      else ret (Some (i, lead))
  end.

Definition pivot_fuel (m : t) : nat :=
  Z.to_nat ((_n_cols m + 2) * _n_rows m).

(** [multiplier *= ((((i - r) % 2) == 0) ? 1 : -1);] *)
Definition swap_sign (i r : Z) : T :=
  if Z.rem (i - r) 2 =? 0 then lit 1 else lit (-1).

(** One iteration of the [for (r = 0; r < matClone.rows(); ++r)] loop of
    [det]; the state is [(lead, multiplier, matClone)], and [inr tt] is
    one of the two [return 0;]. *)
Definition det_step (r : Z) (st : Z * T * t) : M T (Z * T * t + unit) :=
  let '(lead, multiplier, matClone) := st in
  if _n_cols matClone <? lead then ret (inr tt)
  else
    p <- find_pivot (pivot_fuel matClone) matClone r r lead ;;
    match p with
    | None => ret (inr tt)
    | Some (i, lead) =>
        matClone <- rowSwap matClone i r ;;
        let multiplier := s_mul multiplier (swap_sign i r) in
        x <- at_ matClone r lead ;;
        mm <- (if negb (s_eqb x (lit 0)) then
                 y <- at_ matClone r lead ;;
                 z <- at_ matClone r lead ;;
                 matClone <- rowMutliply matClone r (s_div (lit 1) z) ;;
                 ret (s_mul multiplier y, matClone)
               else ret (multiplier, matClone)) ;;
        let '(multiplier, matClone) := mm in
        matClone <- for_range r (_n_rows matClone)
          (fun i matClone =>
             if negb (i =? r) then
               x <- at_ matClone i lead ;;
               rowAdd matClone i r (s_neg x)
             else ret matClone) matClone ;;
        ret (inl (lead + 1, multiplier, matClone))
    end.

(** The part of [det()] after the cache look-up and the dimension check.
    The result pairs the returned value with the caller's object. *)
Definition det_compute (this : t) : M T (T * t) :=
  matClone <- of_ptr (Plain this) ;;
  res <- for_range_ret 0 (_n_rows matClone) det_step (0, lit 1, matClone) ;;
  match res with
  | inr _ => ret (lit 0, this)
  | inl (_, multiplier, matClone) =>
      let this := with_mask this
        (Z.lor (_stickyComputeMask this) ORCA_STICKY_COMPUTE_DET_MASK) in
      d <- diag matClone ;;
      p <- Vec.prod d ;;
      let this := with_det this (s_mul multiplier p) in
      ret (s_mul multiplier p, this)
  end.

Definition det (this : t) : M T (T * t) :=
  if negb (Z.land (_stickyComputeMask this) ORCA_STICKY_COMPUTE_DET_MASK =? 0)
  then match _det this with
       | Some d => ret (d, this)
       | None => undefined
       end
  else if negb (_n_rows this =? _n_cols this) then throw BadDimensionsError
  else det_compute this.

(** One iteration of the row loop of [rref()]; state [(lead, _m1Clone)],
    [inr m] is [return _m1Clone;]. *)
Definition rref_step (r : Z) (st : Z * t) : M T (Z * t + t) :=
  let '(lead, _m1Clone) := st in
  if _n_cols _m1Clone <? lead then ret (inr _m1Clone)
  else
    p <- find_pivot (pivot_fuel _m1Clone) _m1Clone r r lead ;;
    match p with
    | None => ret (inr _m1Clone)
    | Some (i, lead) =>
        _m1Clone <- rowSwap _m1Clone i r ;;
        x <- at_ _m1Clone r lead ;;
        _m1Clone <- (if negb (s_eqb x (lit 0)) then
                       y <- at_ _m1Clone r lead ;;
                       rowMutliply _m1Clone r (s_div (lit 1) y)
                     else ret _m1Clone) ;;
        _m1Clone <- for_range 0 (_n_rows _m1Clone)
          (fun i _m1Clone =>
             if negb (i =? r) then
               x <- at_ _m1Clone i lead ;;
               rowAdd _m1Clone i r (s_neg x)
             else ret _m1Clone) _m1Clone ;;
        ret (inl (lead + 1, _m1Clone))
    end.

Definition rref (this : t) : M T t :=
  _m1Clone <- of_ptr (Plain this) ;;
  res <- for_range_ret 0 (_n_rows _m1Clone) rref_step (0, _m1Clone) ;;
  match res with
  | inr m => ret m
  | inl (_, _m1Clone) => ret _m1Clone
  end.

(** One iteration of the row loop of [rref(Mat<T> _m2)]; state
    [(lead, _m1Clone, _m2Clone)], [inr m] is [return _m2Clone;]. *)
Definition rref_with_step (r : Z) (st : Z * t * t) : M T (Z * t * t + t) :=
  let '(lead, _m1Clone, _m2Clone) := st in
  if _n_cols _m1Clone <? lead then ret (inr _m2Clone)
  else
    p <- find_pivot (pivot_fuel _m1Clone) _m1Clone r r lead ;;
    match p with
    | None => ret (inr _m2Clone)
    | Some (i, lead) =>
        mm <- (if negb (i =? r) then
                 _m1Clone <- rowSwap _m1Clone i r ;;
                 _m2Clone <- rowSwap _m2Clone i r ;;
                 ret (_m1Clone, _m2Clone)
               else ret (_m1Clone, _m2Clone)) ;;
        let '(_m1Clone, _m2Clone) := mm in
        x <- at_ _m1Clone r lead ;;
        mm <- (if negb (s_eqb x (lit 0)) then
                 y <- at_ _m1Clone r lead ;;
                 _m2Clone <- rowMutliply _m2Clone r (s_div (lit 1) y) ;;
                 y <- at_ _m1Clone r lead ;;
                 _m1Clone <- rowMutliply _m1Clone r (s_div (lit 1) y) ;;
                 y <- at_ _m1Clone r lead ;;
                 _m2Clone <- rowMutliply _m2Clone r (s_div (lit 1) y) ;;
                 ret (_m1Clone, _m2Clone)
               else ret (_m1Clone, _m2Clone)) ;;
        let '(_m1Clone, _m2Clone) := mm in
        mm <- for_range 0 (_n_rows _m1Clone)
          (fun i mm =>
             let '(_m1Clone, _m2Clone) := mm in
             if negb (i =? r) then
               x <- at_ _m1Clone i lead ;;
               _m2Clone <- rowAdd _m2Clone i r (s_neg x) ;;
               x <- at_ _m1Clone i lead ;;
               _m1Clone <- rowAdd _m1Clone i r (s_neg x) ;;
               ret (_m1Clone, _m2Clone)
             else ret (_m1Clone, _m2Clone)) (_m1Clone, _m2Clone) ;;
        let '(_m1Clone, _m2Clone) := mm in
        ret (inl (lead + 1, _m1Clone, _m2Clone))
    end.

(** [Mat<T> rref(Mat<T> _m2)].  [Mat<T> _m1Clone = this;] converts from a
    pointer and runs the deep-copying constructor [of_ptr];
    [Mat<T> _m2Clone = _m2;] copies an object of the same class, which is
    the implicit copy constructor (a constructor template is never a copy
    constructor): the fields are copied and [_mat] still points to the
    buffer of the argument. *)
Definition rref_with (this : t) (_m2 : t) : M T t :=
  _m1Clone <- of_ptr (Plain this) ;;
  let _m2Clone := _m2 in
  res <- for_range_ret 0 (_n_rows _m1Clone) rref_with_step
           (0, _m1Clone, _m2Clone) ;;
  match res with
  | inr m => ret m
  | inl (_, _, _m2Clone) => ret _m2Clone
  end.

(** [Mat<T> inv()]; the result pairs the returned matrix with the
    caller's object. *)
Definition inv (this : t) : M T (t * t) :=
  if negb (Z.land (_stickyComputeMask this) ORCA_STICKY_COMPUTE_INV_MASK =? 0)
  then match _inv this with
       | Some i => ret (of_MatInv i, this)
       | None => undefined
       end
  else if negb (_n_rows this =? _n_cols this) then throw BadDimensionsError
  else
    e <- of_fill (_n_rows this) (_n_cols this) fill.eye ;;
    reduced <- rref_with this e ;;
    i <- MatInv_new reduced ;;
    let this := with_inv this i in
    let this := with_mask this
      (Z.lor (_stickyComputeMask this) ORCA_STICKY_COMPUTE_INV_MASK) in
    ret (of_MatInv i, this).

(** *** Further members *)

(** [Mat(index_t rows, index_t cols, fill::fillType type, T elem)] *)
Definition of_fill_value (rows cols : Z) (type : fill.fillType) (elem : T)
  : M T t :=
  this <- _allocate rows cols ;;
  if type =? fill.value then fill this elem
  else throw UnknownFillError.

(** [setCol(index_t col, Vec<T> _vec)] *)
Definition setCol (this : t) (col : Z) (_vec : Vec.t) : M T t :=
  if negb (Vec.length _vec =? _n_rows this) then throw BadDimensionsError
  else
    for_range 0 (_n_rows this)
      (fun i this => x <- Vec.at_ _vec i ;; set this i col x) this.

(** [Mat<T>::MatCol] ([Vec.h]): a column vector that points into a
    matrix. *)
Record MatCol : Type := {
  col_matrix : obj;
  _col : Z;
  col_n_elems : Z
}.

(** [MatCol(Mat<T>* matrix, col)] *)
Definition MatCol_new (matrix : obj) (col : Z) : MatCol :=
  {| col_matrix := matrix; _col := col; col_n_elems := rows matrix |}.

(** [MatCol::at(index)] *)
Definition MatCol_at (this : MatCol) (index : Z) : M T T :=
  vat (col_matrix this) index (_col this).

Definition getCol (this : obj) (col : Z) : outcome MatCol :=
  if (cols this <? col) || (col <? 0) then Throw OutOfBoundsError
  else Ret (MatCol_new this col).

(** [virtual SubMat operator [] (index_t index)]: [Mat] returns the row as
    a view; [SubMat] overrides it and, on a view of one row, returns the
    element as a 1x1 view. *)
Definition index (this : obj) (index : Z) : outcome obj :=
  match this with
  | SubMat n_rows _ _ _ _ _ _ =>
      if n_rows =? 1 then range this 0 0 index index
      else range this index index 0 (cols this - 1)
  | _ => range this index index 0 (cols this - 1)
  end.

(** *** Arithmetic operators, at one scalar type

    The operators take their operands by value: each parameter is a copy
    made by the implicit copy constructor and shares the buffer of the
    argument. *)

(** [operator + (Mat<T1> m1, Mat<T2> m2)] *)
Definition operator_add (m1 m2 : t) : M T t :=
  if negb (_n_rows m1 =? _n_rows m2) || negb (_n_cols m1 =? _n_cols m2)
  then throw BadDimensionsError
  else
    m3 <- new (_n_rows m1) (_n_cols m1) ;;
    for_range 0 (_n_rows m1)
      (fun i m3 => for_range 0 (_n_cols m1)
         (fun j m3 =>
            x <- at_ m1 i j ;;
            y <- at_ m2 i j ;;
            set m3 i j (s_add x y)) m3) m3.

(** [operator - (Mat<T1> m1, Mat<T2> m2)] *)
Definition operator_sub {SB : Subtraction T} (m1 m2 : t) : M T t :=
  if negb (_n_rows m1 =? _n_rows m2) || negb (_n_cols m1 =? _n_cols m2)
  then throw BadDimensionsError
  else
    m3 <- new (_n_rows m1) (_n_cols m1) ;;
    for_range 0 (_n_rows m1)
      (fun i m3 => for_range 0 (_n_cols m1)
         (fun j m3 =>
            x <- at_ m1 i j ;;
            y <- at_ m2 i j ;;
            set m3 i j (s_sub x y)) m3) m3.

(** [operator - (Mat<T> m1)] *)
Definition operator_neg (m1 : t) : M T t :=
  result <- new (_n_rows m1) (_n_cols m1) ;;
  for_range 0 (_n_rows result)
    (fun i result => for_range 0 (_n_cols result)
       (fun j result =>
          x <- at_ m1 i j ;;
          set result i j (s_neg x)) result) result.

(** [operator * (Mat<T1> m1, Mat<T2> m2)].  The two checks only assign
    [errno]; the first component of the result is the value [errno] was
    last given, if any. *)
Definition operator_mul (m1 m2 : t) : M T (option Z * t) :=
  let errno := if negb (_n_cols m1 =? _n_rows m2)
               then Some ORCA_BAD_DIMENSIONS else None in
  let errno := if (_n_rows m1 =? 0) || (_n_cols m1 =? 0) ||
                  (_n_rows m2 =? 0) || (_n_cols m2 =? 0)
               then Some ORCA_EMPTY_ELEMENT else errno in
  result <- new (_n_rows m1) (_n_cols m2) ;;
  result <- for_range 0 (_n_rows m1)
    (fun i result => for_range 0 (_n_cols m2)
       (fun j result =>
          v1 <- lift (getRow (Plain m1) i) ;;
          v2 <- lift (getCol (Plain m2) j) ;;
          a <- MatRow_at v1 0 ;;
          b <- MatCol_at v2 0 ;;
          dotRes <- for_range 1 (row_n_elems v1)
            (fun k dotRes =>
               a <- MatRow_at v1 k ;;
               b <- MatCol_at v2 k ;;
               ret (s_add dotRes (s_mul a b))) (s_mul a b) ;;
          set result i j dotRes) result) result ;;
  ret (errno, result).

(** [operator * (Mat<T1> m1, T2 t2)]; [operator * (T1 t2, Mat<T2> m1)] and
    [operator *= (Mat<T1> &m1, T2 t2)] return [m1 * t2]. *)
Definition operator_scale (m1 : t) (t2 : T) : M T t :=
  for_range 0 (_n_rows m1)
    (fun i m1 => for_range 0 (_n_cols m1)
       (fun j m1 =>
          x <- at_ m1 i j ;;
          set m1 i j (s_mul x t2)) m1) m1.

(** [template <class T1> Mat(std::initializer_list<std::initializer_list<
    Mat<T1>>> _castValues)], the constructor of block matrices, at one
    scalar type.  [*(_castValues.begin())] on an empty list and
    [*((_castValues.begin() + i)->begin())] on an empty row are undefined.
    The blocks are read through shallow copies ([auto M = ...]). *)
Definition of_blocks (_castValues : list (list t)) : M T t :=
  match _castValues with
  | [] => undefined
  | first :: _ =>
      let colNum := fold_left (fun colNum b => colNum + _n_cols b) first 0 in
      rowNum <- foldM
        (fun row rowNum =>
           match row with
           | [] => undefined
           | b0 :: _ =>
               let rowNumTemp := _n_rows b0 in
               let rowNum := rowNum + rowNumTemp in
               colNumTemp <- foldM
                 (fun b colNumTemp =>
                    if negb (_n_rows b =? rowNumTemp)
                    then throw BadDimensionsError
                    else ret (colNumTemp + _n_cols b)) row 0 ;;
               if negb (colNumTemp =? colNum) then throw BadDimensionsError
               else ret rowNum
           end) _castValues 0 ;;
      this <- _allocate rowNum colNum ;;
      st <- foldM
        (fun row (st : t * Z) =>
           let '(this, rowStart) := st in
           st' <- foldM
             (fun b (st' : t * Z) =>
                let '(this, colStart) := st' in
                this <- for_range 0 (_n_rows b)
                  (fun iInnerLoop this => for_range 0 (_n_cols b)
                     (fun jInnerLoop this =>
                        x <- at_ b iInnerLoop jInnerLoop ;;
                        set this (rowStart + iInnerLoop)
                                 (colStart + jInnerLoop) x) this) this ;;
                ret (this, colStart + _n_rows b)) row (this, 0) ;;
           match row with
           | [] => undefined
           | b0 :: _ => ret (fst st', rowStart + _n_rows b0)
           end) _castValues (this, 0) ;;
      ret (fst st)
  end.
End Mat.

Arguments t T : clear implicits.
Arguments obj T : clear implicits.

(** [template<class T1, class T2> bool operator == (Mat<T1> m1, Mat<T2> m2)].
  The two operands hold scalars of different types and so live in two
  heaps; the operator only reads.  [ne] is [operator !=] between a [T1]
  and a [T2]. *)
Section Equality.
Context {T1 T2 : Type} {ST1 : Scalar T1} {ST2 : Scalar T2}.
Variable ne : T1 -> T2 -> bool.

(** Runs a read of the second heap inside a computation on the first. *)
Definition peek {A} (h2 : heap T2) (c : M T2 A) : M T1 A :=
  fun h1 =>
    match c h2 with
    | Ret (a, _) => Ret (a, h1)
    | Throw e => Throw e
    | Undefined => Undefined
    | OutOfFuel => OutOfFuel
    end.

Definition operator_eq (m1 : t T1) (m2 : t T2) (h2 : heap T2) : M T1 bool :=
  if negb (_n_rows m1 =? _n_rows m2) || negb (_n_cols m1 =? _n_cols m2)
  then ret false
  else
    res <- for_range_ret 0 (_n_rows m1)
      (fun i (_ : unit) =>
         for_range_ret 0 (_n_cols m1)
           (fun j (_ : unit) =>
              x <- at_ m1 i j ;;
              y <- peek h2 (at_ m2 i j) ;;
              if ne x y then ret (inr false) else ret (inl tt)) tt) tt ;;
    match res with
    | inr b => ret b
    | inl _ => ret true
    end.
End Equality.
End Mat.

(** ** Observations used by the statements *)

Section Observations.
Context {T : Type} {ST : Scalar T}.

Definition result_of {A} (o : outcome (A * heap T)) : outcome A :=
  match o with
  | Ret (a, _) => Ret a
  | Throw e => Throw e
  | Undefined => Undefined
  | OutOfFuel => OutOfFuel
  end.

(** A program run in a fresh process: nothing is allocated yet. *)
Definition run {A} (c : M T A) : outcome A := result_of (c []).

Fixpoint mapM {A B} (f : A -> M T B) (l : list A) : M T (list B) :=
  match l with
  | [] => ret []
  | a :: l' => b <- f a ;; bs <- mapM f l' ;; ret (b :: bs)
  end.

(** All elements of a matrix, row by row, read through [at]. *)
Definition elements (this : Mat.obj T) : M T (list (list T)) :=
  mapM (fun i => mapM (fun j => Mat.vat this i j) (seqZ 0 (Mat.cols this)))
       (seqZ 0 (Mat.rows this)).

(** The cell of the buffer that holds element [(i, j)] in row-major
    order, when it exists and has been written. *)
Definition cell (m : Mat.t T) (h : heap T) (i j : Z) : option T :=
  match h !! Mat._mat m with
  | Some buf =>
      match buf !! Z.to_nat (j + i * Mat._n_cols m) with
      | Some (Some x) => Some x
      | _ => None
      end
  | None => None
  end.

(** Every element of [m] can be read in [h]. *)
Definition readable (m : Mat.t T) (h : heap T) : Prop :=
  forall i j, 0 <= i < Mat._n_rows m -> 0 <= j < Mat._n_cols m ->
    is_Some (cell m h i j).

(** The determinant bit of the sticky cache. *)
Definition det_valid (m : Mat.t T) : bool :=
  negb (Z.land (Mat._stickyComputeMask m) ORCA_STICKY_COMPUTE_DET_MASK =? 0).

(** [m] with every cache field erased. *)
Definition uncached (m : Mat.t T) : Mat.t T :=
  {| Mat._mat := Mat._mat m; Mat._n_rows := Mat._n_rows m;
     Mat._n_cols := Mat._n_cols m; Mat._stickyComputeMask := 0;
     Mat._det := None; Mat._inv := None |}.

(** The value a call of [det()] returns. *)
Definition det_value (m : Mat.t T) (h : heap T) : outcome T :=
  result_of ((r <- Mat.det m ;; ret (fst r)) h).

(** [m1 == m2] for two matrices of one scalar type in one memory. *)
Definition operator_eq_here (m1 m2 : Mat.t T) : M T bool :=
  fun h => Mat.operator_eq (fun x y => negb (s_eqb x y)) m1 m2 h h.
End Observations.

(** ** Scenarios *)

Module Scenario.
Import Mat.
Local Open Scope Q_scope.

(** [M = [[2,1],[1,1]]] *)
Definition M21 : list (list Q) := [[2; 1]; [1; 1]].
(** [M = [[1,2,3],[4,5,6]]] *)
Definition M23 : list (list Q) := [[1; 2; 3]; [4; 5; 6]].
Definition M33 : list (list Q) := [[1; 2; 3]; [4; 5; 6]; [7; 8; 9]].
(** The permutation matrix that exchanges rows 0 and 2; its determinant
    is [-1]. *)
Definition antidiag3 : list (list Q) := [[0; 0; 1]; [0; 1; 0]; [1; 0; 0]].
(** A matrix with more rows than columns. *)
Definition tall : list (list Q) := [[1]; [1]].
Definition zero11 : list (list Q) := [[0]].
(** Singular, with its only pivot in the last column. *)
Definition shifted : list (list Q) := [[0; 1]; [0; 0]].

(** [zero11] as an object in memory, with an empty cache. *)
Definition zero11_obj : t Q :=
  {| _mat := 0%nat; _n_rows := 1; _n_cols := 1; _stickyComputeMask := 0;
     _det := None; _inv := None |}.
Definition zero11_heap : heap Q := [[Some 0]].

(** [M21] as an object in memory. *)
Definition M21_obj : t Q :=
  {| _mat := 0%nat; _n_rows := 2; _n_cols := 2; _stickyComputeMask := 0;
     _det := None; _inv := None |}.
Definition M21_heap : heap Q := [[Some 2; Some 1; Some 1; Some 1]].

(** [M21] once [det()] has run: the determinant bit is set. *)
Definition M21_cached : t Q :=
  {| _mat := 0%nat; _n_rows := 2; _n_cols := 2; _stickyComputeMask := 2;
     _det := Some 1; _inv := None |}.

(** [M21] after [set(0, 0, 3)]. *)
Definition M21_set_heap : heap Q := [[Some 3; Some 1; Some 1; Some 1]].

(** A 1x2 matrix stored in a memory of its own. *)
Definition row12_obj : t Q :=
  {| _mat := 0%nat; _n_rows := 1; _n_cols := 2; _stickyComputeMask := 0;
     _det := None; _inv := None |}.
Definition row12_heap : heap Q := [[Some 2; Some 1]].
End Scenario.

(** ** Specification vocabulary for the kernels *)

Section Frames.
Context {T : Type}.

(** [post c h Q]: run from [h], the computation [c] does not exhaust the
    fuel of a loop, and if it returns, its result and final memory satisfy
    [Q] (nothing is asked of a run that throws or is undefined). *)
Definition post {A} (c : M T A) (h : heap T) (Q : A -> heap T -> Prop) : Prop :=
  match c h with
  | Ret (a, h') => Q a h'
  | OutOfFuel => False
  | Throw _ | Undefined => True
  end.

(** [frame W h0 h]: every buffer of [h0] is still there in [h], with the
    contents it had in [h0] unless it is one of the buffers [W]. *)
Definition frame (W : loc -> Prop) (h0 h : heap T) : Prop :=
  (length h0 <= length h)%nat /\
  forall l, (l < length h0)%nat -> ~ W l -> h !! l = h0 !! l.

(** A buffer a kernel may write: allocated after [h0], or one of [W]. *)
Definition owned (W : loc -> Prop) (h0 : heap T) (l : loc) : Prop :=
  (length h0 <= l)%nat \/ W l.

(** [m'] is the object [m] up to its cache fields. *)
Definition same_store (m m' : Mat.t T) : Prop :=
  Mat._mat m' = Mat._mat m /\
  Mat._n_rows m' = Mat._n_rows m /\
  Mat._n_cols m' = Mat._n_cols m.

(** No buffer at all. *)
Definition nothing : loc -> Prop := fun _ => False.

(** Loop invariant of a kernel for one of its matrices: memory is framed,
    the buffer of [m0] may be written, and [m] is still [m0] up to its
    cache fields. *)
Definition keeps (W : loc -> Prop) (h0 : heap T) (m0 : Mat.t T)
  : Mat.t T -> heap T -> Prop :=
  fun m h => frame W h0 h /\ owned W h0 (Mat._mat m0) /\ same_store m0 m.

(** Postcondition of a loop body that may [return]. *)
Definition exit_post {S R} (Inv : S -> heap T -> Prop) (Q : R -> heap T -> Prop)
  : S + R -> heap T -> Prop :=
  fun x h => match x with inl s => Inv s h | inr r => Q r h end.

(** Invariants of the row loops of [det], [rref] and [rref(Mat<T>)]. *)
Definition det_inv (W : loc -> Prop) (h0 : heap T) (m0 : Mat.t T)
  : Z * T * Mat.t T -> heap T -> Prop :=
  fun st h => 0 <= st.1.1 /\ keeps W h0 m0 st.2 h.

Definition rref_inv (W : loc -> Prop) (h0 : heap T) (m0 : Mat.t T)
  : Z * Mat.t T -> heap T -> Prop :=
  fun st h => 0 <= st.1 /\ keeps W h0 m0 st.2 h.

Definition both_keep (W : loc -> Prop) (h0 : heap T) (m0 a0 : Mat.t T)
  : Mat.t T * Mat.t T -> heap T -> Prop :=
  fun mm h => keeps W h0 m0 mm.1 h /\ keeps W h0 a0 mm.2 h.

Definition rref_with_inv (W : loc -> Prop) (h0 : heap T) (m0 a0 : Mat.t T)
  : Z * Mat.t T * Mat.t T -> heap T -> Prop :=
  fun st h => 0 <= st.1.1 /\ keeps W h0 m0 st.1.2 h /\ keeps W h0 a0 st.2 h.
End Frames.

(** Agreement of two matrices on one cell, as [operator ==] tests it with
    the scalars' [!=]. *)
Definition cells_agree {T1 T2 : Type} (ne : T1 -> T2 -> bool)
    (m1 : Mat.t T1) (h1 : heap T1) (m2 : Mat.t T2) (h2 : heap T2)
    (i j : Z) : bool :=
  match cell m1 h1 i j, cell m2 h2 i j with
  | Some x, Some y => negb (ne x y)
  | _, _ => false
  end.

(** ** Specification vocabulary for contents *)

Section Contents.
Context {T : Type} {ST : Scalar T}.

(** [total c h Q]: run from [h], [c] returns, and its result and final
    memory satisfy [Q]. *)
Definition total {A} (c : M T A) (h : heap T) (Q : A -> heap T -> Prop) : Prop :=
  match c h with
  | Ret (a, h') => Q a h'
  | _ => False
  end.

(** The buffer of [m] exists and has [rows * cols] cells. *)
Definition allocated (m : Mat.t T) (h : heap T) : Prop :=
  exists buf, h !! Mat._mat m = Some buf /\
              length buf = Z.to_nat (Mat._n_rows m * Mat._n_cols m).

(** [(i, j)] is an index pair of [m]. *)
Definition in_range (m : Mat.t T) (i j : Z) : Prop :=
  0 <= i < Mat._n_rows m /\ 0 <= j < Mat._n_cols m.

(** [updates m h0 h P v]: [h] is [h0] with the buffer of [m] overwritten
    by [v] on the cells selected by [P]; all other cells and buffers are
    those of [h0]. *)
Definition updates (m : Mat.t T) (h0 h : heap T) (P : Z -> Z -> bool)
    (v : Z -> Z -> T) : Prop :=
  length h = length h0 /\
  (forall l, l <> Mat._mat m -> h !! l = h0 !! l) /\
  allocated m h /\
  forall i j, in_range m i j ->
    cell m h i j = if P i j then Some (v i j) else cell m h0 i j.

(** The element read at [(i, j)], with [0] for a cell that cannot be
    read. *)
Definition elem (m : Mat.t T) (h : heap T) (i j : Z) : T :=
  match cell m h i j with
  | Some x => x
  | None => lit 0
  end.

(** The buffer that every access through [o] ends in. *)
Fixpoint root (o : Mat.obj T) : Mat.t T :=
  match o with
  | Mat.Plain m => m
  | Mat.MatTr _ _ parent => root parent
  | Mat.SubMat _ _ parent _ _ _ _ => root parent
  end.

(** What [at(i, j)] returns through [o]. *)
Definition velem (o : Mat.obj T) (h : heap T) (i j : Z) : option T :=
  match Mat.vat o i j h with
  | Ret (x, _) => Some x
  | _ => None
  end.

(** The values a copy of [o] takes. *)
Definition vvalue (o : Mat.obj T) (h : heap T) (i j : Z) : T :=
  match velem o h i j with
  | Some x => x
  | None => lit 0
  end.

(** Every in-range element of [o] can be read. *)
Definition vreadable (o : Mat.obj T) (h : heap T) : Prop :=
  forall i j, 0 <= i < Mat.rows o -> 0 <= j < Mat.cols o ->
    is_Some (velem o h i j).

(** The accumulation of [dot] and of the matrix product:
    [a 0 * b 0 + a 1 * b 1 + ...], summed from the left. *)
Definition dot_sum (a b : Z -> T) (n : Z) : T :=
  fold_left (fun acc k => s_add acc (s_mul (a k) (b k)))
            (seqZ 1 (n - 1)) (s_mul (a 0) (b 0)).

(** The cell of a vector. *)
Definition vcell (v : Vec.t) (h : heap T) (k : Z) : option T :=
  match h !! Vec._mat v with
  | Some buf =>
      match buf !! Z.to_nat k with
      | Some (Some x) => Some x
      | _ => None
      end
  | None => None
  end.

Definition vec_elem (v : Vec.t) (h : heap T) (k : Z) : T :=
  match vcell v h k with
  | Some x => x
  | None => lit 0
  end.

Definition vec_readable (v : Vec.t) (h : heap T) : Prop :=
  forall k, 0 <= k < Vec.length v -> is_Some (vcell v h k).
End Contents.

Section Construction.
Context {T : Type} {ST : Scalar T}.

(** [m] reads as [v]: every in-range [at(i, j)] returns [v i j] and leaves
    memory as it is. *)
Definition reads_as (m : Mat.t T) (h : heap T) (v : Z -> Z -> T) : Prop :=
  forall i j, in_range m i j -> Mat.at_ m i j h = Ret (v i j, h).

(** A freshly constructed matrix: its buffer is the next one of the heap
    and its cache is empty; the buffers that were there are unchanged. *)
Definition fresh_in (h0 : heap T) (m : Mat.t T) (h : heap T) : Prop :=
  Mat._mat m = length h0 /\ length h = S (length h0) /\ frame nothing h0 h.

(** What a constructor returns: a fresh [rows] x [cols] matrix that reads
    as [v]. *)
Definition built (h : heap T) (rows cols : Z) (v : Z -> Z -> T)
  : Mat.t T -> heap T -> Prop :=
  fun m h' => fresh_in h m h' /\ allocated m h' /\
              Mat._n_rows m = rows /\ Mat._n_cols m = cols /\
              reads_as m h' v.

(** A vector seen as the one-row matrix it is by inheritance. *)
Definition as_mat (v : Vec.t) : Mat.t T :=
  {| Mat._mat := Vec._mat v; Mat._n_rows := 1; Mat._n_cols := Vec._n_elems v;
     Mat._stickyComputeMask := 0; Mat._det := None; Mat._inv := None |}.

(** [v'] is the vector [v] up to its cache field. *)
Definition same_vec (v v' : Vec.t) : Prop :=
  Vec._mat v' = Vec._mat v /\ Vec._n_elems v' = Vec._n_elems v.

(** What a function that returns a new vector leaves: a fresh vector of
    [n] elements that reads as [val]; the buffers that were there are
    unchanged. *)
Definition vec_built (h : heap T) (n : Z) (val : Z -> T)
  : Vec.t -> heap T -> Prop :=
  fun v h' => Vec._mat v = length h /\ length h' = S (length h) /\
              frame nothing h h' /\ Vec.length v = n /\
              forall k, 0 <= k < n -> Vec.at_ v k h' = Ret (val k, h').

(** The element a list of rows gives for [(i, j)]. *)
Definition listed (l : list (list T)) (i j : Z) : T :=
  match l !! Z.to_nat i with
  | Some row => match row !! Z.to_nat j with Some x => x | None => lit 0 end
  | None => lit 0
  end.

(** The element a list gives for index [k]. *)
Definition listed1 (l : list T) (k : Z) : T :=
  match l !! Z.to_nat k with Some x => x | None => lit 0 end.

(** [returns_or_throws e c h Q]: run from [h], [c] either returns with
    [Q] or throws [e]. *)
Definition returns_or_throws {A} (e : ORCAException) (c : M T A) (h : heap T)
    (Q : A -> heap T -> Prop) : Prop :=
  match c h with
  | Ret (a, h') => Q a h'
  | Throw e' => e' = e
  | _ => False
  end.

(** The cells of the [nr] x [nc] block whose corner is [(r0, c0)]. *)
Definition in_block (r0 c0 nr nc i j : Z) : bool :=
  (r0 <=? i) && (i <? r0 + nr) && (c0 <=? j) && (j <? c0 + nc).

(** The identity pattern of [eye]. *)
Definition kronecker (i j : Z) : T := if i =? j then lit 1 else lit 0.
End Construction.

(** ** Sweeps over the cells of a matrix *)

Section Sweeps.
Context {T : Type} {ST : Scalar T}.

(** The cells a row-major sweep has passed before [(a, b)]. *)
Definition before (a b i j : Z) : bool := (i <? a) || ((i =? a) && (j <? b)).

(** What one step of a sweep has to do at [(i, j)]: write [v i j] there
    and keep the rest. *)
Definition writes_cell (m : Mat.t T) (h0 : heap T) (P : Z -> Z -> bool)
    (v : Z -> Z -> T) (i j : Z) (c : Mat.t T -> M T (Mat.t T)) : Prop :=
  forall this h,
    same_store m this -> updates m h0 h P v ->
    total (c this) h
      (fun this' h' =>
         same_store m this' /\
         updates m h0 h' (fun i' j' => P i' j' || ((i' =? i) && (j' =? j))) v).
End Sweeps.

(** ** Closed forms of the kernels on 2x2 matrices *)

Section TwoByTwoModel.
Context {T : Type} {ST : Scalar T}.
Variable generator : Z -> Z -> T.

(** What [det()] computes when it finds the pivot [p] of the first column
    with [q] below it (after the swap) and [r], [s] to their right;
    [sign] is the factor of the swap. *)
Definition det_by_pivot (sign p q r s : T) : outcome T :=
  let k := s_div (lit 1) p in
  let s' := s_add s (s_mul (s_neg q) (s_mul k r)) in
  if s_eqb s' (lit 0) then Ret (lit 0)
  else Ret (s_mul (s_mul (s_mul (s_mul (s_mul (lit 1) sign) p) (lit 1)) s')
              (s_mul (s_mul (lit 1) (s_mul k p)) (s_mul (s_div (lit 1) s') s'))).

(** [det()] of the matrix [[a, b], [c, d]] built in a fresh process. *)
Definition det_of_2x2 (a b c d : T) : outcome T :=
  run (m <- Mat.of_list [[a; b]; [c; d]] ;; r <- Mat.det m ;; ret (fst r)).

(** What [rref()] computes on a 2x2 matrix when it finds the pivot [p] of
    the first column with [q] below it (after the swap) and [r], [s] to
    their right. *)
Definition rref_by_pivot (p q r s : T) : outcome (list (list T)) :=
  let k := s_div (lit 1) p in
  let q' := s_add q (s_mul (s_neg q) (s_mul k p)) in
  let s' := s_add s (s_mul (s_neg q) (s_mul k r)) in
  if s_eqb s' (lit 0) then Ret [[s_mul k p; s_mul k r]; [q'; s']]
  else
    let k' := s_div (lit 1) s' in
    Ret [[s_add (s_mul k p) (s_mul (s_neg (s_mul k r)) (s_mul k' q'));
          s_add (s_mul k r) (s_mul (s_neg (s_mul k r)) (s_mul k' s'))];
         [s_mul k' q'; s_mul k' s']].

(** [rref()] of the matrix [[a, b], [c, d]] built in a fresh process. *)
Definition rref_of_2x2 (a b c d : T) : outcome (list (list T)) :=
  run (m <- Mat.of_list [[a; b]; [c; d]] ;; r <- Mat.rref m ;;
       elements (Mat.Plain r)).

(** What [rref(Mat<T>)] leaves in its operand on a 2x2 matrix with the
    pivot row [(p, r)] and the other row [(q, s)], when the rows of the
    operand are [(e11, e12)] beside the pivot row and [(e21, e22)] beside
    the other one. *)
Definition reduced_by_pivot (p q r s e11 e12 e21 e22 : T)
  : outcome (list (list T)) :=
  let k := s_div (lit 1) p in
  let kk := s_div (lit 1) (s_mul k p) in
  let s' := s_add s (s_mul (s_neg q) (s_mul k r)) in
  let p1 := s_mul kk (s_mul k e11) in
  let p2 := s_mul kk (s_mul k e12) in
  let o1 := s_add e21 (s_mul (s_neg q) p1) in
  let o2 := s_add e22 (s_mul (s_neg q) p2) in
  if s_eqb s' (lit 0) then Ret [[p1; p2]; [o1; o2]]
  else
    let k' := s_div (lit 1) s' in
    let kk' := s_div (lit 1) (s_mul k' s') in
    let x21 := s_mul kk' (s_mul k' o1) in
    let x22 := s_mul kk' (s_mul k' o2) in
    Ret [[s_add p1 (s_mul (s_neg (s_mul k r)) x21);
          s_add p2 (s_mul (s_neg (s_mul k r)) x22)];
         [x21; x22]].

(** [inv()] of the matrix [[a, b], [c, d]] built in a fresh process. *)
Definition inv_of_2x2 (a b c d : T) : outcome (list (list T)) :=
  run (m <- Mat.of_list [[a; b]; [c; d]] ;;
       r <- Mat.inv generator m ;;
       elements (Mat.Plain (fst r))).
End TwoByTwoModel.

(** ** Further scenario objects *)

(** A two-element vector stored behind [M21]. *)
Definition pair_vec : Vec.t :=
  {| Vec._mat := 1%nat; Vec._n_rows := 1; Vec._n_cols := 2; Vec._n_elems := 2;
     Vec._stickyComputeMask := None |}.
Definition M21_pair_heap : heap Q :=
  [[Some 2; Some 1; Some 1; Some 1]; [Some 5; Some 7]]%Q.

(** * Verification *)

(** The scenario objects are what the list constructor builds in a fresh
    memory. *)
Example M21_built :
  Mat.of_list Scenario.M21 [] = Ret (Scenario.M21_obj, Scenario.M21_heap).
Proof. vm_compute. reflexivity. Qed.

Example zero11_built :
  Mat.of_list Scenario.zero11 [] = Ret (Scenario.zero11_obj, Scenario.zero11_heap).
Proof. vm_compute. reflexivity. Qed.

Example M21_cached_built :
  (m <- Mat.of_list Scenario.M21 ;; r <- Mat.det m ;; ret (snd r)) []
  = Ret (Scenario.M21_cached,
         [[Some 2; Some 1; Some 1; Some 1];
          [Some 1; Some (1 # 2); Some 0; Some 1];
          [Some 2; Some 1]; [Some 0; Some (1 # 2)]; [Some 1; Some 1]]%Q).
Proof. vm_compute. reflexivity. Qed.

(** ** Bounds checks *)

Section AddressFacts.
Context {T : Type} {ST : Scalar T}.
Implicit Types (this : Mat.t T) (h : heap T).

Lemma address_throws_iff this row col :
  Mat._address this row col = Throw OutOfBoundsError <->
  (Mat._n_rows this < row \/ row < 0 \/ Mat._n_cols this < col \/ col < 0).
Proof.
  unfold Mat._address.
  destruct (Z.ltb_spec (Mat._n_rows this) row); simpl; [intuition lia|].
  destruct (Z.ltb_spec row 0); simpl; [intuition lia|].
  destruct (Z.ltb_spec (Mat._n_cols this) col); simpl; [intuition lia|].
  destruct (Z.ltb_spec col 0); simpl; [intuition lia|].
  split; [discriminate | lia].
Qed.

Lemma address_in_range this row col :
  0 <= row <= Mat._n_rows this -> 0 <= col <= Mat._n_cols this ->
  Mat._address this row col = Ret (Mat._mat this, col + row * Mat._n_cols this).
Proof.
  intros Hr Hc. unfold Mat._address.
  destruct (Z.ltb_spec (Mat._n_rows this) row); [lia|].
  destruct (Z.ltb_spec row 0); [lia|].
  destruct (Z.ltb_spec (Mat._n_cols this) col); [lia|].
  destruct (Z.ltb_spec col 0); [lia|].
  reflexivity.
Qed.

(** [at] on readable cells returns the stored element and leaves the
    memory as it was. *)
Lemma at_cell this h i j x :
  0 <= i <= Mat._n_rows this -> 0 <= j <= Mat._n_cols this ->
  cell this h i j = Some x ->
  Mat.at_ this i j h = Ret (x, h).
Proof.
  intros Hi Hj Hc. unfold Mat.at_, bind, lift.
  rewrite address_in_range by assumption.
  unfold load, cell in *. simpl.
  destruct (h !! Mat._mat this) as [buf|]; [|discriminate].
  destruct (Z.ltb_spec (j + i * Mat._n_cols this) 0); [nia|].
  destruct (buf !! Z.to_nat (j + i * Mat._n_cols this)) as [[y|]|];
    congruence.
Qed.

Lemma at_throws_beyond_cols this h i j :
  Mat._n_cols this < j -> Mat.at_ this i j h = Throw OutOfBoundsError.
Proof.
  intros Hj. unfold Mat.at_, bind, lift.
  assert (E : Mat._address this i j = Throw OutOfBoundsError)
    by (apply address_throws_iff; lia).
  rewrite E. reflexivity.
Qed.
End AddressFacts.

(** C4: [at(row, col)] is claimed to throw [OutOfBounds] exactly when [row]
    is outside [[0, rows)] or [col] outside [[0, cols)].  [_address] compares
    with [>] instead of [>=]: it throws exactly when [row > rows], [row < 0],
    [col > cols] or [col < 0].  On the 2x2 matrix [[2,1],[1,1]], [at(2, 0)]
    is not rejected and reads one cell past the buffer, and [at(0, 2)] is
    not rejected and returns the element stored at [(1, 0)].  In range,
    [at] returns the stored element and leaves memory as it was. *)
Theorem C4_at_accepts_index_equal_to_extent :
  (forall (T : Type) (this : Mat.t T) row col,
      Mat._address this row col = Throw OutOfBoundsError <->
      (Mat._n_rows this < row \/ row < 0 \/ Mat._n_cols this < col \/ col < 0)) /\
  run (m <- Mat.of_list Scenario.M21 ;; Mat.at_ m 2 0) = Undefined /\
  run (m <- Mat.of_list Scenario.M21 ;; Mat.at_ m 0 2) = Ret 1%Q /\
  run (m <- Mat.of_list Scenario.M21 ;; Mat.at_ m 3 0) = Throw OutOfBoundsError /\
  (forall (T : Type) (this : Mat.t T) (h : heap T) i j x,
      0 <= i < Mat._n_rows this -> 0 <= j < Mat._n_cols this ->
      cell this h i j = Some x ->
      Mat.at_ this i j h = Ret (x, h)).
Proof.
  split; [intros; apply address_throws_iff|].
  repeat split; try (vm_compute; reflexivity).
  intros T this h i j x Hi Hj Hc. apply at_cell; [lia | lia | exact Hc].
Qed.

(** ** Views *)

(** C5: [range(r1, r2, c1, c2)] throws [BadDimensions] when [r2 < r1] or
    [c2 < c1], and otherwise yields a view with [r2-r1+1] rows and
    [c2-c1+1] columns; but the bounds check of [SubMat::at] compares with
    [>], so the 1x1 view [range(0,0,0,0)] of a 3x3 matrix accepts [at(1,1)]
    and returns the parent's element [(1,1)], outside the sub-range. *)
Theorem C5_submat_reads_outside_its_range :
  (forall (T : Type) (parent : Mat.obj T) r1 r2 c1 c2,
      (r2 < r1 \/ c2 < c1) ->
      Mat.range parent r1 r2 c1 c2 = Throw BadDimensionsError) /\
  (forall (T : Type) (parent : Mat.obj T) r1 r2 c1 c2,
      r1 <= r2 -> c1 <= c2 ->
      exists v, Mat.range parent r1 r2 c1 c2 = Ret v /\
                Mat.rows v = r2 - r1 + 1 /\ Mat.cols v = c2 - c1 + 1) /\
  run (m <- Mat.of_list Scenario.M33 ;;
       v <- lift (Mat.range (Mat.Plain m) 0 0 0 0) ;;
       Mat.vat v 1 1) = Ret 5%Q.
Proof.
  split; [|split].
  - intros T parent r1 r2 c1 c2 H. unfold Mat.range, Mat.SubMat_new.
    destruct (Z.ltb_spec r2 r1); simpl; [reflexivity|].
    destruct (Z.ltb_spec c2 c1); simpl; [reflexivity|lia].
  - intros T parent r1 r2 c1 c2 Hr Hc. unfold Mat.range, Mat.SubMat_new.
    destruct (Z.ltb_spec r2 r1); [lia|].
    destruct (Z.ltb_spec c2 c1); [lia|]. simpl.
    eexists; split; [reflexivity|]. split; reflexivity.
  - vm_compute. reflexivity.
Qed.

(** C6: the transpose view [t()] has the parent's columns as rows and the
    parent's rows as columns, and [t().at(r,c)] is [parent.at(c,r)]; for
    [M = [[1,2,3],[4,5,6]]], [t(M)] has 3 rows and 2 columns and
    [t(M).at(2,1) = 6]. *)
Theorem C6_transpose_view :
  (forall (T : Type) (parent : Mat.obj T),
      Mat.rows (Mat.tr parent) = Mat.cols parent /\
      Mat.cols (Mat.tr parent) = Mat.rows parent /\
      forall r c h, Mat.vat (Mat.tr parent) r c h = Mat.vat parent c r h) /\
  run (m <- Mat.of_list Scenario.M23 ;; ret (Mat.rows (Mat.tr (Mat.Plain m)))) = Ret 3 /\
  run (m <- Mat.of_list Scenario.M23 ;; ret (Mat.cols (Mat.tr (Mat.Plain m)))) = Ret 2 /\
  run (m <- Mat.of_list Scenario.M23 ;; Mat.vat (Mat.tr (Mat.Plain m)) 2 1) = Ret 6%Q.
Proof.
  split.
  - intros T parent. repeat split.
  - repeat split; vm_compute; reflexivity.
Qed.

(** ** Allocation *)

Section AllocateFacts.
Context {T : Type}.
Implicit Types (h : heap T).

Lemma Mat_allocate_ok rows cols h :
  (exists m h', @Mat._allocate T rows cols h = Ret (m, h') /\
                Mat._n_rows m = rows /\ Mat._n_cols m = cols) <->
  0 < rows /\ 0 < cols.
Proof.
  unfold Mat._allocate.
  destruct (Z.ltb_spec rows 0); simpl.
  { split; [intros (m & h' & E & _); discriminate | lia]. }
  destruct (Z.ltb_spec cols 0); simpl.
  { split; [intros (m & h' & E & _); discriminate | lia]. }
  destruct (Z.eqb_spec rows 0); simpl.
  { split; [intros (m & h' & E & _); discriminate | lia]. }
  destruct (Z.eqb_spec cols 0); simpl.
  { split; [intros (m & h' & E & _); discriminate | lia]. }
  split; [lia|]. intros _. unfold bind, malloc, ret.
  eexists _, _. split; [reflexivity|]. split; reflexivity.
Qed.

Lemma Mat_allocate_negative rows cols h :
  @Mat._allocate T rows cols h = Throw BadDimensionsError <->
  rows < 0 \/ cols < 0.
Proof.
  unfold Mat._allocate.
  destruct (Z.ltb_spec rows 0); simpl; [intuition lia|].
  destruct (Z.ltb_spec cols 0); simpl; [intuition lia|].
  destruct (_ || _); [split; [discriminate|lia]|].
  unfold bind, malloc, ret. split; [discriminate|lia].
Qed.

Lemma Mat_allocate_zero rows cols h :
  @Mat._allocate T rows cols h = Throw EmptyElementError <->
  0 <= rows /\ 0 <= cols /\ (rows = 0 \/ cols = 0).
Proof.
  unfold Mat._allocate.
  destruct (Z.ltb_spec rows 0); simpl; [split; [discriminate|lia]|].
  destruct (Z.ltb_spec cols 0); simpl; [split; [discriminate|lia]|].
  destruct (Z.eqb_spec rows 0); simpl; [intuition lia|].
  destruct (Z.eqb_spec cols 0); simpl; [intuition lia|].
  unfold bind, malloc, ret. split; [discriminate|lia].
Qed.

Lemma Vec_allocate_rejects_iff n h :
  (exists e, @Vec._allocate T n h = Throw e) <-> n < 0.
Proof.
  unfold Vec._allocate.
  destruct (Z.ltb_spec n 0).
  - split; [lia|]. intros _. eexists; reflexivity.
  - split; [|lia]. intros [e E]. discriminate.
Qed.
End AllocateFacts.

(** C9: every constructed matrix or vector is claimed to have [rows > 0]
    and [cols > 0], a negative dimension being rejected with
    [BadDimensions] and a zero one with [EmptyElement].  [Mat::_allocate]
    does so, but [Vec::_allocate] only tests [_n_elems < 0]: it throws
    [EmptyElement] for a negative length and accepts length 0, which
    yields a vector with [cols = 0]. *)
Theorem C9_vec_allocate_accepts_zero_length :
  (forall rows cols (h : heap Q),
      ((exists m h', Mat._allocate rows cols h = Ret (m, h') /\
                     Mat._n_rows m = rows /\ Mat._n_cols m = cols) <->
       0 < rows /\ 0 < cols) /\
      (Mat._allocate rows cols h = Throw BadDimensionsError <->
       rows < 0 \/ cols < 0) /\
      (Mat._allocate rows cols h = Throw EmptyElementError <->
       0 <= rows /\ 0 <= cols /\ (rows = 0 \/ cols = 0))) /\
  (forall n (h : heap Q), (exists e, Vec._allocate n h = Throw e) <-> n < 0) /\
  @run Q _ (v <- Vec.new 0 ;; ret (Vec._n_rows v, Vec._n_cols v)) = Ret (1, 0) /\
  @run Q _ (Vec.new (-1)) = Throw EmptyElementError.
Proof.
  split; [|split; [|split]].
  - intros rows cols h. split; [apply Mat_allocate_ok|].
    split; [apply Mat_allocate_negative | apply Mat_allocate_zero].
  - intros n h. apply Vec_allocate_rejects_iff.
  - vm_compute. reflexivity.
  - vm_compute. reflexivity.
Qed.

(** ** The elimination kernels on concrete matrices *)

(** C1: for [M = [[2,1],[1,1]]] over the rationals, [det(M)] returns [1],
    [inv(M)] and [rref(M, eye(2))] return [[[1,-1],[-1,2]]], and [rref(M)]
    returns the 2x2 identity (also under the library's own [==]). *)
Theorem C1_concrete_scenario (generator : Z -> Z -> Q) :
  run (m <- Mat.of_list Scenario.M21 ;;
       r <- Mat.det m ;; ret (fst r)) = Ret 1%Q /\
  run (m <- Mat.of_list Scenario.M21 ;;
       r <- Mat.inv generator m ;;
       elements (Mat.Plain (fst r))) = Ret [[1; -1]; [-1; 2]]%Q /\
  run (m <- Mat.of_list Scenario.M21 ;;
       e <- Mat.of_fill generator 2 2 fill.eye ;;
       r <- Mat.rref_with m e ;;
       elements (Mat.Plain r)) = Ret [[1; -1]; [-1; 2]]%Q /\
  run (m <- Mat.of_list Scenario.M21 ;;
       r <- Mat.rref m ;;
       elements (Mat.Plain r)) = Ret [[1; 0]; [0; 1]]%Q /\
  run (m <- Mat.of_list Scenario.M21 ;;
       r <- Mat.rref m ;;
       e <- Mat.of_fill generator 2 2 fill.eye ;;
       operator_eq_here r e) = Ret true.
Proof.
  repeat split; vm_compute; reflexivity.
Qed.

(** C2: [det] is claimed to multiply its multiplier by [-1] at every row
    swap with [i != r].  The code multiplies by [-1] only when [i - r] is
    odd: [swap_sign 2 0 = 1].  For the permutation matrix
    [[[0,0,1],[0,1,0],[1,0,0]]] the pivot of row 0 is found in row 2, rows 0
    and 2 are swapped, the multiplier stays [1], the reduced matrix is the
    identity and [det] returns [1]; the claimed rule gives [-1], the
    determinant of that matrix. *)
Theorem C2_det_misses_sign_of_even_distance_swap :
  @Mat.swap_sign Q _ 2 0 = 1%Q /\
  @Mat.swap_sign Q _ 1 0 = (-1)%Q /\
  run (m <- Mat.of_list Scenario.antidiag3 ;;
       r <- Mat.det m ;; ret (fst r)) = Ret 1%Q.
Proof.
  repeat split; vm_compute; reflexivity.
Qed.

Section GuardFacts.
Context {T : Type} {ST : Scalar T}.
Implicit Types (m : Mat.t T) (h : heap T).

(** One past the last cell: [at(rows - 1, cols)] passes the check of
    [_address] and falls outside a buffer of [rows * cols] cells. *)
Lemma at_last_row_column_cols m h buf :
  h !! Mat._mat m = Some buf ->
  length buf = Z.to_nat (Mat._n_rows m * Mat._n_cols m) ->
  0 < Mat._n_rows m -> 0 < Mat._n_cols m ->
  Mat.at_ m (Mat._n_rows m - 1) (Mat._n_cols m) h = Undefined.
Proof.
  intros Hbuf Hlen Hr Hc. unfold Mat.at_, bind, lift.
  rewrite address_in_range by lia. unfold load. cbn [fst snd].
  rewrite Hbuf.
  destruct (Z.ltb_spec (Mat._n_cols m + (Mat._n_rows m - 1) * Mat._n_cols m) 0);
    [reflexivity|].
  rewrite (proj2 (lookup_ge_None buf _)); [reflexivity|].
  rewrite Hlen. apply Z2Nat.inj_le; nia.
Qed.

(** With [lead = cols] the guard [cols < lead] of the row loop is passed
    and the pivot search starts by reading column [cols]. *)
Lemma rref_step_reads_column_cols m r h :
  0 < Mat._n_rows m -> 0 <= Mat._n_cols m ->
  Mat.at_ m r (Mat._n_cols m) h = Undefined ->
  Mat.rref_step r (Mat._n_cols m, m) h = Undefined.
Proof.
  intros Hr Hc Hat. unfold Mat.rref_step.
  rewrite Z.ltb_irrefl. unfold bind at 1.
  assert (Hfuel : exists k, Mat.pivot_fuel m = S k).
  { unfold Mat.pivot_fuel.
    destruct (Z.to_nat ((Mat._n_cols m + 2) * Mat._n_rows m)) eqn:E.
    - exfalso. apply (f_equal Z.of_nat) in E. rewrite Z2Nat.id in E by nia.
      simpl in E. nia.
    - eexists; reflexivity. }
  destruct Hfuel as [k ->]. cbn [Mat.find_pivot]. unfold bind at 1.
  rewrite Hat. reflexivity.
Qed.

Lemma rref_step_last_row_overruns m h buf :
  h !! Mat._mat m = Some buf ->
  length buf = Z.to_nat (Mat._n_rows m * Mat._n_cols m) ->
  0 < Mat._n_rows m -> 0 < Mat._n_cols m ->
  Mat.rref_step (Mat._n_rows m - 1) (Mat._n_cols m, m) h = Undefined.
Proof.
  intros Hbuf Hlen Hr Hc. apply rref_step_reads_column_cols; [lia | lia |].
  eapply at_last_row_column_cols; eassumption.
Qed.
End GuardFacts.

(** C3: [rref] is claimed to stop as soon as [lead >= cols].  The guard is
    [cols < lead], so with [lead = cols] the pivot search runs and calls
    [at(r, cols)], which [_address] does not reject either; in the last row
    that read is one past the end of the buffer, whatever the matrix.  On
    the 2x1 matrix [[[1],[1]]] the second row is searched at column 1 and
    the read falls outside the two-cell buffer; the same happens in [det]
    on [[[0,1],[0,0]]]. *)
Theorem C3_rref_reads_column_equal_to_cols :
  (forall (T : Type) (ST : Scalar T) (m : Mat.t T) (h : heap T) buf,
      h !! Mat._mat m = Some buf ->
      length buf = Z.to_nat (Mat._n_rows m * Mat._n_cols m) ->
      0 < Mat._n_rows m -> 0 < Mat._n_cols m ->
      Mat.rref_step (Mat._n_rows m - 1) (Mat._n_cols m, m) h = Undefined) /\
  run (m <- Mat.of_list Scenario.tall ;; r <- Mat.rref m ;; ret tt) = Undefined /\
  run (m <- Mat.of_list Scenario.tall ;;
       c <- Mat.of_ptr (Mat.Plain m) ;;
       s <- Mat.rref_step 0 (0, c) ;;
       match s with
       | inl (lead, c) => x <- Mat.at_ c 1 lead ;; ret (Some lead)
       | inr _ => ret None
       end) = Undefined /\
  run (m <- Mat.of_list Scenario.tall ;;
       c <- Mat.of_ptr (Mat.Plain m) ;;
       s <- Mat.rref_step 0 (0, c) ;;
       match s with
       | inl (lead, c) => ret (Some (lead, Mat._n_cols c))
       | inr _ => ret None
       end) = Ret (Some (1, 1)) /\
  run (m <- Mat.of_list Scenario.shifted ;; r <- Mat.det m ;; ret tt) = Undefined.
Proof.
  split; [intros T ST m h buf; apply rref_step_last_row_overruns|].
  repeat split; vm_compute; reflexivity.
Qed.

(** ** A small program logic for the heap monad *)

Section PostRules.
Context {T : Type}.
Implicit Types (h : heap T).

Lemma post_ret {A} (a : A) h (Q : A -> heap T -> Prop) :
  Q a h -> post (ret a) h Q.
Proof. intros H. exact H. Qed.

Lemma post_throw {A} e h (Q : A -> heap T -> Prop) : post (throw e) h Q.
Proof. exact I. Qed.

Lemma post_undefined {A} h (Q : A -> heap T -> Prop) : post undefined h Q.
Proof. exact I. Qed.

Lemma post_bind {A B} (c : M T A) (k : A -> M T B) h (Q : B -> heap T -> Prop) :
  post c h (fun a h' => post (k a) h' Q) -> post (bind c k) h Q.
Proof.
  unfold post, bind. destruct (c h) as [[a h']| | |]; auto.
Qed.

Lemma post_mono {A} (c : M T A) h (Q Q' : A -> heap T -> Prop) :
  post c h Q -> (forall a h', Q a h' -> Q' a h') -> post c h Q'.
Proof.
  unfold post. destruct (c h) as [[a h']| | |]; auto.
Qed.

Lemma post_lift {A} (o : outcome A) h (Q : A -> heap T -> Prop) :
  o <> OutOfFuel -> (forall a, o = Ret a -> Q a h) -> post (lift o) h Q.
Proof.
  unfold post, lift. destruct o; auto.
Qed.

Lemma post_foldM {A S} (body : A -> S -> M T S) (Inv : S -> heap T -> Prop)
    (l : list A) :
  (forall a s h, a ∈ l -> Inv s h -> post (body a s) h Inv) ->
  forall s h, Inv s h -> post (foldM body l s) h Inv.
Proof.
  induction l as [|a l IH]; intros Hbody s h Hs; cbn [foldM].
  - apply post_ret. exact Hs.
  - apply post_bind. eapply post_mono.
    + apply Hbody; [left | exact Hs].
    + intros s' h' Hs'. apply IH; [|exact Hs'].
      intros b s0 h0 Hb. apply Hbody. right. exact Hb.
Qed.

Lemma post_for_range {S} (body : Z -> S -> M T S) (Inv : S -> heap T -> Prop)
    (lo hi : Z) :
  (forall i s h, lo <= i < hi -> Inv s h -> post (body i s) h Inv) ->
  forall s h, Inv s h -> post (for_range lo hi body s) h Inv.
Proof.
  intros Hbody. unfold for_range. apply post_foldM.
  intros i s h Hi. apply Hbody. apply elem_of_seqZ in Hi. lia.
Qed.

Lemma post_for_range_ret {S R} (body : Z -> S -> M T (S + R))
    (Inv : S -> heap T -> Prop) (Q : R -> heap T -> Prop) (lo hi : Z) :
  (forall i s h, lo <= i < hi -> Inv s h -> post (body i s) h (exit_post Inv Q)) ->
  forall s h, Inv s h -> post (for_range_ret lo hi body s) h (exit_post Inv Q).
Proof.
  intros Hbody. unfold for_range_ret.
  assert (Hl : forall i, i ∈ seqZ lo (hi - lo) -> lo <= i < hi)
    by (intros i Hi; apply elem_of_seqZ in Hi; lia).
  induction (seqZ lo (hi - lo)) as [|a l IH]; intros s h Hs; cbn [foldM_ret].
  - apply post_ret. exact Hs.
  - apply post_bind. eapply post_mono.
    + apply Hbody; [apply Hl; left | exact Hs].
    + intros [s'|r] h' Hx; cbn [exit_post] in Hx.
      * apply IH; [|exact Hx]. intros i Hi. apply Hl. right. exact Hi.
      * apply post_ret. exact Hx.
Qed.
End PostRules.

(** ** Reads leave memory alone; writes stay inside owned buffers *)

Section FrameRules.
Context {T : Type} {ST : Scalar T}.
Variables (W : loc -> Prop) (h0 : heap T).
Implicit Types (h : heap T) (m : Mat.t T) (v : Vec.t).

Lemma frame_refl h : frame W h h.
Proof. split; [lia | reflexivity]. Qed.

Lemma frame_store h l (b : list (option T)) :
  frame W h0 h -> owned W h0 l -> frame W h0 (<[l := b]> h).
Proof.
  intros [Hlen Hsame] Hown. split.
  - rewrite length_insert. exact Hlen.
  - intros l' Hl' HW. rewrite list_lookup_insert_ne; [apply Hsame; assumption|].
    intros ->. destruct Hown as [Hnew|Hw]; [lia | contradiction].
Qed.

Lemma frame_malloc h (b : list (option T)) :
  frame W h0 h -> frame W h0 (h ++ [b]) /\ owned W h0 (length h).
Proof.
  intros [Hlen Hsame]. split; [split|].
  - rewrite length_app. simpl. lia.
  - intros l Hl HW. rewrite lookup_app_l by lia. apply Hsame; assumption.
  - left. exact Hlen.
Qed.

Lemma post_load (p : ptr) h (Q : T -> heap T -> Prop) :
  (forall x, Q x h) -> post (load p) h Q.
Proof.
  intros HQ. unfold post, load.
  destruct (h !! p.1); [|exact I].
  destruct (p.2 <? 0); [exact I|].
  destruct (_ !! _) as [[x|]|]; auto.
Qed.

Lemma post_store (p : ptr) (x : T) h :
  frame W h0 h -> owned W h0 p.1 ->
  post (store p x) h (fun _ h' => frame W h0 h').
Proof.
  intros Hf Hown. unfold post, store.
  destruct (h !! p.1); [|exact I].
  destruct (p.2 <? 0); [exact I|].
  destruct (Nat.ltb _ _); [|exact I].
  apply frame_store; assumption.
Qed.

Lemma address_not_out_of_fuel m i j : Mat._address m i j <> OutOfFuel.
Proof. unfold Mat._address. destruct (_ || _); discriminate. Qed.

Lemma address_buffer m i j p : Mat._address m i j = Ret p -> p.1 = Mat._mat m.
Proof.
  unfold Mat._address. destruct (_ || _); [discriminate|].
  intros [= <-]. reflexivity.
Qed.

Lemma post_at m i j h (Q : T -> heap T -> Prop) :
  (forall x, Q x h) -> post (Mat.at_ m i j) h Q.
Proof.
  intros HQ. unfold Mat.at_. apply post_bind, post_lift.
  - apply address_not_out_of_fuel.
  - intros p _. apply post_load. exact HQ.
Qed.

Lemma post_vat (o : Mat.obj T) : forall i j h (Q : T -> heap T -> Prop),
  (forall x, Q x h) -> post (Mat.vat o i j) h Q.
Proof.
  induction o as [m | nr nc parent IH | nr nc parent IH r1 r2 c1 c2];
    intros i j h Q HQ; cbn [Mat.vat].
  - apply post_at. exact HQ.
  - apply IH. exact HQ.
  - destruct (_ || _); [apply post_throw | apply IH; exact HQ].
Qed.

Lemma post_set m i j x h :
  frame W h0 h -> owned W h0 (Mat._mat m) ->
  post (Mat.set m i j x) h (fun m' h' => frame W h0 h' /\ same_store m m').
Proof.
  intros Hf Hown. unfold Mat.set. apply post_bind, post_lift.
  - apply address_not_out_of_fuel.
  - intros p Hp. apply post_bind. eapply post_mono.
    + apply post_store; [exact Hf|]. rewrite (address_buffer _ _ _ _ Hp). exact Hown.
    + intros u h' Hf'. apply post_ret. split; [exact Hf'|]. repeat split.
Qed.

(** *** Vectors *)

Lemma Vec_address_not_out_of_fuel v i : Vec._address v i <> OutOfFuel.
Proof. unfold Vec._address. destruct (_ || _); discriminate. Qed.

Lemma Vec_address_buffer v i p : Vec._address v i = Ret p -> p.1 = Vec._mat v.
Proof.
  unfold Vec._address. destruct (_ || _); [discriminate|].
  intros [= <-]. reflexivity.
Qed.

Lemma post_Vec_new n h :
  frame W h0 h ->
  post (Vec.new n) h
    (fun v h' => frame W h0 h' /\ owned W h0 (Vec._mat v)).
Proof.
  intros Hf. unfold Vec.new, Vec._allocate.
  destruct (n <? 0); [apply post_throw|].
  unfold post, bind, malloc, ret. cbn.
  apply frame_malloc. exact Hf.
Qed.

Lemma post_Vec_at v i h (Q : T -> heap T -> Prop) :
  (forall x, Q x h) -> post (Vec.at_ v i) h Q.
Proof.
  intros HQ. unfold Vec.at_. apply post_bind, post_lift.
  - apply Vec_address_not_out_of_fuel.
  - intros p _. apply post_load. exact HQ.
Qed.

Lemma post_Vec_set v i x h :
  frame W h0 h -> owned W h0 (Vec._mat v) ->
  post (Vec.set v i x) h
    (fun v' h' => frame W h0 h' /\ owned W h0 (Vec._mat v') /\
                  Vec.length v' = Vec.length v).
Proof.
  intros Hf Hown. unfold Vec.set. apply post_bind, post_lift.
  - apply Vec_address_not_out_of_fuel.
  - intros p Hp. apply post_bind. eapply post_mono.
    + apply post_store; [exact Hf|]. rewrite (Vec_address_buffer _ _ _ Hp). exact Hown.
    + intros u h' Hf'. apply post_ret. split; [exact Hf'|]. split; [exact Hown|reflexivity].
Qed.
End FrameRules.

Tactic Notation "bind_with" uconstr(lem) :=
  apply post_bind; eapply post_mono; [eapply lem | cbv beta].

Section RowOperations.
Context {T : Type} {ST : Scalar T}.
Variables (W : loc -> Prop) (h0 : heap T).
Implicit Types (h : heap T) (m this : Mat.t T) (v : Vec.t).

Lemma keeps_intro m h :
  frame W h0 h -> owned W h0 (Mat._mat m) -> keeps W h0 m m h.
Proof. intros Hf Ho. split; [exact Hf|]. split; [exact Ho|]. repeat split. Qed.

Lemma keeps_set m0 m i j x h :
  keeps W h0 m0 m h -> post (Mat.set m i j x) h (keeps W h0 m0).
Proof.
  intros (Hf & Ho & Hm & Hr & Hc). eapply post_mono.
  - apply (post_set W h0); [exact Hf|]. rewrite Hm. exact Ho.
  - intros m' h' (Hf' & Hm' & Hr' & Hc'). split; [exact Hf'|].
    split; [exact Ho|]. repeat split; congruence.
Qed.

Lemma keeps_setRow m0 m row v h :
  keeps W h0 m0 m h -> post (Mat.setRow m row v) h (keeps W h0 m0).
Proof.
  intros Hk. unfold Mat.setRow.
  destruct (negb _); [apply post_throw|].
  apply post_for_range; [|exact Hk].
  intros i s h1 _ Hs. apply post_bind, post_Vec_at. intros x.
  apply keeps_set. exact Hs.
Qed.

Lemma keeps_rowMutliply m0 m r1 t1 h :
  keeps W h0 m0 m h -> post (Mat.rowMutliply m r1 t1) h (keeps W h0 m0).
Proof.
  intros Hk. unfold Mat.rowMutliply.
  apply post_for_range; [|exact Hk].
  intros i s h1 _ Hs. apply post_bind, post_at. intros x.
  apply keeps_set. exact Hs.
Qed.

Lemma keeps_rowAdd m0 m r1 r2 k h :
  keeps W h0 m0 m h -> post (Mat.rowAdd m r1 r2 k) h (keeps W h0 m0).
Proof.
  intros Hk. unfold Mat.rowAdd.
  apply post_for_range; [|exact Hk].
  intros i s h1 _ Hs. apply post_bind, post_at. intros x.
  apply post_bind, post_at. intros y.
  apply keeps_set. exact Hs.
Qed.

Lemma getRow_not_out_of_fuel (o : Mat.obj T) row : Mat.getRow o row <> OutOfFuel.
Proof. unfold Mat.getRow. destruct (_ || _); discriminate. Qed.

Lemma keeps_rowSwap m0 m r1 r2 h :
  keeps W h0 m0 m h -> post (Mat.rowSwap m r1 r2) h (keeps W h0 m0).
Proof.
  intros Hk. unfold Mat.rowSwap.
  apply post_bind, post_lift; [apply getRow_not_out_of_fuel|].
  intros r1Temp _.
  bind_with (post_Vec_new W h0); [apply Hk|]. intros v h1 (Hf1 & Hv).
  apply post_bind.
  eapply post_mono.
  - apply (post_for_range _
      (fun v h => frame W h0 h /\ owned W h0 (Vec._mat v))); [|split; assumption].
    intros i v1 h2 _ (Hf2 & Hv1).
    apply post_bind. unfold Mat.MatRow_at. apply post_vat. intros x.
    eapply post_mono; [apply (post_Vec_set W h0); assumption|].
    intros v2 h3 (Hf3 & Hv2 & _). split; assumption.
  - intros v1 h2 (Hf2 & Hv1). apply post_bind. eapply post_mono.
    + apply (post_for_range _ (keeps W h0 m0)).
      * intros i s h3 _ Hs. apply post_bind, post_at. intros x.
        apply keeps_set. exact Hs.
      * destruct Hk as (_ & Ho & Hm). split; [exact Hf2|]. split; assumption.
    + intros m1 h3 Hk1. apply keeps_setRow. exact Hk1.
Qed.

Lemma post_allocate rows cols h :
  frame W h0 h ->
  post (Mat._allocate rows cols) h
    (fun m h' => keeps W h0 m m h' /\
                 Mat._n_rows m = rows /\ Mat._n_cols m = cols).
Proof.
  intros Hf. unfold Mat._allocate.
  destruct (_ || _); [apply post_throw|].
  destruct (_ || _); [apply post_throw|].
  unfold post, bind, malloc, ret. cbn.
  destruct (frame_malloc W h0 h (replicate (Z.to_nat (rows * cols)) None) Hf)
    as [Hf' Ho].
  split; [apply keeps_intro; assumption|]. split; reflexivity.
Qed.

(** A doubly nested filling loop keeps what [set] keeps. *)
Lemma keeps_fill_loop m0 m h (cellM : Z -> Z -> Mat.t T -> M T (Mat.t T)) :
  (forall i j s h1, keeps W h0 m0 s h1 -> post (cellM i j s) h1 (keeps W h0 m0)) ->
  keeps W h0 m0 m h ->
  post (for_range 0 (Mat._n_rows m)
          (fun i this => for_range 0 (Mat._n_cols this)
             (fun j this => cellM i j this) this) m) h (keeps W h0 m0).
Proof.
  intros Hcell Hk. apply post_for_range; [|exact Hk].
  intros i s h1 _ Hs. apply post_for_range; [|exact Hs].
  intros j s1 h2 _ Hs1. apply Hcell. exact Hs1.
Qed.

Lemma post_of_ptr (src : Mat.obj T) h :
  frame W h0 h ->
  post (Mat.of_ptr src) h
    (fun m h' => keeps W h0 m m h' /\
                 Mat._n_rows m = Mat.rows src /\ Mat._n_cols m = Mat.cols src).
Proof.
  intros Hf. unfold Mat.of_ptr.
  bind_with post_allocate; [exact Hf|]. intros m h1 (Hk & Hr & Hc).
  eapply post_mono.
  - apply (keeps_fill_loop m m h1
             (fun i j this => x <- Mat.vat src i j ;; Mat.set this i j x));
      [|exact Hk].
    intros i j s h2 Hs. apply post_bind, post_vat. intros x.
    apply keeps_set. exact Hs.
  - intros m1 h2 Hk1. split.
    + destruct Hk1 as (Hf1 & Ho1 & Hm & Hr1 & Hc1).
      split; [exact Hf1|]. split; [rewrite Hm; exact Ho1|]. repeat split.
    + destruct Hk1 as (_ & _ & _ & Hr1 & Hc1). split; congruence.
Qed.
End RowOperations.

Section Kernels.
Context {T : Type} {ST : Scalar T}.
Variables (W : loc -> Prop) (h0 : heap T).
Implicit Types (h : heap T) (m this : Mat.t T) (v : Vec.t).

(** A successful [at] has a column index within the check of [_address]. *)
Lemma post_at_checked m i j h (Q : T -> heap T -> Prop) :
  (forall x, j <= Mat._n_cols m -> Q x h) -> post (Mat.at_ m i j) h Q.
Proof.
  intros HQ. destruct (Z_lt_le_dec (Mat._n_cols m) j) as [Hgt|Hle].
  - unfold post. rewrite (at_throws_beyond_cols m h i j Hgt). exact I.
  - apply post_at. intros x. apply HQ. exact Hle.
Qed.

Lemma post_find_pivot m r :
  0 <= r < Mat._n_rows m ->
  forall fuel i lead h,
    r <= i < Mat._n_rows m ->
    0 <= lead <= Mat._n_cols m + 1 ->
    (Mat._n_cols m + 1 - lead) * Mat._n_rows m + (Mat._n_rows m - i)
      <= Z.of_nat fuel ->
    post (Mat.find_pivot fuel m r i lead) h
      (fun p h' => h' = h /\
                   match p with
                   | Some (_, lead') => lead <= lead'
                   | None => True
                   end).
Proof.
  intros Hr. induction fuel as [|fuel IH]; intros i lead h Hi Hl Hf.
  - exfalso. nia.
  - cbn [Mat.find_pivot]. apply post_bind, post_at_checked. intros x Hlead.
    destruct (s_eqb x (lit 0)); [|apply post_ret; split; [reflexivity|lia]].
    destruct (Z.eqb_spec (Mat._n_rows m) (i + 1)) as [Hlast|Hnext].
    + destruct (Z.eqb_spec (Mat._n_cols m) (lead + 1));
        [apply post_ret; split; [reflexivity|exact I]|].
      eapply post_mono; [apply IH; nia|].
      intros [[i' lead']|] h' [-> Hp]; (split; [reflexivity|]); [lia|exact I].
    + eapply post_mono; [apply IH; nia|].
      intros [[i' lead']|] h' [-> Hp]; (split; [reflexivity|]); [lia|exact I].
Qed.

Lemma post_pivot_search m r lead h :
  0 <= r < Mat._n_rows m -> 0 <= lead <= Mat._n_cols m ->
  post (Mat.find_pivot (Mat.pivot_fuel m) m r r lead) h
    (fun p h' => h' = h /\
                 match p with
                 | Some (_, lead') => lead <= lead'
                 | None => True
                 end).
Proof.
  intros Hr Hl. apply post_find_pivot; try lia.
  unfold Mat.pivot_fuel. rewrite Z2Nat.id by nia. nia.
Qed.

(** The elimination sweep over the other rows. *)
Lemma keeps_eliminate m0 m lo r lead h :
  keeps W h0 m0 m h ->
  post (for_range lo (Mat._n_rows m)
          (fun i mc =>
             if negb (i =? r) then
               x <- Mat.at_ mc i lead ;; Mat.rowAdd mc i r (s_neg x)
             else ret mc) m) h (keeps W h0 m0).
Proof.
  intros Hk. apply post_for_range; [|exact Hk].
  intros i s h1 _ Hs. destruct (negb _); [|apply post_ret; exact Hs].
  apply post_bind, post_at. intros x. apply keeps_rowAdd. exact Hs.
Qed.

Lemma post_det_step m0 r st h :
  0 <= r < Mat._n_rows m0 ->
  det_inv W h0 m0 st h ->
  post (Mat.det_step r st) h
    (exit_post (det_inv W h0 m0) (fun _ h' => frame W h0 h')).
Proof.
  destruct st as [[lead mult] mc]. intros Hr [Hlead Hk].
  cbn [fst snd] in Hlead, Hk. unfold Mat.det_step.
  assert (Hdims : Mat._n_rows mc = Mat._n_rows m0 /\
                  Mat._n_cols mc = Mat._n_cols m0) by (split; apply Hk).
  destruct (Z.ltb_spec (Mat._n_cols mc) lead);
    [apply post_ret; apply Hk|].
  bind_with post_pivot_search; [lia | lia |].
  intros [[i lead']|] h1 [-> Hp]; [|apply post_ret; apply Hk].
  bind_with keeps_rowSwap; [exact Hk|]. intros mc1 h1 Hk1.
  apply post_bind, post_at. intros x.
  apply post_bind. eapply post_mono.
  - instantiate (1 := fun mm h => keeps W h0 m0 mm.2 h).
    destruct (negb _); [|apply post_ret; exact Hk1].
    apply post_bind, post_at. intros y.
    apply post_bind, post_at. intros z.
    bind_with keeps_rowMutliply; [exact Hk1|]. intros mc2 h2 Hk2.
    apply post_ret. exact Hk2.
  - intros [mult' mc2] h2 Hk2. cbn [snd] in Hk2.
    bind_with keeps_eliminate; [exact Hk2|]. intros mc3 h3 Hk3.
    apply post_ret. split; [cbn; lia | exact Hk3].
Qed.

Lemma post_diag m h :
  frame W h0 h ->
  post (Mat.diag m) h (fun _ h' => frame W h0 h').
Proof.
  intros Hf. unfold Mat.diag.
  bind_with (post_Vec_new W h0); [exact Hf|]. intros v h1 (Hf1 & Hv).
  eapply post_mono.
  - apply (post_for_range _
      (fun v h => frame W h0 h /\ owned W h0 (Vec._mat v))); [|split; assumption].
    intros i v1 h2 _ (Hf2 & Hv1).
    apply post_bind, post_at. intros x.
    eapply post_mono; [apply (post_Vec_set W h0); assumption|].
    intros v2 h3 (Hf3 & Hv2 & _). split; assumption.
  - intros v1 h2 [Hf2 _]. exact Hf2.
Qed.

Lemma post_prod v h :
  frame W h0 h ->
  post (Vec.prod v) h (fun _ h' => frame W h0 h').
Proof.
  intros Hf. unfold Vec.prod.
  apply (post_for_range _ (fun (_ : T) h => frame W h0 h)); [|exact Hf].
  intros i acc h1 _ Hf1. apply post_bind, post_Vec_at. intros x.
  apply post_ret. exact Hf1.
Qed.

Lemma post_det_compute this h :
  frame W h0 h ->
  post (Mat.det_compute this) h
    (fun r h' => frame W h0 h' /\ same_store this r.2).
Proof.
  intros Hf. unfold Mat.det_compute.
  bind_with post_of_ptr; [exact Hf|]. intros mc h1 (Hk & Hr & Hc).
  apply post_bind. eapply post_mono.
  - apply (post_for_range_ret _ (det_inv W h0 mc) (fun _ h' => frame W h0 h')).
    + intros r st h2 Hrange Hst. apply post_det_step; [lia | exact Hst].
    + split; [cbn; lia | exact Hk].
  - intros [[[lead mult] mc1]|u] h2 Hx; cbn [exit_post] in Hx.
    + destruct Hx as [_ (Hf2 & _)].
      bind_with post_diag; [exact Hf2|]. intros d h3 Hf3.
      bind_with post_prod; [exact Hf3|]. intros p h4 Hf4.
      apply post_ret. split; [exact Hf4|]. repeat split.
    + apply post_ret. split; [exact Hx|]. repeat split.
Qed.

Lemma post_det this h :
  frame W h0 h ->
  post (Mat.det this) h
    (fun r h' => frame W h0 h' /\ same_store this r.2).
Proof.
  intros Hf. unfold Mat.det.
  destruct (negb _).
  - destruct (Mat._det this); [|apply post_undefined].
    apply post_ret. split; [exact Hf|]. repeat split.
  - destruct (negb _); [apply post_throw|].
    apply post_det_compute. exact Hf.
Qed.
End Kernels.

Section KernelsRref.
Context {T : Type} {ST : Scalar T}.
Variables (W : loc -> Prop) (h0 : heap T).
Implicit Types (h : heap T) (m this : Mat.t T) (v : Vec.t).

Lemma post_rref_step m0 r st h :
  0 <= r < Mat._n_rows m0 ->
  rref_inv W h0 m0 st h ->
  post (Mat.rref_step r st) h
    (exit_post (rref_inv W h0 m0) (fun _ h' => frame W h0 h')).
Proof.
  destruct st as [lead mc]. intros Hr [Hlead Hk].
  cbn [fst snd] in Hlead, Hk. unfold Mat.rref_step.
  assert (Hdims : Mat._n_rows mc = Mat._n_rows m0 /\
                  Mat._n_cols mc = Mat._n_cols m0) by (split; apply Hk).
  destruct (Z.ltb_spec (Mat._n_cols mc) lead);
    [apply post_ret; apply Hk|].
  bind_with post_pivot_search; [lia | lia |].
  intros [[i lead']|] h1 [-> Hp]; [|apply post_ret; apply Hk].
  bind_with keeps_rowSwap; [exact Hk|]. intros mc1 h1 Hk1.
  apply post_bind, post_at. intros x.
  apply post_bind. eapply post_mono.
  - instantiate (1 := keeps W h0 m0).
    destruct (negb _); [|apply post_ret; exact Hk1].
    apply post_bind, post_at. intros y.
    apply keeps_rowMutliply. exact Hk1.
  - intros mc2 h2 Hk2.
    bind_with keeps_eliminate; [exact Hk2|]. intros mc3 h3 Hk3.
    apply post_ret. split; [cbn; lia | exact Hk3].
Qed.

Lemma post_rref this h :
  frame W h0 h ->
  post (Mat.rref this) h (fun _ h' => frame W h0 h').
Proof.
  intros Hf. unfold Mat.rref.
  bind_with post_of_ptr; [exact Hf|]. intros mc h1 (Hk & Hr & Hc).
  apply post_bind. eapply post_mono.
  - apply (post_for_range_ret _ (rref_inv W h0 mc) (fun _ h' => frame W h0 h')).
    + intros r st h2 Hrange Hst. apply post_rref_step; [lia | exact Hst].
    + split; [cbn; lia | exact Hk].
  - intros [[lead mc1]|mc1] h2 Hx; cbn [exit_post] in Hx; apply post_ret.
    + apply Hx.
    + exact Hx.
Qed.

Lemma keeps_frame m0 m m' h h' :
  keeps W h0 m0 m h -> frame W h0 h' -> same_store m m' -> keeps W h0 m0 m' h'.
Proof.
  intros (_ & Ho & Hm & Hr & Hc) Hf (Hm' & Hr' & Hc').
  split; [exact Hf|]. split; [exact Ho|]. repeat split; congruence.
Qed.

(** An operation on one of the two clones keeps the other. *)
Lemma keeps_other m0 a0 m h (c : M T (Mat.t T)) :
  keeps W h0 m0 m h ->
  post c h (keeps W h0 a0) ->
  post c h (fun a' h' => keeps W h0 m0 m h' /\ keeps W h0 a0 a' h').
Proof.
  intros Hk Hc. eapply post_mono; [exact Hc|].
  intros a' h' Ha'. split; [|exact Ha'].
  eapply keeps_frame; [exact Hk | apply Ha' | repeat split].
Qed.

Lemma post_rref_with_step m0 a0 r st h :
  0 <= r < Mat._n_rows m0 ->
  rref_with_inv W h0 m0 a0 st h ->
  post (Mat.rref_with_step r st) h
    (exit_post (rref_with_inv W h0 m0 a0)
       (fun r h' => frame W h0 h' /\ same_store a0 r)).
Proof.
  destruct st as [[lead m1] m2]. intros Hr (Hlead & Hk1 & Hk2).
  cbn [fst snd] in Hlead, Hk1, Hk2. unfold Mat.rref_with_step.
  assert (Hdims : Mat._n_rows m1 = Mat._n_rows m0 /\
                  Mat._n_cols m1 = Mat._n_cols m0) by (split; apply Hk1).
  assert (Hexit : frame W h0 h /\ same_store a0 m2)
    by (split; apply Hk2).
  destruct (Z.ltb_spec (Mat._n_cols m1) lead);
    [apply post_ret; exact Hexit|].
  bind_with post_pivot_search; [lia | lia |].
  intros [[i lead']|] h1 [-> Hp]; [|apply post_ret; exact Hexit].
  apply post_bind. eapply post_mono.
  - instantiate (1 := both_keep W h0 m0 a0).
    destruct (negb _); [|apply post_ret; split; assumption].
    bind_with (keeps_other a0 m0 m2); [exact Hk2 | apply keeps_rowSwap; exact Hk1 |].
    intros m1' h1 [Hk2' Hk1'].
    bind_with (keeps_other m0 a0 m1'); [exact Hk1' | apply keeps_rowSwap; exact Hk2' |].
    intros m2' h2 [Hk1'' Hk2'']. apply post_ret. split; assumption.
  - intros [m1a m2a] h1 [Ha1 Ha2]. cbn [fst snd] in Ha1, Ha2.
    apply post_bind, post_at. intros x.
    apply post_bind. eapply post_mono.
    + instantiate (1 := both_keep W h0 m0 a0).
      destruct (negb _); [|apply post_ret; split; assumption].
      apply post_bind, post_at. intros y.
      bind_with (keeps_other m0 a0 m1a);
        [exact Ha1 | apply keeps_rowMutliply; exact Ha2 |].
      intros m2b h2 [Hb1 Hb2].
      apply post_bind, post_at. intros y'.
      bind_with (keeps_other a0 m0 m2b);
        [exact Hb2 | apply keeps_rowMutliply; exact Hb1 |].
      intros m1c h3 [Hc2 Hc1].
      apply post_bind, post_at. intros y''.
      bind_with (keeps_other m0 a0 m1c);
        [exact Hc1 | apply keeps_rowMutliply; exact Hc2 |].
      intros m2d h4 [Hd1 Hd2]. apply post_ret. split; assumption.
    + intros [m1e m2e] h2 [He1 He2]. cbn [fst snd] in He1, He2.
      apply post_bind. eapply post_mono.
      * apply (post_for_range _ (both_keep W h0 m0 a0)); [|split; [exact He1|exact He2]].
        intros k [s1 s2] h3 _ [Hs1 Hs2]. cbn [fst snd] in Hs1, Hs2.
        destruct (negb _); [|apply post_ret; split; assumption].
        apply post_bind, post_at. intros z.
        bind_with (keeps_other m0 a0 s1);
          [exact Hs1 | apply keeps_rowAdd; exact Hs2 |].
        intros s2' h4 [Ht1 Ht2].
        apply post_bind, post_at. intros z'.
        bind_with (keeps_other a0 m0 s2');
          [exact Ht2 | apply keeps_rowAdd; exact Ht1 |].
        intros s1' h5 [Hu2 Hu1]. apply post_ret. split; assumption.
      * intros [m1f m2f] h3 [Hf1 Hf2]. cbn [fst snd] in Hf1, Hf2.
        apply post_ret. split; [cbn; lia|]. split; assumption.
Qed.

Lemma post_rref_with this _m2 h :
  frame W h0 h -> owned W h0 (Mat._mat _m2) ->
  post (Mat.rref_with this _m2) h
    (fun r h' => frame W h0 h' /\ same_store _m2 r).
Proof.
  intros Hf Ho. unfold Mat.rref_with.
  bind_with post_of_ptr; [exact Hf|]. intros mc h1 (Hk & Hr & Hc).
  apply post_bind. eapply post_mono.
  - apply (post_for_range_ret _ (rref_with_inv W h0 mc _m2)
             (fun r h' => frame W h0 h' /\ same_store _m2 r)).
    + intros r st h2 Hrange Hst.
      apply (post_rref_with_step mc _m2); [lia | exact Hst].
    + split; [cbn; lia|]. split; [exact Hk|].
      apply keeps_intro; [apply Hk | exact Ho].
  - intros [[[lead m1] m2]|r] h2 Hx; cbn [exit_post] in Hx; apply post_ret.
    + destruct Hx as (_ & _ & Hf2 & _ & Hs). split; assumption.
    + exact Hx.
Qed.
End KernelsRref.

Section KernelsInv.
Context {T : Type} {ST : Scalar T}.
Variables (generator : Z -> Z -> T) (W : loc -> Prop) (h0 : heap T).
Implicit Types (h : heap T) (m this : Mat.t T).

Lemma keeps_fill_cells m0 m (f : Z -> Z -> T) h :
  keeps W h0 m0 m h -> post (Mat.fill_cells m f) h (keeps W h0 m0).
Proof.
  intros Hk. unfold Mat.fill_cells.
  apply (keeps_fill_loop W h0 m0 m h (fun i j this => Mat.set this i j (f i j)));
    [|exact Hk].
  intros i j s h1 Hs. apply keeps_set. exact Hs.
Qed.

Lemma keeps_eye m0 m h :
  keeps W h0 m0 m h -> post (Mat.eye m) h (keeps W h0 m0).
Proof.
  intros Hk. unfold Mat.eye, Mat.zeros.
  bind_with keeps_fill_cells; [exact Hk|]. intros m1 h1 Hk1.
  apply post_for_range; [|exact Hk1].
  intros i s h2 _ Hs. apply keeps_set. exact Hs.
Qed.

Lemma post_of_fill rows cols type h :
  frame W h0 h ->
  post (Mat.of_fill generator rows cols type) h
    (fun m h' => frame W h0 h' /\ owned W h0 (Mat._mat m)).
Proof.
  intros Hf. unfold Mat.of_fill.
  bind_with post_allocate; [exact Hf|]. intros m h1 (Hk & _ & _).
  assert (Hout : forall m' h', keeps W h0 m m' h' ->
                   frame W h0 h' /\ owned W h0 (Mat._mat m')).
  { intros m' h' (Hf' & Ho & Hm & _). split; [exact Hf'|]. rewrite Hm. exact Ho. }
  destruct (type =? fill.zeros);
    [eapply post_mono; [apply keeps_fill_cells; exact Hk | exact Hout]|].
  destruct (type =? fill.eye);
    [eapply post_mono; [apply keeps_eye; exact Hk | exact Hout]|].
  destruct (type =? fill.ones);
    [eapply post_mono; [apply keeps_fill_cells; exact Hk | exact Hout]|].
  destruct (type =? fill.rand);
    [eapply post_mono; [apply keeps_fill_cells; exact Hk | exact Hout]|].
  apply post_throw.
Qed.

Lemma post_MatInv_new (_castM : Mat.t T) h :
  frame W h0 h ->
  post (Mat.MatInv_new _castM) h (fun _ h' => frame W h0 h').
Proof.
  intros Hf. unfold Mat.MatInv_new.
  bind_with post_allocate; [exact Hf|]. intros m h1 (Hk & _ & _).
  apply post_bind. eapply post_mono.
  - apply (keeps_fill_loop W h0 m m h1
             (fun i j this => x <- Mat.at_ _castM i j ;; Mat.set this i j x));
      [|exact Hk].
    intros i j s h2 Hs. apply post_bind, post_at. intros x.
    apply keeps_set. exact Hs.
  - intros m1 h2 Hk1. apply post_ret. apply Hk1.
Qed.

Lemma post_inv this h :
  frame W h0 h ->
  post (Mat.inv generator this) h
    (fun r h' => frame W h0 h' /\ same_store this r.2).
Proof.
  intros Hf. unfold Mat.inv.
  destruct (negb _).
  - destruct (Mat._inv this); [|apply post_undefined].
    apply post_ret. split; [exact Hf|]. repeat split.
  - destruct (negb _); [apply post_throw|].
    bind_with post_of_fill; [exact Hf|]. intros e h1 [Hf1 Ho].
    bind_with post_rref_with; [exact Hf1 | exact Ho |]. intros r h2 [Hf2 _].
    bind_with post_MatInv_new; [exact Hf2|]. intros i h3 Hf3.
    apply post_ret. split; [exact Hf3|]. repeat split.
Qed.
End KernelsInv.

(** With the fuel the kernels pass, the pivot search always ends by
    itself. *)
Lemma find_pivot_total {T : Type} {ST : Scalar T} (m : Mat.t T) r lead
    (h : heap T) :
  0 <= r < Mat._n_rows m ->
  0 <= lead <= Mat._n_cols m ->
  Mat.find_pivot (Mat.pivot_fuel m) m r r lead h <> OutOfFuel.
Proof.
  intros Hr Hl E.
  pose proof (post_pivot_search m r lead h Hr Hl) as P.
  unfold post in P. rewrite E in P. exact P.
Qed.

Lemma find_pivot_total_witness :
  Mat.find_pivot (Mat.pivot_fuel Scenario.M21_obj) Scenario.M21_obj 0 0 0
    Scenario.M21_heap <> OutOfFuel.
Proof.
  apply find_pivot_total; simpl; lia.
Defined.

(** The frame of the kernels.  None of them exhausts the fuel of its pivot
    search.  [rref()], [det()] and [inv()] leave every buffer that existed
    before the call as it was, and [det()] and [inv()] hand the caller's
    object back with its buffer and dimensions: they differ from it in the
    cache fields only.  [rref(Mat<T> _m2)] leaves every buffer but the one
    of its operand, and the matrix it returns is that operand's buffer. *)
Theorem kernels_frame (T : Type) (ST : Scalar T) (generator : Z -> Z -> T)
    (this : Mat.t T) (h : heap T) :
  post (Mat.rref this) h (fun _ h' => frame nothing h h') /\
  post (Mat.det this) h
    (fun r h' => frame nothing h h' /\ same_store this r.2) /\
  post (Mat.inv generator this) h
    (fun r h' => frame nothing h h' /\ same_store this r.2) /\
  (forall _m2 : Mat.t T,
      post (Mat.rref_with this _m2) h
        (fun r h' => frame (eq (Mat._mat _m2)) h h' /\ same_store _m2 r)).
Proof.
  split; [|split; [|split]].
  - apply post_rref, frame_refl.
  - apply post_det, frame_refl.
  - apply post_inv, frame_refl.
  - intros _m2. apply post_rref_with; [apply frame_refl|].
    right. reflexivity.
Qed.

(** C7: the kernels are claimed to leave the elements of the caller's
    matrix and of the augmented operand unchanged.  [rref()], [det()] and
    [inv()] work on a deep copy ([kernels_frame]), but [rref(Mat<T> _m2)]
    initialises [_m2Clone] with the implicit copy constructor, so the row
    operations write into the buffer of the operand: after [A.rref(B)] with
    [A = [[2,1],[1,1]]] and [B = eye(2)], [B] reads [[[1,-1],[-1,2]]] and
    the returned matrix has [B]'s buffer; [A] itself still reads
    [[[2,1],[1,1]]] after all four kernels. *)
Theorem C7_rref_with_overwrites_its_operand (generator : Z -> Z -> Q) :
  run (a <- Mat.of_list Scenario.M21 ;;
       b <- Mat.of_fill generator 2 2 fill.eye ;;
       before <- elements (Mat.Plain b) ;;
       r <- Mat.rref_with a b ;;
       after <- elements (Mat.Plain b) ;;
       ret (before, after, Nat.eqb (Mat._mat r) (Mat._mat b)))
  = Ret ([[1; 0]; [0; 1]], [[1; -1]; [-1; 2]], true)%Q /\
  run (a <- Mat.of_list Scenario.M21 ;;
       _ <- Mat.rref a ;;
       _ <- Mat.det a ;;
       b <- Mat.of_fill generator 2 2 fill.eye ;;
       _ <- Mat.rref_with a b ;;
       elements (Mat.Plain a)) = Ret Scenario.M21.
Proof.
  repeat split; vm_compute; reflexivity.
Qed.

(** ** The sticky cache *)

Section StickyCache.
Context {T : Type} {ST : Scalar T}.
Implicit Types (this : Mat.t T) (h : heap T).

Lemma det_bit_set mask :
  negb (Z.land (Z.lor mask ORCA_STICKY_COMPUTE_DET_MASK)
               ORCA_STICKY_COMPUTE_DET_MASK =? 0) = true.
Proof.
  apply negb_true_iff, Z.eqb_neq. intros E.
  assert (B : Z.testbit (Z.land (Z.lor mask ORCA_STICKY_COMPUTE_DET_MASK)
                                ORCA_STICKY_COMPUTE_DET_MASK) 1 = false)
    by (rewrite E; apply Z.bits_0).
  rewrite Z.land_spec, Z.lor_spec in B.
  change (Z.testbit ORCA_STICKY_COMPUTE_DET_MASK 1) with true in B.
  rewrite orb_true_r in B. discriminate.
Qed.

(** Every successful [set] clears the whole mask. *)
Lemma set_clears_mask this row col x h this' h' :
  Mat.set this row col x h = Ret (this', h') ->
  this' = Mat.with_mask this 0.
Proof.
  unfold Mat.set, bind, lift.
  destruct (Mat._address this row col) as [p| | |]; try discriminate.
  destruct (store p x h) as [[u h1]| | |]; try discriminate.
  unfold ret. congruence.
Qed.

(** A [det()] on a valid determinant bit returns the stored value and
    touches nothing: no clone is allocated. *)
Lemma det_cached this h d :
  det_valid this = true -> Mat._det this = Some d ->
  Mat.det this h = Ret (d, this, h).
Proof.
  unfold det_valid, Mat.det. intros -> ->. reflexivity.
Qed.

Lemma det_uncached this h :
  det_valid this = false ->
  Mat.det this h =
    if Mat._n_rows this =? Mat._n_cols this then Mat.det_compute this h
    else Throw BadDimensionsError.
Proof.
  unfold det_valid, Mat.det. intros ->.
  destruct (Mat._n_rows this =? Mat._n_cols this); reflexivity.
Qed.

(** What a computation of the determinant leaves in the cache: either
    it ran the row loop to its end, and the bit is set and the value
    stored, or it left through one of the [return 0;], and the object is
    as before. *)
Lemma det_compute_cache this h v this' h' :
  Mat.det_compute this h = Ret (v, this', h') ->
  (det_valid this' = true /\ Mat._det this' = Some v) \/
  (v = lit 0 /\ this' = this).
Proof.
  unfold Mat.det_compute, bind.
  destruct (Mat.of_ptr _ h) as [[mc h1]| | |]; try discriminate.
  destruct (for_range_ret _ _ _ _ h1) as [[res h2]| | |]; try discriminate.
  destruct res as [[[lead mult] mc2]|u].
  - destruct (Mat.diag mc2 h2) as [[d h3]| | |]; try discriminate.
    destruct (Vec.prod d h3) as [[p h4]| | |]; try discriminate.
    unfold ret. intros [= <- <- <-]. left. split; [|reflexivity].
    unfold det_valid. cbn [Mat.with_det Mat.with_mask Mat._stickyComputeMask].
    apply det_bit_set.
  - unfold ret. intros [= <- <- <-]. right. split; reflexivity.
Qed.
(** The value [det()] computes does not depend on what the cache fields
    held: it is the value computed on the object with its cache erased. *)
Lemma det_compute_ignores_cache this h :
  result_of ((r <- Mat.det_compute this ;; ret (fst r)) h) =
  result_of ((r <- Mat.det_compute (uncached this) ;; ret (fst r)) h).
Proof.
  unfold Mat.det_compute, bind.
  change (Mat.of_ptr (Mat.Plain (uncached this)) h)
    with (Mat.of_ptr (Mat.Plain this) h).
  destruct (Mat.of_ptr _ h) as [[mc h1]| | |]; try reflexivity.
  destruct (for_range_ret _ _ _ _ h1) as [[res h2]| | |]; try reflexivity.
  destruct res as [[[lead mult] mc2]|u]; [|reflexivity].
  destruct (Mat.diag mc2 h2) as [[d h3]| | |]; try reflexivity.
  destruct (Vec.prod d h3) as [[p h4]| | |]; reflexivity.
Qed.

Lemma det_after_set_ignores_cache this row col x h this' h' :
  Mat.set this row col x h = Ret (this', h') ->
  det_value this' h' = det_value (uncached this') h'.
Proof.
  intros Hset. apply set_clears_mask in Hset. subst this'.
  unfold det_value, bind.
  rewrite !det_uncached by reflexivity.
  change (Mat._n_rows (uncached (Mat.with_mask this 0)))
    with (Mat._n_rows (Mat.with_mask this 0)).
  change (Mat._n_cols (uncached (Mat.with_mask this 0)))
    with (Mat._n_cols (Mat.with_mask this 0)).
  destruct (_ =? _); [|reflexivity].
  apply (det_compute_ignores_cache (Mat.with_mask this 0) h').
Qed.
End StickyCache.

(** A successful computation does not always mark the determinant valid:
    [det()] of [[[0]]] returns [0] through the [return 0;] inside the
    pivot search, which skips the cache update. *)
Lemma singular_result_is_not_cached :
  ~ (forall v this' h',
        Mat.det Scenario.zero11_obj Scenario.zero11_heap = Ret (v, this', h') ->
        det_valid this' = true /\ Mat._det this' = Some v).
Proof.
  intros H.
  destruct (H 0%Q Scenario.zero11_obj [[Some 0%Q]; [Some 0%Q]]) as [Hv _].
  - vm_compute. reflexivity.
  - vm_compute in Hv. discriminate.
Qed.

(** The transitions of the cache of one object: every successful [set]
    hands back the object with its whole mask cleared, and a [det()] on
    that object goes through the computation and returns what the matrix
    with an erased cache returns; a [det()] on a valid determinant returns
    the stored value and leaves memory untouched; a [det()] on an invalid
    determinant that returns either has run the elimination loop to its
    end, and then the determinant is valid and stored, or has left
    through [return 0;] with the cache as it was.  Nothing here speaks of
    another object on the same buffer. *)
Lemma sticky_cache_transitions (T : Type) (ST : Scalar T)
    (this : Mat.t T) (h : heap T) :
  (forall row col x this' h',
      Mat.set this row col x h = Ret (this', h') ->
      Mat._stickyComputeMask this' = 0 /\
      det_valid this' = false /\
      Mat.det this' h' =
        (if Mat._n_rows this' =? Mat._n_cols this' then Mat.det_compute this' h'
         else Throw BadDimensionsError) /\
      det_value this' h' = det_value (uncached this') h') /\
  (forall d,
      det_valid this = true -> Mat._det this = Some d ->
      Mat.det this h = Ret (d, this, h)) /\
  (forall v this' h',
      det_valid this = false ->
      Mat.det this h = Ret (v, this', h') ->
      (det_valid this' = true /\ Mat._det this' = Some v) \/
      (v = lit 0 /\ this' = this)).
Proof.
  split; [|split].
  - intros row col x this' h' Hset.
    pose proof (det_after_set_ignores_cache _ _ _ _ _ _ _ Hset) as Hval.
    apply set_clears_mask in Hset. subst this'.
    split; [reflexivity|]. split; [reflexivity|].
    split; [apply det_uncached; reflexivity | exact Hval].
  - intros d Hv Hd. apply det_cached; assumption.
  - intros v this' h' Hv Hdet. rewrite det_uncached in Hdet by assumption.
    destruct (Mat._n_rows this =? Mat._n_cols this); [|discriminate].
    eapply det_compute_cache; eassumption.
Qed.

Lemma sticky_cache_transitions_witness :
  (Mat._stickyComputeMask (Mat.with_mask Scenario.M21_cached 0) = 0 /\
   det_valid (Mat.with_mask Scenario.M21_cached 0) = false /\
   Mat.det (Mat.with_mask Scenario.M21_cached 0) Scenario.M21_set_heap =
     Mat.det_compute (Mat.with_mask Scenario.M21_cached 0) Scenario.M21_set_heap /\
   det_value (Mat.with_mask Scenario.M21_cached 0) Scenario.M21_set_heap =
     det_value (uncached (Mat.with_mask Scenario.M21_cached 0))
       Scenario.M21_set_heap) /\
  Mat.det Scenario.M21_cached Scenario.M21_heap
    = Ret (1%Q, Scenario.M21_cached, Scenario.M21_heap) /\
  ((det_valid Scenario.M21_cached = true /\
    Mat._det Scenario.M21_cached = Some 1%Q) \/
   (1%Q = lit 0 /\ Scenario.M21_cached = Scenario.M21_obj)).
Proof.
  destruct (sticky_cache_transitions Q _ Scenario.M21_cached Scenario.M21_heap)
    as (Hset & Hvalid & _).
  destruct (sticky_cache_transitions Q _ Scenario.M21_obj Scenario.M21_heap)
    as (_ & _ & Hcomp).
  split; [|split].
  - apply (Hset 0 0 3%Q). vm_compute. reflexivity.
  - apply Hvalid; reflexivity.
  - apply (Hcomp 1%Q Scenario.M21_cached
             [[Some 2; Some 1; Some 1; Some 1];
              [Some 1; Some (1 # 2); Some 0; Some 1];
              [Some 2; Some 1]; [Some 0; Some (1 # 2)]; [Some 1; Some 1]]%Q).
    + reflexivity.
    + vm_compute. reflexivity.
Defined.

(** The cache-coherence test of the spec: [det()], [set(0,0,3)], [det()],
    [det()] on [[[2,1],[1,1]]] gives [1], then [2] twice. *)
Example det_set_det_scenario :
  run (m <- Mat.of_list Scenario.M21 ;;
       r1 <- Mat.det m ;;
       m <- Mat.set (snd r1) 0 0 3%Q ;;
       r2 <- Mat.det m ;;
       r3 <- Mat.det (snd r2) ;;
       ret (fst r1, det_valid (snd r1), det_valid m, fst r2, fst r3))
  = Ret (1%Q, true, false, 2%Q, 2%Q).
Proof. vm_compute. reflexivity. Qed.

(** C8: the cache is claimed to be coherent: after any [set], a later
    [det()] recomputes and never returns a stale value.  The mask and the
    stored determinant are fields of the object, while the buffer is
    shared by every copy the implicit copy constructor makes
    ([Mat<T> B = A;], the by-value parameter of [operator * (Mat, T2)]).
    [set] clears the mask of the object it is called on only.  So, for
    every object [A] whose determinant is cached as [d], whenever a [set]
    through a copy of [A] returns, the copy is invalid, [A] is still
    valid, and [A.det()] returns [d] without looking at the changed
    buffer.  On [A = [[2,1],[1,1]]]: after [A.det()] (which is [1]),
    [Mat<T> B = A; B.set(0, 0, 3);], [A] reads [[[3,1],[1,1]]] and
    [A.det()] still returns [1], where [B.det()] computes [2]; and after
    [A * 3], [A.det()] still returns [1], where the product computes
    [9]. *)
Theorem C8_set_through_copy_leaves_stale_det :
  (forall (T : Type) (ST : Scalar T) (this : Mat.t T) (d : T)
          (row col : Z) (x : T) (h : heap T),
      let A := Mat.with_det
                 (Mat.with_mask this
                    (Z.lor (Mat._stickyComputeMask this)
                           ORCA_STICKY_COMPUTE_DET_MASK)) d in
      post (Mat.set A row col x) h
        (fun B h' =>
           det_valid B = false /\ det_valid A = true /\
           Mat.det A h' = Ret (d, A, h'))) /\
  run (A <- Mat.of_list Scenario.M21 ;;
       r <- Mat.det A ;;
       let A := snd r in
       B <- Mat.set A 0 0 3%Q ;;
       stale <- Mat.det A ;;
       now <- elements (Mat.Plain A) ;;
       fresh <- Mat.det B ;;
       ret (fst r, det_valid B, det_valid A, fst stale, now, fst fresh))
  = Ret (1%Q, false, true, 1%Q, [[3; 1]; [1; 1]]%Q, 2%Q) /\
  run (A <- Mat.of_list Scenario.M21 ;;
       r <- Mat.det A ;;
       let A := snd r in
       C <- Mat.operator_scale A 3%Q ;;
       stale <- Mat.det A ;;
       now <- elements (Mat.Plain A) ;;
       fresh <- Mat.det C ;;
       ret (det_valid C, det_valid A, fst stale, now, fst fresh))
  = Ret (false, true, 1%Q, [[6; 3]; [3; 3]]%Q, 9%Q).
Proof.
  split; [|split].
  - intros T ST this d row col x h A. unfold post.
    destruct (Mat.set A row col x h) as [[B h']| | |] eqn:Hset; try exact I.
    + assert (Hv : det_valid A = true) by apply det_bit_set.
      apply set_clears_mask in Hset. subst B.
      split; [reflexivity|]. split; [exact Hv|].
      apply det_cached; [exact Hv | reflexivity].
    + exfalso. revert Hset. unfold Mat.set, bind, lift.
      destruct (Mat._address A row col) as [p| | |] eqn:Ea; try discriminate.
      * unfold store. destruct (h !! p.1); [|discriminate].
        destruct (p.2 <? 0); [discriminate|].
        destruct (Nat.ltb _ _); discriminate.
      * exfalso. exact (address_not_out_of_fuel A row col Ea).
  - vm_compute. reflexivity.
  - vm_compute. reflexivity.
Qed.

(** ** Equality of matrices *)

Section LoopFacts.
Context {T : Type}.

(** A returning loop whose body only tests: it leaves with [false] at
    the first element that fails the test and falls through otherwise. *)
Lemma foldM_ret_test {A} (body : A -> unit -> M T (unit + bool))
    (test : A -> bool) (l : list A) (h : heap T) :
  (forall a, a ∈ l ->
     body a tt h = Ret (if test a then inl tt else inr false, h)) ->
  foldM_ret body l tt h = Ret (if forallb test l then inl tt else inr false, h).
Proof.
  induction l as [|a l IH]; intros Hbody; [reflexivity|].
  cbn [foldM_ret forallb]. unfold bind at 1.
  rewrite (Hbody a) by (left).
  destruct (test a); cbn [andb].
  - apply IH. intros b Hb. apply Hbody. right. exact Hb.
  - reflexivity.
Qed.

Lemma forallb_seqZ (test : Z -> bool) (lo len : Z) :
  forallb test (seqZ lo len) = true <->
  (forall k, lo <= k < lo + len -> test k = true).
Proof.
  rewrite forallb_forall. split.
  - intros H k Hk. apply H, list_elem_of_In, elem_of_seqZ. exact Hk.
  - intros H k Hk. apply H, elem_of_seqZ, list_elem_of_In. exact Hk.
Qed.
End LoopFacts.

Section EqualityFacts.
Context {T1 T2 : Type}.
Variable ne : T1 -> T2 -> bool.
Variables (m1 : Mat.t T1) (m2 : Mat.t T2) (h1 : heap T1) (h2 : heap T2).

Lemma operator_eq_shape_mismatch :
  Mat._n_rows m1 <> Mat._n_rows m2 \/ Mat._n_cols m1 <> Mat._n_cols m2 ->
  Mat.operator_eq ne m1 m2 h2 h1 = Ret (false, h1).
Proof.
  intros H. unfold Mat.operator_eq.
  destruct (Z.eqb_spec (Mat._n_rows m1) (Mat._n_rows m2)); [|reflexivity].
  destruct (Z.eqb_spec (Mat._n_cols m1) (Mat._n_cols m2)); [|reflexivity].
  destruct H; contradiction.
Qed.

(** The comparison of one pair of cells inside the loops. *)
Lemma compare_cell i j :
  Mat._n_rows m1 = Mat._n_rows m2 -> Mat._n_cols m1 = Mat._n_cols m2 ->
  readable m1 h1 -> readable m2 h2 ->
  0 <= i < Mat._n_rows m1 -> 0 <= j < Mat._n_cols m1 ->
  (x <- Mat.at_ m1 i j ;;
   y <- Mat.peek h2 (Mat.at_ m2 i j) ;;
   if ne x y then ret (inr false) else ret (inl tt)) h1
  = Ret (if cells_agree ne m1 h1 m2 h2 i j then inl tt else inr false, h1).
Proof.
  intros Er Ec R1 R2 Hi Hj.
  destruct (R1 i j Hi Hj) as [x Hx].
  destruct (R2 i j ltac:(lia) ltac:(lia)) as [y Hy].
  unfold bind, Mat.peek, cells_agree.
  rewrite (at_cell m1 h1 i j x) by (first [lia | assumption]).
  rewrite (at_cell m2 h2 i j y) by (first [lia | assumption]).
  rewrite Hx, Hy. destruct (ne x y); reflexivity.
Qed.

Lemma operator_eq_readable :
  Mat._n_rows m1 = Mat._n_rows m2 -> Mat._n_cols m1 = Mat._n_cols m2 ->
  readable m1 h1 -> readable m2 h2 ->
  Mat.operator_eq ne m1 m2 h2 h1 =
  Ret (forallb (fun i => forallb (cells_agree ne m1 h1 m2 h2 i)
                           (seqZ 0 (Mat._n_cols m1 - 0)))
         (seqZ 0 (Mat._n_rows m1 - 0)), h1).
Proof.
  intros Er Ec R1 R2. unfold Mat.operator_eq.
  rewrite <- Er, <- Ec, !Z.eqb_refl. cbn [negb orb].
  unfold bind at 1. unfold for_range_ret at 1.
  rewrite (foldM_ret_test _
    (fun i => forallb (cells_agree ne m1 h1 m2 h2 i)
                (seqZ 0 (Mat._n_cols m1 - 0)))).
  - destruct (forallb _ _); reflexivity.
  - intros i Hi. apply elem_of_seqZ in Hi. unfold for_range_ret.
    apply foldM_ret_test. intros j Hj. apply elem_of_seqZ in Hj.
    apply compare_cell; first [assumption | lia].
Qed.
End EqualityFacts.

(** C10: [m1 == m2] returns [true] exactly when the two matrices have the
    same [rows] and [cols] and [m1.at(i,j) != m2.at(i,j)] is false at every
    in-range index pair; operands of different shape compare unequal and
    nothing is thrown. *)
Theorem C10_operator_eq_characterised (T1 T2 : Type) (ne : T1 -> T2 -> bool)
    (m1 : Mat.t T1) (m2 : Mat.t T2) (h1 : heap T1) (h2 : heap T2) :
  (Mat._n_rows m1 <> Mat._n_rows m2 \/ Mat._n_cols m1 <> Mat._n_cols m2 ->
   Mat.operator_eq ne m1 m2 h2 h1 = Ret (false, h1)) /\
  (readable m1 h1 -> readable m2 h2 ->
   exists b,
     Mat.operator_eq ne m1 m2 h2 h1 = Ret (b, h1) /\
     (b = true <->
      Mat._n_rows m1 = Mat._n_rows m2 /\ Mat._n_cols m1 = Mat._n_cols m2 /\
      forall i j, 0 <= i < Mat._n_rows m1 -> 0 <= j < Mat._n_cols m1 ->
        exists x y, Mat.at_ m1 i j h1 = Ret (x, h1) /\
                    Mat.at_ m2 i j h2 = Ret (y, h2) /\
                    ne x y = false)).
Proof.
  split; [apply operator_eq_shape_mismatch|].
  intros R1 R2.
  destruct (Z.eq_dec (Mat._n_rows m1) (Mat._n_rows m2)) as [Er|Nr].
  2:{ exists false. split; [apply operator_eq_shape_mismatch; left; exact Nr|].
      split; [discriminate|]. intros (Er & _). contradiction. }
  destruct (Z.eq_dec (Mat._n_cols m1) (Mat._n_cols m2)) as [Ec|Nc].
  2:{ exists false. split; [apply operator_eq_shape_mismatch; right; exact Nc|].
      split; [discriminate|]. intros (_ & Ec & _). contradiction. }
  eexists. split; [apply operator_eq_readable; assumption|].
  rewrite forallb_seqZ. split.
  - intros H. split; [exact Er|]. split; [exact Ec|].
    intros i j Hi Hj.
    specialize (H i ltac:(lia)). rewrite forallb_seqZ in H.
    specialize (H j ltac:(lia)). unfold cells_agree in H.
    destruct (cell m1 h1 i j) as [x|] eqn:Hx; [|discriminate].
    destruct (cell m2 h2 i j) as [y|] eqn:Hy; [|discriminate].
    exists x, y. split; [apply at_cell; first [lia | assumption]|].
    split; [apply at_cell; first [lia | assumption]|].
    apply negb_true_iff. exact H.
  - intros (_ & _ & H) i Hi. apply forallb_seqZ. intros j Hj.
    destruct (H i j ltac:(lia) ltac:(lia)) as (x & y & Hx & Hy & Hne).
    destruct (R1 i j ltac:(lia) ltac:(lia)) as [x' Hx'].
    destruct (R2 i j ltac:(lia) ltac:(lia)) as [y' Hy'].
    rewrite (at_cell m1 h1 i j x') in Hx by (first [lia | assumption]).
    rewrite (at_cell m2 h2 i j y') in Hy by (first [lia | assumption]).
    injection Hx as ->. injection Hy as ->.
    unfold cells_agree. rewrite Hx', Hy', Hne. reflexivity.
Qed.

Lemma M21_readable : readable Scenario.M21_obj Scenario.M21_heap.
Proof.
  intros i j Hi Hj. cbn in Hi, Hj.
  assert (Ei : i = 0 \/ i = 1) by lia.
  assert (Ej : j = 0 \/ j = 1) by lia.
  destruct Ei as [-> | ->], Ej as [-> | ->]; eexists; vm_compute; reflexivity.
Qed.

Lemma C10_operator_eq_characterised_witness :
  Mat.operator_eq (fun x y => negb (Qeq_bool x y))
    Scenario.row12_obj Scenario.M21_obj Scenario.M21_heap Scenario.row12_heap
    = Ret (false, Scenario.row12_heap) /\
  exists b,
    Mat.operator_eq (fun x y => negb (Qeq_bool x y))
      Scenario.M21_obj Scenario.M21_obj Scenario.M21_heap Scenario.M21_heap
      = Ret (b, Scenario.M21_heap) /\
    (b = true <->
     Mat._n_rows Scenario.M21_obj = Mat._n_rows Scenario.M21_obj /\
     Mat._n_cols Scenario.M21_obj = Mat._n_cols Scenario.M21_obj /\
     forall i j,
       0 <= i < Mat._n_rows Scenario.M21_obj ->
       0 <= j < Mat._n_cols Scenario.M21_obj ->
       exists x y,
         Mat.at_ Scenario.M21_obj i j Scenario.M21_heap = Ret (x, Scenario.M21_heap) /\
         Mat.at_ Scenario.M21_obj i j Scenario.M21_heap = Ret (y, Scenario.M21_heap) /\
         negb (Qeq_bool x y) = false).
Proof.
  split.
  - apply (C10_operator_eq_characterised Q Q (fun x y => negb (Qeq_bool x y))
             Scenario.row12_obj Scenario.M21_obj
             Scenario.row12_heap Scenario.M21_heap).
    left. simpl. lia.
  - apply (C10_operator_eq_characterised Q Q (fun x y => negb (Qeq_bool x y))
             Scenario.M21_obj Scenario.M21_obj
             Scenario.M21_heap Scenario.M21_heap);
      exact M21_readable.
Defined.

(** ** Total correctness rules *)

Section TotalRules.
Context {T : Type}.
Implicit Types (h : heap T).

Lemma total_ret {A} (a : A) h (Q : A -> heap T -> Prop) :
  Q a h -> total (ret a) h Q.
Proof. intros H. exact H. Qed.

Lemma total_bind {A B} (c : M T A) (k : A -> M T B) h (Q : B -> heap T -> Prop) :
  total c h (fun a h' => total (k a) h' Q) -> total (bind c k) h Q.
Proof.
  unfold total, bind. destruct (c h) as [[a h']| | |]; auto.
Qed.

Lemma total_mono {A} (c : M T A) h (Q Q' : A -> heap T -> Prop) :
  total c h Q -> (forall a h', Q a h' -> Q' a h') -> total c h Q'.
Proof.
  unfold total. destruct (c h) as [[a h']| | |]; auto.
Qed.

Lemma total_lift {A} (o : outcome A) (a : A) h (Q : A -> heap T -> Prop) :
  o = Ret a -> Q a h -> total (lift o) h Q.
Proof. intros -> H. exact H. Qed.

Lemma total_eq {A} (c : M T A) h (a : A) h' (Q : A -> heap T -> Prop) :
  c h = Ret (a, h') -> Q a h' -> total c h Q.
Proof. unfold total. intros -> H. exact H. Qed.

Lemma total_inv {A} (c : M T A) h (Q : A -> heap T -> Prop) :
  total c h Q -> exists a h', c h = Ret (a, h') /\ Q a h'.
Proof.
  unfold total. destruct (c h) as [[a h']| | |]; try contradiction.
  intros H. exists a, h'. split; [reflexivity | exact H].
Qed.

(** A counted loop with an invariant that follows the counter. *)
Lemma total_for_range {S} (body : Z -> S -> M T S)
    (Inv : Z -> S -> heap T -> Prop) (lo hi : Z) :
  lo <= hi ->
  (forall i s h, lo <= i < hi -> Inv i s h -> total (body i s) h (Inv (i + 1))) ->
  forall s h, Inv lo s h -> total (for_range lo hi body s) h (Inv hi).
Proof.
  intros Hle Hbody. unfold for_range.
  remember (Z.to_nat (hi - lo)) as n eqn:En.
  revert lo Hle Hbody En. induction n as [|n IH]; intros lo Hle Hbody En s h Hs.
  - assert (hi = lo) by lia. subst hi.
    replace (lo - lo) with 0 by lia. cbn. exact Hs.
  - rewrite seqZ_cons by lia. cbn [foldM]. apply total_bind.
    eapply total_mono; [apply Hbody; [lia | exact Hs]|].
    intros s' h' Hs'. cbv beta.
    replace (Z.pred (hi - lo)) with (hi - Z.succ lo) by lia.
    apply IH; try lia.
    + intros i s0 h0 Hi. apply Hbody. lia.
    + replace (Z.succ lo) with (lo + 1) by lia. exact Hs'.
Qed.
End TotalRules.

Tactic Notation "step_with" uconstr(lem) :=
  apply total_bind; eapply total_mono; [eapply lem | cbv beta].

(** ** Cells, reads and writes *)

Section CellFacts.
Context {T : Type} {ST : Scalar T}.
Implicit Types (h : heap T) (m this : Mat.t T).

Lemma offset_inj (c i j i' j' : Z) :
  0 <= j < c -> 0 <= j' < c -> 0 <= i -> 0 <= i' ->
  j + i * c = j' + i' * c -> i = i' /\ j = j'.
Proof.
  intros Hj Hj' Hi Hi' E.
  destruct (Z.eq_dec i i') as [->|Hne]; [split; lia|].
  exfalso. assert (Hlt : i < i' \/ i' < i) by lia.
  destruct Hlt as [Hlt|Hlt].
  - assert (i * c + c <= i' * c) by nia. lia.
  - assert (i' * c + c <= i * c) by nia. lia.
Qed.

Lemma cell_same_store m this h i j :
  same_store m this -> cell this h i j = cell m h i j.
Proof. intros (Hm & _ & Hc). unfold cell. rewrite Hm, Hc. reflexivity. Qed.

Lemma at_same_store m this h i j :
  same_store m this -> Mat.at_ this i j h = Mat.at_ m i j h.
Proof.
  intros (Hm & Hr & Hc). unfold Mat.at_, Mat._address.
  rewrite Hm, Hr, Hc. reflexivity.
Qed.

Lemma same_store_refl m : same_store m m.
Proof. repeat split. Qed.

Lemma same_store_trans m1 m2 m3 :
  same_store m1 m2 -> same_store m2 m3 -> same_store m1 m3.
Proof. intros (?&?&?) (?&?&?). repeat split; congruence. Qed.

Lemma cell_other m h h' i j :
  h' !! Mat._mat m = h !! Mat._mat m -> cell m h' i j = cell m h i j.
Proof. intros E. unfold cell. rewrite E. reflexivity. Qed.

Lemma total_at m this h i j x (Q : T -> heap T -> Prop) :
  same_store m this -> in_range m i j -> cell m h i j = Some x ->
  Q x h -> total (Mat.at_ this i j) h Q.
Proof.
  intros Hs [Hi Hj] Hc HQ. eapply total_eq; [|exact HQ].
  rewrite (at_same_store m) by exact Hs. apply at_cell; [lia | lia | exact Hc].
Qed.

Lemma updates_refl m h (v : Z -> Z -> T) :
  allocated m h -> updates m h h (fun _ _ => false) v.
Proof.
  intros Ha. split; [reflexivity|]. split; [reflexivity|].
  split; [exact Ha|]. reflexivity.
Qed.

Lemma updates_ext m h0 h (P P' : Z -> Z -> bool) (v : Z -> Z -> T) :
  (forall i j, in_range m i j -> P i j = P' i j) ->
  updates m h0 h P v -> updates m h0 h P' v.
Proof.
  intros HP (Hl & Ho & Ha & Hc). split; [exact Hl|]. split; [exact Ho|].
  split; [exact Ha|]. intros i j Hij. rewrite <- HP by exact Hij.
  apply Hc. exact Hij.
Qed.

Lemma updates_values m h0 h (P : Z -> Z -> bool) (v v' : Z -> Z -> T) :
  (forall i j, in_range m i j -> P i j = true -> v i j = v' i j) ->
  updates m h0 h P v -> updates m h0 h P v'.
Proof.
  intros Hv (Hl & Ho & Ha & Hc). split; [exact Hl|]. split; [exact Ho|].
  split; [exact Ha|]. intros i j Hij. rewrite Hc by exact Hij.
  destruct (P i j) eqn:E; [|reflexivity]. rewrite Hv; auto.
Qed.

(** A write in range stores the element and touches no other cell. *)
Lemma set_updates m this h0 h (P : Z -> Z -> bool) (v : Z -> Z -> T) i j x :
  same_store m this -> updates m h0 h P v -> in_range m i j -> x = v i j ->
  total (Mat.set this i j x) h
    (fun this' h' =>
       same_store m this' /\ this' = Mat.with_mask this 0 /\
       updates m h0 h' (fun i' j' => P i' j' || ((i' =? i) && (j' =? j))) v).
Proof.
  intros (Hm & Hr & Hc) (Hl & Ho & (buf & Hbuf & Hlen) & Hcells) [Hi Hj] ->.
  unfold Mat.set. apply total_bind.
  eapply total_lift.
  { apply address_in_range; rewrite ?Hr, ?Hc; lia. }
  rewrite Hm, Hc.
  assert (Hoff : (Z.to_nat (j + i * Mat._n_cols m) < length buf)%nat).
  { rewrite Hlen. apply Z2Nat.inj_lt; nia. }
  apply total_bind. unfold total at 1, store. cbn [fst snd].
  rewrite Hbuf.
  destruct (Z.ltb_spec (j + i * Mat._n_cols m) 0); [nia|].
  rewrite (proj2 (Nat.ltb_lt _ _) Hoff).
  apply total_ret.
  assert (Hlt : (Mat._mat m < length h)%nat) by (eapply lookup_lt_Some; exact Hbuf).
  split; [repeat split; assumption|]. split; [reflexivity|].
  split; [rewrite length_insert; exact Hl|].
  split; [intros l Hne; rewrite list_lookup_insert_ne by congruence; apply Ho; exact Hne|].
  split.
  { exists (<[Z.to_nat (j + i * Mat._n_cols m) := Some (v i j)]> buf).
    split; [apply list_lookup_insert_eq; exact Hlt|].
    rewrite length_insert. exact Hlen. }
  intros i' j' [Hi' Hj']. unfold cell at 1.
  rewrite list_lookup_insert_eq by exact Hlt.
  destruct (Z.eqb_spec i' i) as [->|Hni]; cbn [andb].
  - destruct (Z.eqb_spec j' j) as [->|Hnj].
    + rewrite orb_true_r. rewrite list_lookup_insert_eq by exact Hoff. reflexivity.
    + rewrite orb_false_r. rewrite list_lookup_insert_ne.
      * rewrite <- (Hcells i j') by (split; lia). unfold cell. rewrite Hbuf. reflexivity.
      * intros E. apply Z2Nat.inj in E; nia.
  - rewrite orb_false_r. rewrite list_lookup_insert_ne.
    + rewrite <- (Hcells i' j') by (split; lia). unfold cell. rewrite Hbuf. reflexivity.
    + intros E. apply Z2Nat.inj in E; [|nia|nia].
      destruct (offset_inj (Mat._n_cols m) i j i' j'); lia.
Qed.

(** Reading a cell of the matrix that is being written. *)
Lemma total_at_updated m this h0 h (P : Z -> Z -> bool) (v : Z -> Z -> T) i j
    (Q : T -> heap T -> Prop) :
  same_store m this -> updates m h0 h P v -> in_range m i j -> P i j = true ->
  Q (v i j) h -> total (Mat.at_ this i j) h Q.
Proof.
  intros Hs (_ & _ & _ & Hc) Hij HP HQ.
  eapply (total_at m); [exact Hs | exact Hij | | exact HQ].
  rewrite Hc by exact Hij. rewrite HP. reflexivity.
Qed.

Lemma total_at_untouched m this h0 h (P : Z -> Z -> bool) (v : Z -> Z -> T) i j x
    (Q : T -> heap T -> Prop) :
  same_store m this -> updates m h0 h P v -> in_range m i j -> P i j = false ->
  cell m h0 i j = Some x ->
  Q x h -> total (Mat.at_ this i j) h Q.
Proof.
  intros Hs (_ & _ & _ & Hc) Hij HP Hx HQ.
  eapply (total_at m); [exact Hs | exact Hij | | exact HQ].
  rewrite Hc by exact Hij. rewrite HP. exact Hx.
Qed.

(** Reading another matrix while [m] is being written. *)
Lemma total_at_other m s h0 h (P : Z -> Z -> bool) (v : Z -> Z -> T) i j x
    (Q : T -> heap T -> Prop) :
  updates m h0 h P v -> Mat._mat s <> Mat._mat m ->
  in_range s i j -> cell s h0 i j = Some x ->
  Q x h -> total (Mat.at_ s i j) h Q.
Proof.
  intros (_ & Ho & _ & _) Hne Hij Hx HQ.
  eapply (total_at s); [apply same_store_refl | exact Hij | | exact HQ].
  rewrite (cell_other s h0 h) by (apply Ho; exact Hne). exact Hx.
Qed.
End CellFacts.

(** ** Sweeps *)

Section LoopsOverCells.
Context {T : Type} {ST : Scalar T}.
Implicit Types (h : heap T) (m this : Mat.t T).



(** A sweep over one row. *)
Lemma row_loop m h0 (P0 : Z -> Z -> bool) (v : Z -> Z -> T) r
    (cellM : Z -> Mat.t T -> M T (Mat.t T)) :
  0 <= r < Mat._n_rows m -> 0 <= Mat._n_cols m ->
  (forall j, 0 <= j < Mat._n_cols m ->
     writes_cell m h0 (fun i' j' => P0 i' j' || ((i' =? r) && (j' <? j))) v r j
       (cellM j)) ->
  forall this h,
    same_store m this -> updates m h0 h P0 v ->
    total (for_range 0 (Mat._n_cols m) cellM this) h
      (fun this' h' =>
         same_store m this' /\
         updates m h0 h' (fun i' j' => P0 i' j' || (i' =? r)) v).
Proof.
  intros Hr Hc Hbody this h Hs Hu.
  eapply total_mono.
  - apply (total_for_range cellM
      (fun b this' h' =>
         same_store m this' /\
         updates m h0 h' (fun i' j' => P0 i' j' || ((i' =? r) && (j' <? b))) v));
      [exact Hc | |].
    + intros j s h1 Hj [Hs1 Hu1]. eapply total_mono; [apply Hbody; eassumption|].
      intros s' h' [Hs' Hu']. split; [exact Hs'|].
      eapply updates_ext; [|exact Hu']. intros i' j' _. cbv beta.
      destruct (P0 i' j'); cbn [orb]; [reflexivity|].
      destruct (Z.eqb_spec i' r); cbn [andb]; [|reflexivity].
      destruct (Z.ltb_spec j' j), (Z.eqb_spec j' j), (Z.ltb_spec j' (j + 1));
        cbn; try reflexivity; lia.
    + split; [exact Hs|]. eapply updates_ext; [|exact Hu].
      intros i' j' [_ Hj']. cbv beta.
      destruct (Z.ltb_spec j' 0); [lia|]. rewrite andb_false_r, orb_false_r.
      reflexivity.
  - intros s' h' [Hs' Hu']. split; [exact Hs'|].
    eapply updates_ext; [|exact Hu']. intros i' j' [_ Hj']. cbv beta.
    destruct (Z.ltb_spec j' (Mat._n_cols m)); [|lia].
    rewrite andb_true_r. reflexivity.
Qed.

(** A row-major sweep over the whole matrix. *)
Lemma grid_loop m h0 (v : Z -> Z -> T) (nc : Mat.t T -> Z)
    (cellM : Z -> Z -> Mat.t T -> M T (Mat.t T)) :
  0 <= Mat._n_rows m -> 0 <= Mat._n_cols m ->
  (forall this, same_store m this -> nc this = Mat._n_cols m) ->
  (forall i j, in_range m i j ->
     writes_cell m h0 (before i j) v i j (cellM i j)) ->
  forall this h,
    same_store m this -> updates m h0 h (fun _ _ => false) v ->
    total (for_range 0 (Mat._n_rows m)
             (fun i this => for_range 0 (nc this)
                (fun j this => cellM i j this) this) this) h
      (fun this' h' =>
         same_store m this' /\ updates m h0 h' (fun _ _ => true) v).
Proof.
  intros Hr Hc Hnc Hbody this h Hs Hu.
  eapply total_mono.
  - apply (total_for_range _
      (fun a this' h' =>
         same_store m this' /\ updates m h0 h' (fun i' _ => i' <? a) v));
      [exact Hr | |].
    + intros i s h1 Hi [Hs1 Hu1]. rewrite (Hnc s Hs1).
      eapply total_mono.
      * apply (row_loop m h0 (fun i' _ => i' <? i) v i (fun j this => cellM i j this));
          [lia | exact Hc | | exact Hs1 | exact Hu1].
        intros j Hj s2 h2 Hs2 Hu2. apply Hbody; [split; lia | exact Hs2 | exact Hu2].
      * intros s' h' [Hs' Hu']. split; [exact Hs'|].
        eapply updates_ext; [|exact Hu']. intros i' j' _. cbv beta.
        destruct (Z.ltb_spec i' i), (Z.eqb_spec i' i), (Z.ltb_spec i' (i + 1));
          cbn; try reflexivity; lia.
    + split; [exact Hs|]. eapply updates_ext; [|exact Hu].
      intros i' j' [Hi' _]. cbv beta. destruct (Z.ltb_spec i' 0); [lia|reflexivity].
  - intros s' h' [Hs' Hu']. split; [exact Hs'|].
    eapply updates_ext; [|exact Hu']. intros i' j' [Hi' _]. cbv beta.
    destruct (Z.ltb_spec i' (Mat._n_rows m)); [reflexivity|lia].
Qed.

(** The step [set this i j x] of a sweep. *)
Lemma writes_cell_set m h0 (P : Z -> Z -> bool) (v : Z -> Z -> T) i j :
  in_range m i j ->
  writes_cell m h0 P v i j (fun this => Mat.set this i j (v i j)).
Proof.
  intros Hij this h Hs Hu. eapply total_mono.
  - apply (set_updates m this h0 h P v i j (v i j));
      [exact Hs | exact Hu | exact Hij | reflexivity].
  - intros this' h' (Hs' & _ & Hu'). split; assumption.
Qed.

(** Allocation of a matrix with positive dimensions. *)
Lemma total_allocate rows cols h :
  0 < rows -> 0 < cols ->
  total (@Mat._allocate T rows cols) h
    (fun m h' =>
       m = {| Mat._mat := length h; Mat._n_rows := rows; Mat._n_cols := cols;
              Mat._stickyComputeMask := 0; Mat._det := None; Mat._inv := None |} /\
       h' = h ++ [replicate (Z.to_nat (rows * cols)) None]).
Proof.
  intros Hr Hc. unfold Mat._allocate.
  destruct (Z.ltb_spec rows 0); [lia|]. destruct (Z.ltb_spec cols 0); [lia|].
  destruct (Z.eqb_spec rows 0); [lia|]. destruct (Z.eqb_spec cols 0); [lia|].
  cbn. split; reflexivity.
Qed.

Lemma allocated_fresh rows cols h :
  allocated
    {| Mat._mat := length h; Mat._n_rows := rows; Mat._n_cols := cols;
       Mat._stickyComputeMask := 0; Mat._det := None; Mat._inv := None |}
    (h ++ [replicate (Z.to_nat (rows * cols)) (@None T)]).
Proof.
  eexists. cbn. split.
  - rewrite lookup_app_r by lia. rewrite Nat.sub_diag. reflexivity.
  - apply length_replicate.
Qed.

(** What the memory before the allocation keeps, once the fresh buffer has
    been filled. *)
Lemma updates_fresh m h0 h' (P : Z -> Z -> bool) (v : Z -> Z -> T) blank :
  Mat._mat m = length h0 ->
  updates m (h0 ++ [blank]) h' P v ->
  frame nothing h0 h' /\ length h' = S (length h0).
Proof.
  intros Hm (Hl & Ho & _ & _). rewrite length_app in Hl. cbn in Hl.
  split; [split|]; try lia.
  intros l Hlt _. rewrite Ho by lia. apply lookup_app_l. exact Hlt.
Qed.
End LoopsOverCells.

(** ** Fillers and fill constructors *)

Section Fillers.
Context {T : Type} {ST : Scalar T}.
Implicit Types (h : heap T) (m this : Mat.t T).

Lemma updates_then m h0 h1 h2 (P1 P2 : Z -> Z -> bool) (v1 v2 : Z -> Z -> T) :
  updates m h0 h1 P1 v1 -> updates m h1 h2 P2 v2 ->
  updates m h0 h2 (fun i j => P1 i j || P2 i j)
    (fun i j => if P2 i j then v2 i j else v1 i j).
Proof.
  intros (Hl1 & Ho1 & _ & Hc1) (Hl2 & Ho2 & Ha2 & Hc2).
  split; [congruence|].
  split; [intros l Hne; rewrite Ho2, Ho1 by exact Hne; reflexivity|].
  split; [exact Ha2|].
  intros i j Hij. rewrite Hc2 by exact Hij.
  destruct (P2 i j); [rewrite orb_true_r; reflexivity|].
  rewrite orb_false_r. apply Hc1. exact Hij.
Qed.

Lemma updates_reads m this h0 h (v : Z -> Z -> T) :
  same_store m this -> updates m h0 h (fun _ _ => true) v ->
  reads_as this h v.
Proof.
  intros Hs (_ & _ & _ & Hc) i j Hij.
  assert (Hij' : in_range m i j).
  { destruct Hs as (_ & Hr & Hcs). unfold in_range in *. rewrite <- Hr, <- Hcs. exact Hij. }
  rewrite (at_same_store m) by exact Hs.
  apply at_cell; [unfold in_range in Hij'; lia | unfold in_range in Hij'; lia|].
  apply Hc. exact Hij'.
Qed.

Lemma reads_as_readable m h (v : Z -> Z -> T) : reads_as m h v -> readable m h.
Proof.
  intros H i j Hi Hj. specialize (H i j (conj Hi Hj)).
  unfold Mat.at_, bind, lift, load in H. rewrite address_in_range in H by lia.
  cbn [fst snd] in H. unfold cell.
  destruct (h !! Mat._mat m); [|discriminate].
  destruct (_ <? 0); [discriminate|].
  destruct (_ !! _) as [[x|]|]; try discriminate. eexists; reflexivity.
Qed.

Lemma reads_as_cell m h (v : Z -> Z -> T) i j :
  reads_as m h v -> in_range m i j -> cell m h i j = Some (v i j).
Proof.
  intros H Hij. specialize (H i j Hij). destruct Hij as [Hi Hj].
  unfold Mat.at_, bind, lift, load in H. rewrite address_in_range in H by lia.
  cbn [fst snd] in H. unfold cell.
  destruct (h !! Mat._mat m); [|discriminate].
  destruct (_ <? 0); [discriminate|].
  destruct (_ !! _) as [[x|]|]; try discriminate. congruence.
Qed.

Lemma total_fill_cells m this h (f : Z -> Z -> T) :
  0 <= Mat._n_rows m -> 0 <= Mat._n_cols m ->
  same_store m this -> allocated m h ->
  total (Mat.fill_cells this f) h
    (fun this' h' => same_store m this' /\ updates m h h' (fun _ _ => true) f).
Proof.
  intros Hr Hc Hs Ha. unfold Mat.fill_cells.
  destruct Hs as (Hm & Hrs & Hcs). rewrite Hrs.
  apply (grid_loop m h f Mat._n_cols (fun i j this => Mat.set this i j (f i j)));
    [exact Hr | exact Hc | | | repeat split; assumption | apply updates_refl; exact Ha].
  - intros s (_ & _ & E). exact E.
  - intros i j Hij. apply writes_cell_set. exact Hij.
Qed.

Lemma total_eye m this h :
  0 <= Mat._n_rows m -> 0 <= Mat._n_cols m ->
  same_store m this -> allocated m h ->
  total (Mat.eye this) h
    (fun this' h' => same_store m this' /\ updates m h h' (fun _ _ => true) kronecker).
Proof.
  intros Hr Hc Hs Ha. unfold Mat.eye, Mat.zeros.
  step_with (total_fill_cells m); [exact Hr | exact Hc | exact Hs | exact Ha |].
  intros s1 h1 [Hs1 Hu1].
  assert (Hmin : Z.min (Mat._n_rows s1) (Mat._n_cols s1)
                 = Z.min (Mat._n_rows m) (Mat._n_cols m)).
  { destruct Hs1 as (_ & -> & ->). reflexivity. }
  rewrite Hmin. eapply total_mono.
  - apply (total_for_range _
      (fun b this' h' =>
         same_store m this' /\
         updates m h1 h' (fun i j => (i =? j) && (i <? b)) (fun _ _ => lit 1)));
      [lia | |].
    + intros i s h2 Hi [Hs2 Hu2]. eapply total_mono.
      * eapply (set_updates m s h1 h2);
          [exact Hs2 | exact Hu2 | split; lia | reflexivity].
      * intros s' h' (Hs' & _ & Hu'). split; [exact Hs'|].
        eapply updates_ext; [|exact Hu']. intros i' j' _. cbv beta.
        destruct (Z.eqb_spec i' j'), (Z.ltb_spec i' i), (Z.eqb_spec i' i),
          (Z.eqb_spec j' i), (Z.ltb_spec i' (i + 1)); cbn; try reflexivity; lia.
    + split; [exact Hs1|].
      eapply updates_ext; [|apply updates_refl; apply Hu1].
      intros i' j' [Hi' _]. cbv beta.
      destruct (Z.ltb_spec i' 0); [lia|]. rewrite andb_false_r. reflexivity.
  - intros s' h' [Hs' Hu']. split; [exact Hs'|].
    pose proof (updates_then m h h1 h' _ _ _ _ Hu1 Hu') as Hu.
    eapply updates_values; [|eapply updates_ext; [|exact Hu]].
    + intros i j [Hi Hj] _. cbv beta. unfold kronecker.
      destruct (Z.eqb_spec i j), (Z.ltb_spec i (Z.min (Mat._n_rows m) (Mat._n_cols m)));
        cbn; try reflexivity; lia.
    + intros i j _. reflexivity.
Qed.
End Fillers.

Section FillConstructors.
Context {T : Type} {ST : Scalar T}.
Variable generator : Z -> Z -> T.
Implicit Types (h : heap T) (m this : Mat.t T).

(** What a constructor has built once it has allocated [m] and swept it. *)
Lemma built_fresh rows cols h this' h' (v : Z -> Z -> T) :
  let m := {| Mat._mat := length h; Mat._n_rows := rows; Mat._n_cols := cols;
              Mat._stickyComputeMask := 0; Mat._det := None; Mat._inv := None |} in
  same_store m this' ->
  updates m (h ++ [replicate (Z.to_nat (rows * cols)) None]) h' (fun _ _ => true) v ->
  built h rows cols v this' h'.
Proof.
  intros m Hs Hu.
  destruct (updates_fresh m h h' _ v _ eq_refl Hu) as [Hf Hl].
  split; [split; [apply Hs | split; [exact Hl | exact Hf]]|].
  split.
  { destruct Hu as (_ & _ & (buf & Hb & Hlen) & _).
    destruct Hs as (Hm & Hrs & Hcs). exists buf. rewrite Hm, Hrs, Hcs.
    split; assumption. }
  split; [apply Hs|]. split; [apply Hs|].
  eapply updates_reads; eassumption.
Qed.

Lemma total_of_fill rows cols type h (v : Z -> Z -> T) :
  0 < rows -> 0 < cols ->
  (type = fill.zeros /\ v = (fun _ _ => lit 0) \/
   type = fill.ones /\ v = (fun _ _ => lit 1) \/
   type = fill.eye /\ v = kronecker \/
   type = fill.rand /\ v = generator) ->
  total (Mat.of_fill generator rows cols type) h (built h rows cols v).
Proof.
  intros Hr Hc Htype. unfold Mat.of_fill.
  step_with total_allocate; [exact Hr | exact Hc |].
  intros m h1 [-> ->].
  pose proof (allocated_fresh (T:=T) rows cols h) as Ha.
  set (m := {| Mat._mat := length h; Mat._n_rows := rows |}) in *.
  assert (Hfill : forall f, total (Mat.fill_cells m f)
            (h ++ [replicate (Z.to_nat (rows * cols)) None]) (built h rows cols f)).
  { intros f. eapply total_mono.
    - apply (total_fill_cells m m); [cbn; lia | cbn; lia | apply same_store_refl | exact Ha].
    - intros s h' [Hs Hu]. apply (built_fresh rows cols h s h' f Hs Hu). }
  destruct Htype as [[-> ->]|[[-> ->]|[[-> ->]|[-> ->]]]]; cbn [Z.eqb fill.zeros fill.ones fill.eye fill.rand Pos.eqb].
  - apply Hfill.
  - apply Hfill.
  - eapply total_mono.
    + apply (total_eye m m); [cbn; lia | cbn; lia | apply same_store_refl | exact Ha].
    + intros s h' [Hs Hu]. apply (built_fresh rows cols h s h' _ Hs Hu).
  - apply Hfill.
Qed.

Lemma of_fill_unknown rows cols type h :
  0 < rows -> 0 < cols ->
  type <> fill.zeros -> type <> fill.ones -> type <> fill.eye -> type <> fill.rand ->
  Mat.of_fill generator rows cols type h = Throw UnknownFillError.
Proof.
  intros Hr Hc H0 H1 H3 H4. unfold Mat.of_fill, bind.
  destruct (total_inv _ _ _ (total_allocate (T:=T) rows cols h Hr Hc))
    as (m & h1 & -> & _).
  destruct (Z.eqb_spec type fill.zeros); [contradiction|].
  destruct (Z.eqb_spec type fill.eye); [contradiction|].
  destruct (Z.eqb_spec type fill.ones); [contradiction|].
  destruct (Z.eqb_spec type fill.rand); [contradiction|].
  reflexivity.
Qed.

Lemma total_of_fill_value rows cols elem h :
  0 < rows -> 0 < cols ->
  total (Mat.of_fill_value rows cols fill.value elem) h
    (built h rows cols (fun _ _ => elem)).
Proof.
  intros Hr Hc. unfold Mat.of_fill_value.
  step_with total_allocate; [exact Hr | exact Hc |].
  intros m h1 [-> ->]. cbn [Z.eqb fill.value Pos.eqb]. unfold Mat.fill.
  eapply total_mono.
  - eapply (total_fill_cells _ _);
      [| | apply same_store_refl | apply allocated_fresh]; cbn; lia.
  - intros s h' [Hs Hu]. apply (built_fresh rows cols h s h' _ Hs Hu).
Qed.

Lemma of_fill_value_unknown rows cols type elem h :
  0 < rows -> 0 < cols -> type <> fill.value ->
  Mat.of_fill_value rows cols type elem h = Throw UnknownFillError.
Proof.
  intros Hr Hc Hv. unfold Mat.of_fill_value, bind.
  destruct (total_inv _ _ _ (total_allocate (T:=T) rows cols h Hr Hc))
    as (m & h1 & -> & _).
  destruct (Z.eqb_spec type fill.value); [contradiction|]. reflexivity.
Qed.
End FillConstructors.

Section FillTheorems.
Context {T : Type} {ST : Scalar T}.
Variable generator : Z -> Z -> T.

(** [Mat(rows, cols, type)] with positive dimensions returns a fresh
    matrix of that shape: all [0] for [fill::zeros], all [1] for
    [fill::ones], [1] on the main diagonal and [0] elsewhere for
    [fill::eye] (square or not), the generator's draws for [fill::rand];
    every other fill type, [fill::value] included, throws
    [UnknownFillError]. *)
Theorem of_fill_contents (rows cols : Z) (h : heap T) :
  0 < rows -> 0 < cols ->
  total (Mat.of_fill generator rows cols fill.zeros) h
    (built h rows cols (fun _ _ => lit 0)) /\
  total (Mat.of_fill generator rows cols fill.ones) h
    (built h rows cols (fun _ _ => lit 1)) /\
  total (Mat.of_fill generator rows cols fill.eye) h
    (built h rows cols kronecker) /\
  total (Mat.of_fill generator rows cols fill.rand) h
    (built h rows cols generator) /\
  forall type,
    type <> fill.zeros -> type <> fill.ones -> type <> fill.eye ->
    type <> fill.rand ->
    Mat.of_fill generator rows cols type h = Throw UnknownFillError.
Proof.
  intros Hr Hc. repeat split.
  - apply total_of_fill; auto.
  - apply total_of_fill; auto.
  - apply total_of_fill; auto 6.
  - apply total_of_fill; auto 6.
  - intros type. apply of_fill_unknown; assumption.
Qed.

(** [Mat(rows, cols, type, elem)] with positive dimensions returns a fresh
    matrix filled with [elem] for [fill::value] and throws
    [UnknownFillError] for every other fill type. *)
Theorem of_fill_value_contents (rows cols : Z) (elem : T) (h : heap T) :
  0 < rows -> 0 < cols ->
  total (Mat.of_fill_value rows cols fill.value elem) h
    (built h rows cols (fun _ _ => elem)) /\
  forall type, type <> fill.value ->
    Mat.of_fill_value rows cols type elem h = Throw UnknownFillError.
Proof.
  intros Hr Hc. split.
  - apply total_of_fill_value; assumption.
  - intros type. apply of_fill_value_unknown; assumption.
Qed.
End FillTheorems.

(** ** Deep copies and materialised views *)

Section Copies.
Context {T : Type} {ST : Scalar T}.
Implicit Types (h : heap T) (m this : Mat.t T) (o : Mat.obj T).

(** An access through a view only depends on the buffer it ends in. *)
Lemma at_frame m h h' i j :
  h' !! Mat._mat m = h !! Mat._mat m ->
  forall x, Mat.at_ m i j h = Ret (x, h) -> Mat.at_ m i j h' = Ret (x, h').
Proof.
  intros E x. unfold Mat.at_, bind, lift.
  destruct (Mat._address m i j) as [p| | |] eqn:Ea; try discriminate.
  unfold load. rewrite (address_buffer _ _ _ _ Ea), E.
  destruct (h !! Mat._mat m) as [buf|]; [|discriminate].
  destruct (p.2 <? 0); [discriminate|].
  destruct (buf !! Z.to_nat p.2) as [[y|]|]; try discriminate.
  intros [= ->]. reflexivity.
Qed.

Lemma vat_pure o : forall i j h x h', Mat.vat o i j h = Ret (x, h') -> h' = h.
Proof.
  induction o as [m | nr nc parent IH | nr nc parent IH r1 r2 c1 c2];
    intros i j h x h' E; cbn [Mat.vat] in E.
  - pose proof (post_at m i j h (fun _ h1 => h1 = h) (fun _ => eq_refl)) as P.
    unfold post in P. rewrite E in P. exact P.
  - eapply IH; exact E.
  - destruct (_ || _); [discriminate|]. eapply IH; exact E.
Qed.

Lemma vat_frame o h h' :
  h' !! Mat._mat (root o) = h !! Mat._mat (root o) ->
  forall i j x, Mat.vat o i j h = Ret (x, h) -> Mat.vat o i j h' = Ret (x, h').
Proof.
  intros E. induction o as [m | nr nc parent IH | nr nc parent IH r1 r2 c1 c2];
    intros i j x Hx; cbn [Mat.vat root] in *.
  - eapply at_frame; eassumption.
  - apply IH; assumption.
  - destruct (_ || _); [discriminate|]. apply IH; assumption.
Qed.

Lemma velem_vat o h i j x :
  velem o h i j = Some x -> Mat.vat o i j h = Ret (x, h).
Proof.
  unfold velem. destruct (Mat.vat o i j h) as [[y h']| | |] eqn:E; try discriminate.
  intros [= ->]. pose proof (vat_pure o i j h x h' E) as ->. reflexivity.
Qed.

(** The copying loop shared by the converting constructors. *)
Lemma total_copy_loop o h0 m this h :
  0 <= Mat._n_rows m -> 0 <= Mat._n_cols m ->
  Mat._n_rows m = Mat.rows o -> Mat._n_cols m = Mat.cols o ->
  vreadable o h0 ->
  Mat._mat (root o) <> Mat._mat m ->
  same_store m this -> updates m h0 h (fun _ _ => false) (vvalue o h0) ->
  total (for_range 0 (Mat._n_rows m)
           (fun i this => for_range 0 (Mat._n_cols this)
              (fun j this => x <- Mat.vat o i j ;; Mat.set this i j x) this) this) h
    (fun this' h' =>
       same_store m this' /\ updates m h0 h' (fun _ _ => true) (vvalue o h0)).
Proof.
  intros Hr Hc Er Ec Hread Hne Hs Hu.
  apply (grid_loop m h0 (vvalue o h0) Mat._n_cols
           (fun i j this => x <- Mat.vat o i j ;; Mat.set this i j x));
    [exact Hr | exact Hc | | | exact Hs | exact Hu].
  - intros s (_ & _ & E). exact E.
  - intros i j Hij s h1 Hs1 Hu1.
    destruct (Hread i j) as [x Hx];
      [destruct Hij; lia | destruct Hij; lia |].
    apply total_bind. eapply total_eq.
    + apply (vat_frame o h0 h1); [apply Hu1; exact Hne|].
      apply velem_vat. exact Hx.
    + eapply total_mono.
      * eapply (set_updates m s h0 h1);
          [exact Hs1 | exact Hu1 | exact Hij |].
        unfold vvalue. rewrite Hx. reflexivity.
      * intros s' h' (Hs' & _ & Hu'). split; assumption.
Qed.

(** Every buffer a readable view ends in exists. *)
Lemma vat_root_lt o h : forall i j x,
  Mat.vat o i j h = Ret (x, h) -> (Mat._mat (root o) < length h)%nat.
Proof.
  induction o as [m | nr nc parent IH | nr nc parent IH r1 r2 c1 c2];
    intros i j x Hx; cbn [Mat.vat root] in *.
  - unfold Mat.at_, bind, lift in Hx.
    destruct (Mat._address m i j) as [p| | |] eqn:Ea; try discriminate.
    unfold load in Hx. rewrite (address_buffer _ _ _ _ Ea) in Hx.
    destruct (h !! Mat._mat m) as [buf|] eqn:E; [|discriminate].
    eapply lookup_lt_Some. exact E.
  - eapply IH. exact Hx.
  - destruct (_ || _); [discriminate|]. eapply IH. exact Hx.
Qed.

Lemma vreadable_root_lt o h :
  0 < Mat.rows o -> 0 < Mat.cols o -> vreadable o h ->
  (Mat._mat (root o) < length h)%nat.
Proof.
  intros Hr Hc Hread. destruct (Hread 0 0) as [x Hx]; [lia | lia |].
  apply velem_vat in Hx. eapply vat_root_lt. exact Hx.
Qed.

(** The deep copy made by the converting constructors. *)
Lemma total_of_ptr o h :
  0 < Mat.rows o -> 0 < Mat.cols o -> vreadable o h ->
  total (Mat.of_ptr o) h (built h (Mat.rows o) (Mat.cols o) (vvalue o h)).
Proof.
  intros Hr Hc Hread. unfold Mat.of_ptr.
  step_with total_allocate; [exact Hr | exact Hc |].
  intros m h1 [-> ->].
  set (m := {| Mat._mat := length h; Mat._n_rows := Mat.rows o |}).
  pose proof (vreadable_root_lt o h Hr Hc Hread) as Hlt.
  set (h1 := h ++ [replicate (Z.to_nat (Mat.rows o * Mat.cols o)) None]).
  assert (Hagree : forall l, (l < length h)%nat -> h1 !! l = h !! l)
    by (intros l Hl; apply lookup_app_l; exact Hl).
  assert (Hread1 : vreadable o h1).
  { intros i j Hi Hj. destruct (Hread i j Hi Hj) as [x Hx]. exists x.
    unfold velem. rewrite (vat_frame o h h1 (Hagree _ Hlt) i j x (velem_vat _ _ _ _ _ Hx)).
    reflexivity. }
  assert (Hval : forall i j, 0 <= i < Mat.rows o -> 0 <= j < Mat.cols o ->
                   vvalue o h1 i j = vvalue o h i j).
  { intros i j Hi Hj. destruct (Hread i j Hi Hj) as [x Hx]. unfold vvalue.
    rewrite Hx. unfold velem.
    rewrite (vat_frame o h h1 (Hagree _ Hlt) i j x (velem_vat _ _ _ _ _ Hx)).
    reflexivity. }
  eapply total_mono.
  - apply (total_copy_loop o h1 m m h1).
    + unfold m; cbn; lia.
    + unfold m; cbn; lia.
    + reflexivity.
    + reflexivity.
    + exact Hread1.
    + unfold m; cbn; lia.
    + apply same_store_refl.
    + apply updates_refl. apply allocated_fresh.
  - intros s h' [Hs Hu]. apply (built_fresh (Mat.rows o) (Mat.cols o) h s h' _ Hs).
    eapply updates_values; [|exact Hu].
    intros i j [Hi Hj] _. apply Hval; assumption.
Qed.
End Copies.

Section CopyTheorems.
Context {T : Type} {ST : Scalar T}.
Implicit Types (h : heap T) (m this : Mat.t T) (o : Mat.obj T).

Lemma readable_elem m h i j :
  readable m h -> in_range m i j -> cell m h i j = Some (elem m h i j).
Proof.
  intros Hr [Hi Hj]. destruct (Hr i j Hi Hj) as [x Hx].
  unfold elem. rewrite Hx. reflexivity.
Qed.

Lemma readable_reads m h : readable m h -> reads_as m h (elem m h).
Proof.
  intros Hr i j Hij. apply at_cell; [destruct Hij; lia | destruct Hij; lia|].
  apply readable_elem; assumption.
Qed.

Lemma built_mono h rows cols (v v' : Z -> Z -> T) c h' :
  (forall i j, 0 <= i < rows -> 0 <= j < cols -> v i j = v' i j) ->
  built h rows cols v c h' -> built h rows cols v' c h'.
Proof.
  intros Hv (Hf & Ha & Hr & Hc & Hreads). split; [exact Hf|]. split; [exact Ha|].
  split; [exact Hr|].
  split; [exact Hc|]. intros i j Hij. rewrite <- Hv.
  - apply Hreads. exact Hij.
  - destruct Hij. lia.
  - destruct Hij. lia.
Qed.

Lemma vreadable_plain m h : readable m h -> vreadable (Mat.Plain m) h.
Proof.
  intros Hr i j Hi Hj. cbn in Hi, Hj. exists (elem m h i j).
  unfold velem. cbn [Mat.vat]. rewrite (readable_reads m h Hr i j (conj Hi Hj)).
  reflexivity.
Qed.

Lemma vvalue_plain m h i j :
  readable m h -> in_range m i j -> vvalue (Mat.Plain m) h i j = elem m h i j.
Proof.
  intros Hr Hij. unfold vvalue, velem. cbn [Mat.vat].
  rewrite (readable_reads m h Hr i j Hij). reflexivity.
Qed.

(** Reads of a matrix whose buffer a later state has kept. *)
Lemma reads_as_frame m h h' (v : Z -> Z -> T) :
  h' !! Mat._mat m = h !! Mat._mat m -> reads_as m h v -> reads_as m h' v.
Proof.
  intros E Hr i j Hij. eapply at_frame; [exact E|]. apply Hr. exact Hij.
Qed.

Lemma readable_lt m h :
  0 < Mat._n_rows m -> 0 < Mat._n_cols m -> readable m h ->
  (Mat._mat m < length h)%nat.
Proof.
  intros Hr Hc Hread.
  apply (vreadable_root_lt (Mat.Plain m) h Hr Hc (vreadable_plain m h Hread)).
Qed.

Lemma frame_lookup (h0 h : heap T) l :
  frame nothing h0 h -> (l < length h0)%nat -> h !! l = h0 !! l.
Proof. intros [_ H] Hl. apply H; [exact Hl | intros []]. Qed.

(** [Mat(Mat<T1>* _castM)], the constructor behind [Mat<T> clone = this;],
    is a deep copy: the copy is a fresh matrix that reads as the original,
    and a later write into the copy is read back from the copy while the
    original still reads as it did. *)
Theorem copy_is_deep (m : Mat.t T) (h : heap T) :
  0 < Mat._n_rows m -> 0 < Mat._n_cols m -> readable m h ->
  total (Mat.of_ptr (Mat.Plain m)) h
    (fun c h1 =>
       built h (Mat._n_rows m) (Mat._n_cols m) (elem m h) c h1 /\
       reads_as m h1 (elem m h) /\
       forall i j x, in_range c i j ->
         total (Mat.set c i j x) h1
           (fun c' h2 =>
              Mat.at_ c' i j h2 = Ret (x, h2) /\ reads_as m h2 (elem m h))).
Proof.
  intros Hr Hc Hread.
  pose proof (readable_lt m h Hr Hc Hread) as Hlt.
  eapply total_mono.
  - apply (total_of_ptr (Mat.Plain m) h Hr Hc (vreadable_plain m h Hread)).
  - intros c h1 Hb. cbn [Mat.rows Mat.cols] in Hb.
    assert (Hb' : built h (Mat._n_rows m) (Mat._n_cols m) (elem m h) c h1).
    { eapply built_mono; [|exact Hb]. intros i j Hi Hj.
      apply vvalue_plain; [exact Hread | split; assumption]. }
    pose proof Hb' as ((Hm & Hl & Hf) & Ha & Hcr & Hcc & Hreads).
    assert (Hm1 : reads_as m h1 (elem m h)).
    { eapply reads_as_frame; [|apply readable_reads; exact Hread].
      apply frame_lookup; assumption. }
    split; [exact Hb'|]. split; [exact Hm1|].
    intros i j x Hij. eapply total_mono.
    + apply (set_updates c c h1 h1 (fun _ _ => false) (fun _ _ => x) i j x);
        [apply same_store_refl | apply updates_refl; exact Ha | exact Hij | reflexivity].
    + intros c' h2 (Hs' & _ & Hu'). split.
      * rewrite (at_same_store c) by exact Hs'.
        apply at_cell; [destruct Hij; lia | destruct Hij; lia|].
        destruct Hu' as (_ & _ & _ & Hcell). rewrite (Hcell i j Hij).
        cbv beta. rewrite !Z.eqb_refl. reflexivity.
      * eapply reads_as_frame; [|exact Hm1].
        destruct Hu' as (_ & Ho & _ & _). apply Ho. lia.
Qed.

(** Materialising the view [range(r1, r2, c1, c2)] of a readable matrix,
    for a range inside the matrix, gives a fresh matrix that holds exactly
    the addressed block. *)
Theorem materialised_range (m : Mat.t T) (h : heap T) (r1 r2 c1 c2 : Z) :
  readable m h ->
  0 <= r1 <= r2 -> r2 < Mat._n_rows m ->
  0 <= c1 <= c2 -> c2 < Mat._n_cols m ->
  total (v <- lift (Mat.range (Mat.Plain m) r1 r2 c1 c2) ;; Mat.of_ptr v) h
    (built h (r2 - r1 + 1) (c2 - c1 + 1)
       (fun i j => elem m h (i + r1) (j + c1))).
Proof.
  intros Hread Hr1 Hr2 Hc1 Hc2. apply total_bind.
  unfold Mat.range, Mat.SubMat_new.
  destruct (Z.ltb_spec r2 r1); [lia|]. destruct (Z.ltb_spec c2 c1); [lia|].
  cbn [orb lift]. unfold total at 1.
  set (v := Mat.SubMat (r2 - r1 + 1) (c2 - c1 + 1) (Mat.Plain m) r1 r2 c1 c2).
  assert (Hvat : forall i j, 0 <= i < r2 - r1 + 1 -> 0 <= j < c2 - c1 + 1 ->
            Mat.vat v i j h = Ret (elem m h (i + r1) (j + c1), h)).
  { intros i j Hi Hj. unfold v. cbn [Mat.vat].
    destruct (Z.ltb_spec i 0); [lia|]. destruct (Z.ltb_spec (r2 - r1 + 1) i); [lia|].
    destruct (Z.ltb_spec j 0); [lia|]. destruct (Z.ltb_spec (c2 - c1 + 1) j); [lia|].
    cbn [orb]. apply (readable_reads m h Hread). split; lia. }
  eapply total_mono.
  - apply (total_of_ptr v h); [cbn; lia | cbn; lia |].
    intros i j Hi Hj. cbn in Hi, Hj. eexists. unfold velem.
    rewrite (Hvat i j Hi Hj). reflexivity.
  - intros c h1 Hb. cbn [Mat.rows Mat.cols v] in Hb.
    eapply built_mono; [|exact Hb]. intros i j Hi Hj.
    unfold vvalue, velem. rewrite (Hvat i j Hi Hj). reflexivity.
Qed.

(** Materialising the view [t()] gives the transposed matrix, and
    materialising [t()] of [t()] gives a copy. *)
Theorem materialised_transpose (m : Mat.t T) (h : heap T) :
  0 < Mat._n_rows m -> 0 < Mat._n_cols m -> readable m h ->
  total (Mat.of_ptr (Mat.tr (Mat.Plain m))) h
    (built h (Mat._n_cols m) (Mat._n_rows m) (fun i j => elem m h j i)) /\
  total (Mat.of_ptr (Mat.tr (Mat.tr (Mat.Plain m)))) h
    (built h (Mat._n_rows m) (Mat._n_cols m) (elem m h)).
Proof.
  intros Hr Hc Hread. split.
  - assert (Hvat : forall i j, 0 <= i < Mat._n_cols m -> 0 <= j < Mat._n_rows m ->
              Mat.vat (Mat.tr (Mat.Plain m)) i j h = Ret (elem m h j i, h)).
    { intros i j Hi Hj. cbn [Mat.vat Mat.tr Mat.MatTr_new].
      apply (readable_reads m h Hread). split; lia. }
    eapply total_mono.
    + apply (total_of_ptr (Mat.tr (Mat.Plain m)) h); [cbn; lia | cbn; lia |].
      intros i j Hi Hj. cbn in Hi, Hj. eexists. unfold velem.
      rewrite (Hvat i j Hi Hj). reflexivity.
    + intros c h1 Hb. cbn [Mat.rows Mat.cols Mat.tr Mat.MatTr_new] in Hb.
      eapply built_mono; [|exact Hb]. intros i j Hi Hj.
      unfold vvalue, velem. rewrite (Hvat i j Hi Hj). reflexivity.
  - assert (Hvat : forall i j, 0 <= i < Mat._n_rows m -> 0 <= j < Mat._n_cols m ->
              Mat.vat (Mat.tr (Mat.tr (Mat.Plain m))) i j h = Ret (elem m h i j, h)).
    { intros i j Hi Hj. cbn [Mat.vat Mat.tr Mat.MatTr_new].
      apply (readable_reads m h Hread). split; lia. }
    eapply total_mono.
    + apply (total_of_ptr (Mat.tr (Mat.tr (Mat.Plain m))) h); [cbn; lia | cbn; lia |].
      intros i j Hi Hj. cbn in Hi, Hj. eexists. unfold velem.
      rewrite (Hvat i j Hi Hj). reflexivity.
    + intros c h1 Hb. cbn [Mat.rows Mat.cols Mat.tr Mat.MatTr_new] in Hb.
      eapply built_mono; [|exact Hb]. intros i j Hi Hj.
      unfold vvalue, velem. rewrite (Hvat i j Hi Hj). reflexivity.
Qed.
End CopyTheorems.

(** ** Arithmetic operators *)

Section Operators.
Context {T : Type} {ST : Scalar T}.
Implicit Types (h : heap T) (m this : Mat.t T).

Lemma readable_after_allocate m h blank :
  0 < Mat._n_rows m -> 0 < Mat._n_cols m -> readable m h ->
  Mat._mat m <> length h /\
  (forall i j, in_range m i j ->
     cell m (h ++ [blank]) i j = Some (elem m h i j)).
Proof.
  intros Hr Hc Hread. pose proof (readable_lt m h Hr Hc Hread) as Hlt.
  split; [lia|]. intros i j [Hi Hj].
  rewrite (cell_other m h (h ++ [blank])) by (apply lookup_app_l; exact Hlt).
  apply readable_elem; [exact Hread | split; assumption].
Qed.

(** The loop shared by the element-wise binary operators. *)
Lemma total_zip_loop (f : T -> T -> T) m1 m2 h0 m this h
    (v1 v2 : Z -> Z -> T) :
  0 <= Mat._n_rows m -> 0 <= Mat._n_cols m ->
  Mat._n_rows m1 = Mat._n_rows m -> Mat._n_cols m1 = Mat._n_cols m ->
  Mat._n_rows m2 = Mat._n_rows m -> Mat._n_cols m2 = Mat._n_cols m ->
  Mat._mat m1 <> Mat._mat m -> Mat._mat m2 <> Mat._mat m ->
  (forall i j, in_range m i j -> cell m1 h0 i j = Some (v1 i j)) ->
  (forall i j, in_range m i j -> cell m2 h0 i j = Some (v2 i j)) ->
  same_store m this ->
  updates m h0 h (fun _ _ => false) (fun i j => f (v1 i j) (v2 i j)) ->
  total (for_range 0 (Mat._n_rows m1)
           (fun i m3 => for_range 0 (Mat._n_cols m1)
              (fun j m3 =>
                 x <- Mat.at_ m1 i j ;;
                 y <- Mat.at_ m2 i j ;;
                 Mat.set m3 i j (f x y)) m3) this) h
    (fun this' h' =>
       same_store m this' /\
       updates m h0 h' (fun _ _ => true) (fun i j => f (v1 i j) (v2 i j))).
Proof.
  intros Hr Hc Er1 Ec1 Er2 Ec2 Hn1 Hn2 H1 H2 Hs Hu. rewrite Er1.
  apply (grid_loop m h0 (fun i j => f (v1 i j) (v2 i j)) (fun _ => Mat._n_cols m1)
           (fun i j m3 => x <- Mat.at_ m1 i j ;; y <- Mat.at_ m2 i j ;;
                          Mat.set m3 i j (f x y)));
    [exact Hr | exact Hc | | | exact Hs | exact Hu].
  - intros s _. exact Ec1.
  - intros i j Hij s h1 Hs1 Hu1.
    assert (Hij1 : in_range m1 i j) by (unfold in_range in *; lia).
    assert (Hij2 : in_range m2 i j) by (unfold in_range in *; lia).
    apply total_bind.
    eapply (total_at_other m m1 h0 h1);
      [exact Hu1 | exact Hn1 | exact Hij1 | apply H1; exact Hij |].
    apply total_bind.
    eapply (total_at_other m m2 h0 h1);
      [exact Hu1 | exact Hn2 | exact Hij2 | apply H2; exact Hij |].
    eapply total_mono.
    + eapply (set_updates m s h0 h1);
        [exact Hs1 | exact Hu1 | exact Hij | reflexivity].
    + intros s' h' (Hs' & _ & Hu'). split; assumption.
Qed.

Lemma total_zip (f : T -> T -> T) m1 m2 h :
  0 < Mat._n_rows m1 -> 0 < Mat._n_cols m1 ->
  Mat._n_rows m1 = Mat._n_rows m2 -> Mat._n_cols m1 = Mat._n_cols m2 ->
  readable m1 h -> readable m2 h ->
  total (m3 <- Mat.new (Mat._n_rows m1) (Mat._n_cols m1) ;;
         for_range 0 (Mat._n_rows m1)
           (fun i m3 => for_range 0 (Mat._n_cols m1)
              (fun j m3 =>
                 x <- Mat.at_ m1 i j ;;
                 y <- Mat.at_ m2 i j ;;
                 Mat.set m3 i j (f x y)) m3) m3) h
    (built h (Mat._n_rows m1) (Mat._n_cols m1)
       (fun i j => f (elem m1 h i j) (elem m2 h i j))).
Proof.
  intros Hr Hc Er Ec Hread1 Hread2. unfold Mat.new.
  step_with total_allocate; [exact Hr | exact Hc |].
  intros m h1 [-> ->].
  set (blank := replicate (Z.to_nat (Mat._n_rows m1 * Mat._n_cols m1)) None).
  destruct (readable_after_allocate m1 h blank Hr Hc Hread1) as [Hn1 Hc1].
  destruct (readable_after_allocate m2 h blank) as [Hn2 Hc2];
    [lia | lia | exact Hread2 |].
  set (m := {| Mat._mat := length h; Mat._n_rows := Mat._n_rows m1 |}).
  eapply total_mono.
  - apply (total_zip_loop f m1 m2 (h ++ [blank]) m m (h ++ [blank])
             (elem m1 h) (elem m2 h));
      try (unfold m; cbn; lia).
    + intros i j [Hi Hj]. apply Hc1. split; assumption.
    + intros i j [Hi Hj]. apply Hc2. unfold m in Hi, Hj. cbn in Hi, Hj. split; lia.
    + apply same_store_refl.
    + apply updates_refl. apply allocated_fresh.
  - intros s h' [Hs Hu].
    apply (built_fresh (Mat._n_rows m1) (Mat._n_cols m1) h s h' _ Hs Hu).
Qed.

(** [m1 + m2] on readable operands of one shape is a fresh matrix of that
    shape holding the element-wise sums; nothing that existed before is
    written. *)
Theorem operator_add_elementwise (m1 m2 : Mat.t T) (h : heap T) :
  0 < Mat._n_rows m1 -> 0 < Mat._n_cols m1 ->
  Mat._n_rows m1 = Mat._n_rows m2 -> Mat._n_cols m1 = Mat._n_cols m2 ->
  readable m1 h -> readable m2 h ->
  total (Mat.operator_add m1 m2) h
    (built h (Mat._n_rows m1) (Mat._n_cols m1)
       (fun i j => s_add (elem m1 h i j) (elem m2 h i j))).
Proof.
  intros Hr Hc Er Ec Hread1 Hread2. unfold Mat.operator_add.
  destruct (Z.eqb_spec (Mat._n_rows m1) (Mat._n_rows m2)); [|contradiction].
  destruct (Z.eqb_spec (Mat._n_cols m1) (Mat._n_cols m2)); [|contradiction].
  cbn [negb orb]. apply (total_zip s_add); assumption.
Qed.

(** [m1 - m2], likewise, holds the element-wise differences. *)
Theorem operator_sub_elementwise {SB : Subtraction T} (m1 m2 : Mat.t T) (h : heap T) :
  0 < Mat._n_rows m1 -> 0 < Mat._n_cols m1 ->
  Mat._n_rows m1 = Mat._n_rows m2 -> Mat._n_cols m1 = Mat._n_cols m2 ->
  readable m1 h -> readable m2 h ->
  total (Mat.operator_sub m1 m2) h
    (built h (Mat._n_rows m1) (Mat._n_cols m1)
       (fun i j => s_sub (elem m1 h i j) (elem m2 h i j))).
Proof.
  intros Hr Hc Er Ec Hread1 Hread2. unfold Mat.operator_sub.
  destruct (Z.eqb_spec (Mat._n_rows m1) (Mat._n_rows m2)); [|contradiction].
  destruct (Z.eqb_spec (Mat._n_cols m1) (Mat._n_cols m2)); [|contradiction].
  cbn [negb orb]. apply (total_zip s_sub); assumption.
Qed.

(** Operands of different shapes make [+] and [-] throw
    [BadDimensionsError] before anything is allocated. *)
Theorem operator_add_sub_bad_dimensions {SB : Subtraction T}
    (m1 m2 : Mat.t T) (h : heap T) :
  Mat._n_rows m1 <> Mat._n_rows m2 \/ Mat._n_cols m1 <> Mat._n_cols m2 ->
  Mat.operator_add m1 m2 h = Throw BadDimensionsError /\
  Mat.operator_sub m1 m2 h = Throw BadDimensionsError.
Proof.
  intros Hne. unfold Mat.operator_add, Mat.operator_sub.
  destruct (Z.eqb_spec (Mat._n_rows m1) (Mat._n_rows m2)),
           (Z.eqb_spec (Mat._n_cols m1) (Mat._n_cols m2));
    cbn [negb orb]; try (split; reflexivity). lia.
Qed.

(** [-m1] is a fresh matrix holding the negated elements. *)
Theorem operator_neg_elementwise (m1 : Mat.t T) (h : heap T) :
  0 < Mat._n_rows m1 -> 0 < Mat._n_cols m1 -> readable m1 h ->
  total (Mat.operator_neg m1) h
    (built h (Mat._n_rows m1) (Mat._n_cols m1)
       (fun i j => s_neg (elem m1 h i j))).
Proof.
  intros Hr Hc Hread. unfold Mat.operator_neg, Mat.new.
  step_with total_allocate; [exact Hr | exact Hc |].
  intros m h1 [-> ->].
  set (blank := replicate (Z.to_nat (Mat._n_rows m1 * Mat._n_cols m1)) None).
  destruct (readable_after_allocate m1 h blank Hr Hc Hread) as [Hn1 Hc1].
  set (m := {| Mat._mat := length h; Mat._n_rows := Mat._n_rows m1 |}).
  eapply total_mono.
  - apply (grid_loop m (h ++ [blank]) (fun i j => s_neg (elem m1 h i j)) Mat._n_cols
           (fun i j result => x <- Mat.at_ m1 i j ;; Mat.set result i j (s_neg x)));
      [unfold m; cbn; lia | unfold m; cbn; lia | | | apply same_store_refl
      | apply updates_refl; apply allocated_fresh].
    + intros s (_ & _ & E). exact E.
    + intros i j Hij s h1 Hs1 Hu1.
      apply total_bind.
      eapply (total_at_other m m1 (h ++ [blank]) h1);
        [exact Hu1 | unfold m; cbn; lia | exact Hij | apply Hc1; exact Hij |].
      eapply total_mono.
      * eapply (set_updates m s (h ++ [blank]) h1);
          [exact Hs1 | exact Hu1 | exact Hij | reflexivity].
      * intros s' h' (Hs' & _ & Hu'). split; assumption.
  - intros s h' [Hs Hu].
    apply (built_fresh (Mat._n_rows m1) (Mat._n_cols m1) h s h' _ Hs Hu).
Qed.
End Operators.

Section Product.
Context {T : Type} {ST : Scalar T}.
Implicit Types (h : heap T) (m this : Mat.t T).

Lemma dot_sum_step (a b : Z -> T) (k : Z) :
  1 <= k ->
  dot_sum a b (k + 1) = s_add (dot_sum a b k) (s_mul (a k) (b k)).
Proof.
  intros Hk. unfold dot_sum.
  replace (k + 1 - 1) with ((k - 1) + 1) by lia.
  rewrite seqZ_app by lia. rewrite fold_left_app.
  replace (1 + (k - 1)) with k by lia. reflexivity.
Qed.

(** The accumulation loop of the product. *)
Lemma total_dot_loop (m1 m2 m : Mat.t T) h0 h (P : Z -> Z -> bool) (v : Z -> Z -> T)
    (a b : Z -> Z -> T) i j n :
  updates m h0 h P v ->
  Mat._mat m1 <> Mat._mat m -> Mat._mat m2 <> Mat._mat m ->
  1 <= n ->
  (forall k, 0 <= k < n -> in_range m1 i k /\ cell m1 h0 i k = Some (a i k)) ->
  (forall k, 0 <= k < n -> in_range m2 k j /\ cell m2 h0 k j = Some (b k j)) ->
  total (for_range 1 n
           (fun k dotRes =>
              x <- Mat.MatRow_at (Mat.MatRow_new (Mat.Plain m1) i) k ;;
              y <- Mat.MatCol_at (Mat.MatCol_new (Mat.Plain m2) j) k ;;
              ret (s_add dotRes (s_mul x y)))
           (s_mul (a i 0) (b 0 j))) h
    (fun dotRes h' =>
       h' = h /\ dotRes = dot_sum (fun k => a i k) (fun k => b k j) n).
Proof.
  intros Hu Hn1 Hn2 Hn H1 H2.
  apply (total_for_range _
    (fun k dotRes h' =>
       h' = h /\ dotRes = dot_sum (fun k => a i k) (fun k => b k j) k));
    [exact Hn | |].
  - intros k acc h1 Hk [-> ->].
    destruct (H1 k) as [Hr1 Hc1]; [lia|]. destruct (H2 k) as [Hr2 Hc2]; [lia|].
    apply total_bind. cbn [Mat.MatRow_at Mat.MatRow_new Mat._matrix Mat._row Mat.vat].
    eapply (total_at_other m m1 h0 h);
      [exact Hu | exact Hn1 | exact Hr1 | exact Hc1 |].
    apply total_bind. cbn [Mat.MatCol_at Mat.MatCol_new Mat.col_matrix Mat._col Mat.vat].
    eapply (total_at_other m m2 h0 h);
      [exact Hu | exact Hn2 | exact Hr2 | exact Hc2 |].
    apply total_ret. split; [reflexivity|].
    rewrite (dot_sum_step (fun k => a i k) (fun k => b k j) k) by lia. reflexivity.
  - split; reflexivity.
Qed.

(** [m1 * m2] on readable operands with [cols m1 <= rows m2] returns a
    fresh [rows m1] by [cols m2] matrix whose element [(i, j)] is the sum
    of the first [cols m1] products along row [i] and column [j].  A
    mismatch of the inner dimensions is only recorded in [errno]: the
    product is still computed and returned. *)
Theorem operator_mul_dot_products (m1 m2 : Mat.t T) (h : heap T) :
  0 < Mat._n_rows m1 -> 0 < Mat._n_cols m1 ->
  Mat._n_cols m1 <= Mat._n_rows m2 -> 0 < Mat._n_cols m2 ->
  readable m1 h -> readable m2 h ->
  total (Mat.operator_mul m1 m2) h
    (fun r h' =>
       r.1 = (if Mat._n_cols m1 =? Mat._n_rows m2 then None
              else Some ORCA_BAD_DIMENSIONS) /\
       built h (Mat._n_rows m1) (Mat._n_cols m2)
         (fun i j => dot_sum (fun k => elem m1 h i k) (fun k => elem m2 h k j)
                       (Mat._n_cols m1))
         r.2 h').
Proof.
  intros Hr Hc Hle Hc2 Hread1 Hread2. unfold Mat.operator_mul, Mat.new.
  destruct (Z.eqb_spec (Mat._n_rows m1) 0); [lia|].
  destruct (Z.eqb_spec (Mat._n_cols m1) 0); [lia|].
  destruct (Z.eqb_spec (Mat._n_rows m2) 0); [lia|].
  destruct (Z.eqb_spec (Mat._n_cols m2) 0); [lia|].
  cbn [orb].
  step_with total_allocate; [exact Hr | exact Hc2 |].
  intros m h1 [-> ->].
  set (blank := replicate (Z.to_nat (Mat._n_rows m1 * Mat._n_cols m2)) None).
  destruct (readable_after_allocate m1 h blank Hr Hc Hread1) as [Hn1 Hc1].
  destruct (readable_after_allocate m2 h blank) as [Hn2 Hc2'];
    [lia | lia | exact Hread2 |].
  set (m := {| Mat._mat := length h; Mat._n_rows := Mat._n_rows m1 |}).
  set (v := fun i j => dot_sum (fun k => elem m1 h i k) (fun k => elem m2 h k j)
                         (Mat._n_cols m1)).
  apply total_bind. eapply total_mono.
  - apply (grid_loop m (h ++ [blank]) v (fun _ => Mat._n_cols m2)
       (fun i j result =>
          v1 <- lift (Mat.getRow (Mat.Plain m1) i) ;;
          v2 <- lift (Mat.getCol (Mat.Plain m2) j) ;;
          a <- Mat.MatRow_at v1 0 ;;
          b <- Mat.MatCol_at v2 0 ;;
          dotRes <- for_range 1 (Mat.row_n_elems v1)
            (fun k dotRes =>
               a <- Mat.MatRow_at v1 k ;;
               b <- Mat.MatCol_at v2 k ;;
               ret (s_add dotRes (s_mul a b))) (s_mul a b) ;;
          Mat.set result i j dotRes));
      [unfold m; cbn; lia | unfold m; cbn; lia | | | apply same_store_refl
      | apply updates_refl; apply allocated_fresh].
    + intros s _. reflexivity.
    + intros i j Hij s h1 Hs1 Hu1.
      assert (Hi : 0 <= i < Mat._n_rows m1) by (destruct Hij as [Hi _]; exact Hi).
      assert (Hj : 0 <= j < Mat._n_cols m2) by (destruct Hij as [_ Hj]; exact Hj).
      apply total_bind. eapply total_lift.
      { unfold Mat.getRow. cbn [Mat.rows].
        destruct (Z.ltb_spec (Mat._n_rows m1) i); [lia|].
        destruct (Z.ltb_spec i 0); [lia|]. reflexivity. }
      apply total_bind. eapply total_lift.
      { unfold Mat.getCol. cbn [Mat.cols].
        destruct (Z.ltb_spec (Mat._n_cols m2) j); [lia|].
        destruct (Z.ltb_spec j 0); [lia|]. reflexivity. }
      apply total_bind.
      cbn [Mat.MatRow_at Mat.MatRow_new Mat._matrix Mat._row Mat.vat].
      eapply (total_at_other m m1 (h ++ [blank]) h1);
        [exact Hu1 | unfold m; cbn; lia | split; lia | apply Hc1; split; lia |].
      apply total_bind.
      cbn [Mat.MatCol_at Mat.MatCol_new Mat.col_matrix Mat._col Mat.vat].
      eapply (total_at_other m m2 (h ++ [blank]) h1);
        [exact Hu1 | unfold m; cbn; lia | split; lia | apply Hc2'; split; lia |].
      apply total_bind. cbn [Mat.row_n_elems Mat.cols].
      eapply total_mono.
      * eapply (total_dot_loop m1 m2 m (h ++ [blank]) h1 (before i j) v
                 (elem m1 h) (elem m2 h) i j (Mat._n_cols m1));
          [exact Hu1 | unfold m; cbn; lia | unfold m; cbn; lia | lia | |].
        -- intros k Hk. split; [split; lia | apply Hc1; split; lia].
        -- intros k Hk. split; [split; lia | apply Hc2'; split; lia].
      * intros dotRes h2 [-> ->]. eapply total_mono.
        -- eapply (set_updates m s (h ++ [blank]) h1);
             [exact Hs1 | exact Hu1 | exact Hij | reflexivity].
        -- intros s' h' (Hs' & _ & Hu'). split; assumption.
  - intros s h' [Hs Hu]. apply total_ret. cbn [fst snd]. split.
    + destruct (Z.eqb_spec (Mat._n_cols m1) (Mat._n_rows m2)); reflexivity.
    + apply (built_fresh (Mat._n_rows m1) (Mat._n_cols m2) h s h' _ Hs Hu).
Qed.
End Product.

(** ** Operations in place *)

Section InPlace.
Context {T : Type} {ST : Scalar T}.
Implicit Types (h : heap T) (m this : Mat.t T).

Lemma before_self i j : before i j i j = false.
Proof.
  unfold before. rewrite Z.ltb_irrefl, Z.ltb_irrefl, andb_false_r. reflexivity.
Qed.

(** [m * t2] takes its matrix by value; the parameter is a shallow copy, so
    the loop multiplies every element of the caller's buffer in place, and
    the matrix returned addresses that same buffer.  No other buffer
    changes, and the caller's object keeps its cache flags: a determinant
    cached before the product is still what [det()] returns after it. *)
Theorem operator_scale_in_place (m : Mat.t T) (t2 : T) (h : heap T) :
  0 < Mat._n_rows m -> 0 < Mat._n_cols m ->
  allocated m h -> readable m h ->
  total (Mat.operator_scale m t2) h
    (fun r h' =>
       same_store m r /\
       updates m h h' (fun _ _ => true) (fun i j => s_mul (elem m h i j) t2) /\
       forall d, det_valid m = true -> Mat._det m = Some d ->
                 det_value m h' = Ret d).
Proof.
  intros Hr Hc Ha Hread. unfold Mat.operator_scale.
  eapply total_mono.
  - apply (grid_loop m h (fun i j => s_mul (elem m h i j) t2) Mat._n_cols
             (fun i j m1 => x <- Mat.at_ m1 i j ;; Mat.set m1 i j (s_mul x t2)));
      [lia | lia | | | apply same_store_refl | apply updates_refl; exact Ha].
    + intros s (_ & _ & E). exact E.
    + intros i j Hij s h1 Hs1 Hu1. apply total_bind.
      eapply (total_at_untouched m s h h1);
        [exact Hs1 | exact Hu1 | exact Hij | apply before_self
        | apply readable_elem; [exact Hread | exact Hij] |].
      eapply total_mono.
      * eapply (set_updates m s h h1);
          [exact Hs1 | exact Hu1 | exact Hij | reflexivity].
      * intros s' h' (Hs' & _ & Hu'). split; assumption.
  - intros s h' [Hs Hu]. split; [exact Hs|]. split; [exact Hu|].
    intros d Hv Hd. unfold det_value, Mat.det, bind. unfold det_valid in Hv.
    rewrite Hv, Hd. reflexivity.
Qed.

(** [rowMutliply(r1, t1)] multiplies the elements of row [r1] by [t1] from
    the left, in place; the other rows and buffers are not written. *)
Theorem rowMutliply_scales_row (m : Mat.t T) (r1 : Z) (t1 : T) (h : heap T) :
  0 <= r1 < Mat._n_rows m -> 0 < Mat._n_cols m ->
  allocated m h -> readable m h ->
  total (Mat.rowMutliply m r1 t1) h
    (fun m' h' =>
       same_store m m' /\
       updates m h h' (fun i _ => i =? r1) (fun i j => s_mul t1 (elem m h i j))).
Proof.
  intros Hr Hc Ha Hread. unfold Mat.rowMutliply.
  eapply total_mono.
  - apply (row_loop m h (fun _ _ => false) (fun i j => s_mul t1 (elem m h i j)) r1
             (fun i this => x <- Mat.at_ this r1 i ;; Mat.set this r1 i (s_mul t1 x)));
      [exact Hr | lia | | apply same_store_refl | apply updates_refl; exact Ha].
    intros j Hj s h1 Hs1 Hu1. apply total_bind.
    eapply (total_at_untouched m s h h1);
      [exact Hs1 | exact Hu1 | split; lia
      | cbn; rewrite Z.ltb_irrefl, andb_false_r; reflexivity
      | apply readable_elem; [exact Hread | split; lia] |].
    eapply total_mono.
    + eapply (set_updates m s h h1);
        [exact Hs1 | exact Hu1 | split; lia | reflexivity].
    + intros s' h' (Hs' & _ & Hu'). split; assumption.
  - intros s h' [Hs Hu]. split; [exact Hs|]. exact Hu.
Qed.

(** [rowAdd(r1, r2, multiply)] adds [multiply] times row [r2] to row [r1],
    in place, also when the two rows are the same; the other rows and
    buffers are not written. *)
Theorem rowAdd_adds_multiple (m : Mat.t T) (r1 r2 : Z) (multiply : T) (h : heap T) :
  0 <= r1 < Mat._n_rows m -> 0 <= r2 < Mat._n_rows m -> 0 < Mat._n_cols m ->
  allocated m h -> readable m h ->
  total (Mat.rowAdd m r1 r2 multiply) h
    (fun m' h' =>
       same_store m m' /\
       updates m h h' (fun i _ => i =? r1)
         (fun i j => s_add (elem m h i j) (s_mul multiply (elem m h r2 j)))).
Proof.
  intros Hr1 Hr2 Hc Ha Hread. unfold Mat.rowAdd.
  eapply total_mono.
  - apply (row_loop m h (fun _ _ => false)
             (fun i j => s_add (elem m h i j) (s_mul multiply (elem m h r2 j))) r1
             (fun i this =>
                x <- Mat.at_ this r1 i ;;
                y <- Mat.at_ this r2 i ;;
                Mat.set this r1 i (s_add x (s_mul multiply y))));
      [exact Hr1 | lia | | apply same_store_refl | apply updates_refl; exact Ha].
    intros j Hj s h1 Hs1 Hu1. apply total_bind.
    eapply (total_at_untouched m s h h1);
      [exact Hs1 | exact Hu1 | split; lia
      | cbn; rewrite Z.ltb_irrefl, andb_false_r; reflexivity
      | apply readable_elem; [exact Hread | split; lia] |].
    apply total_bind.
    eapply (total_at_untouched m s h h1);
      [exact Hs1 | exact Hu1 | split; lia
      | cbn; rewrite Z.ltb_irrefl, andb_false_r; reflexivity
      | apply readable_elem; [exact Hread | split; lia] |].
    eapply total_mono.
    + eapply (set_updates m s h h1);
        [exact Hs1 | exact Hu1 | split; lia | reflexivity].
    + intros s' h' (Hs' & _ & Hu'). split; assumption.
  - intros s h' [Hs Hu]. split; [exact Hs|]. exact Hu.
Qed.
End InPlace.

(** ** Vectors *)

Section Vectors.
Context {T : Type} {ST : Scalar T}.
Implicit Types (h : heap T) (m this : Mat.t T) (v : Vec.t).

Lemma vec_address_as_mat v i :
  Vec._address v i = Mat._address (as_mat (T:=T) v) 0 i.
Proof.
  unfold Vec._address, Mat._address, Vec.length. cbn [as_mat Mat._n_rows Mat._n_cols Mat._mat].
  rewrite Z.add_0_r.
  destruct (Z.ltb_spec i 0), (Z.ltb_spec (Vec._n_elems v) i); reflexivity.
Qed.

Lemma vec_at_as_mat v i h : Vec.at_ v i h = Mat.at_ (as_mat v) 0 i h.
Proof. unfold Vec.at_, Mat.at_. rewrite vec_address_as_mat. reflexivity. Qed.

Lemma same_vec_store v v' : same_vec v v' -> same_store (as_mat (T:=T) v) (as_mat v').
Proof. intros [E1 E2]. repeat split; cbn; congruence. Qed.

Lemma same_vec_refl v : same_vec v v.
Proof. split; reflexivity. Qed.

(** A write into a vector, seen on its one-row matrix. *)
Lemma vec_set_updates mv v h0 h (P : Z -> Z -> bool) (val : Z -> Z -> T) i x :
  same_store mv (as_mat v) -> updates mv h0 h P val ->
  0 <= i < Mat._n_cols mv -> Mat._n_rows mv = 1 -> x = val 0 i ->
  total (Vec.set v i x) h
    (fun v' h' =>
       same_vec v v' /\
       updates mv h0 h' (fun i' j' => P i' j' || ((i' =? 0) && (j' =? i))) val).
Proof.
  intros Hs Hu Hi Hr Hx.
  pose proof (set_updates mv (as_mat v) h0 h P val 0 i x Hs Hu) as Hset.
  specialize (Hset ltac:(split; lia) Hx).
  unfold total in *. unfold Vec.set. unfold Mat.set in Hset.
  rewrite vec_address_as_mat. unfold bind in *.
  destruct (lift (Mat._address (as_mat v) 0 i) h) as [[p h1]| | |]; try contradiction.
  destruct (store p x h1) as [[u h2]| | |]; try contradiction.
  cbn [ret] in *. destruct Hset as (_ & _ & Hu'). split; [split; reflexivity|exact Hu'].
Qed.

Lemma total_vec_at mv v h i x (Q : T -> heap T -> Prop) :
  same_store mv (as_mat v) -> 0 <= i < Mat._n_cols mv -> Mat._n_rows mv = 1 ->
  cell mv h 0 i = Some x ->
  Q x h -> total (Vec.at_ v i) h Q.
Proof.
  intros Hs Hi Hr Hc HQ. unfold total. rewrite vec_at_as_mat.
  apply (total_at mv (as_mat v) h 0 i x Q Hs); [split; lia | exact Hc | exact HQ].
Qed.

Lemma total_vec_allocate n h :
  0 <= n ->
  total (@Vec._allocate T n) h
    (fun v h' =>
       v = {| Vec._mat := length h; Vec._n_rows := 1; Vec._n_cols := n;
              Vec._n_elems := n; Vec._stickyComputeMask := None |} /\
       h' = h ++ [replicate (Z.to_nat n) None]).
Proof.
  intros Hn. unfold Vec._allocate. destruct (Z.ltb_spec n 0); [lia|].
  cbn. split; reflexivity.
Qed.

Lemma allocated_fresh_vec n h :
  allocated
    {| Mat._mat := length h; Mat._n_rows := 1; Mat._n_cols := n;
       Mat._stickyComputeMask := 0; Mat._det := None; Mat._inv := None |}
    (h ++ [replicate (Z.to_nat n) (@None T)]).
Proof.
  eexists. cbn. split.
  - rewrite lookup_app_r by lia. rewrite Nat.sub_diag. reflexivity.
  - rewrite length_replicate. destruct n; reflexivity.
Qed.

Lemma allocated_other m h h' :
  h' !! Mat._mat m = h !! Mat._mat m -> allocated m h -> allocated m h'.
Proof. intros E (buf & Hb & Hl). exists buf. rewrite E. split; assumption. Qed.
End Vectors.

Section RowSwap.
Context {T : Type} {ST : Scalar T}.
Implicit Types (h : heap T) (m this : Mat.t T) (v : Vec.t).

(** Loading a sequence of reads into a fresh vector. *)
Lemma total_vec_load mv v0 h1 (val : Z -> T) (rd : Z -> M T T) :
  same_store mv (as_mat v0) -> Mat._n_rows mv = 1 -> 0 <= Mat._n_cols mv ->
  allocated mv h1 ->
  (forall i h' P w, 0 <= i < Mat._n_cols mv -> updates mv h1 h' P w ->
     rd i h' = Ret (val i, h')) ->
  total (for_range 0 (Mat._n_cols mv)
           (fun i v => x <- rd i ;; Vec.set v i x) v0) h1
    (fun v h' =>
       same_vec v0 v /\ updates mv h1 h' (fun _ _ => true) (fun _ j => val j)).
Proof.
  intros Hs Hr Hc Ha Hrd.
  eapply total_mono.
  - apply (total_for_range _
      (fun b v h' =>
         same_vec v0 v /\
         updates mv h1 h' (fun _ j' => j' <? b) (fun _ j => val j)));
      [exact Hc | |].
    + intros i v h' Hi [Hv Hu]. apply total_bind.
      eapply total_eq; [eapply Hrd; [exact Hi | exact Hu]|].
      eapply total_mono.
      * eapply (vec_set_updates mv v h1 h');
          [ | exact Hu | exact Hi | exact Hr | reflexivity].
        eapply same_store_trans; [exact Hs | apply same_vec_store; exact Hv].
      * intros v' h2 [Hv' Hu']. split.
        -- destruct Hv as [E1 E2], Hv' as [E3 E4]. split; congruence.
        -- eapply updates_ext; [|exact Hu']. intros i' j' [Hi' Hj']. cbv beta.
           destruct (Z.ltb_spec j' i), (Z.eqb_spec i' 0), (Z.eqb_spec j' i),
             (Z.ltb_spec j' (i + 1)); cbn; try reflexivity; lia.
    + split; [apply same_vec_refl|].
      eapply updates_ext; [|apply updates_refl; exact Ha].
      intros i' j' [_ Hj']. cbv beta. destruct (Z.ltb_spec j' 0); [lia|reflexivity].
  - intros v h' [Hv Hu]. split; [exact Hv|].
    eapply updates_ext; [|exact Hu]. intros i' j' [_ Hj']. cbv beta.
    destruct (Z.ltb_spec j' (Mat._n_cols mv)); [reflexivity|lia].
Qed.

(** [rowSwap(r1, r2)] exchanges rows [r1] and [r2] in place (and leaves
    the matrix as it is when they are the same row).  It allocates one
    temporary vector; every buffer that existed other than the matrix's
    own is unchanged. *)
Theorem rowSwap_exchanges_rows (m : Mat.t T) (r1 r2 : Z) (h : heap T) :
  0 <= r1 < Mat._n_rows m -> 0 <= r2 < Mat._n_rows m -> 0 < Mat._n_cols m ->
  allocated m h -> readable m h ->
  total (Mat.rowSwap m r1 r2) h
    (fun m' h' =>
       same_store m m' /\
       length h' = S (length h) /\
       (forall l, (l < length h)%nat -> l <> Mat._mat m -> h' !! l = h !! l) /\
       allocated m h' /\
       forall i j, in_range m i j ->
         cell m h' i j =
           Some (if i =? r2 then elem m h r1 j
                 else if i =? r1 then elem m h r2 j
                 else elem m h i j)).
Proof.
  intros Hr1 Hr2 Hc Ha Hread. unfold Mat.rowSwap.
  assert (Hlt : (Mat._mat m < length h)%nat).
  { destruct Ha as (buf & Hb & _). eapply lookup_lt_Some. exact Hb. }
  apply total_bind. eapply total_lift.
  { unfold Mat.getRow. cbn [Mat.rows].
    destruct (Z.ltb_spec (Mat._n_rows m) r1); [lia|].
    destruct (Z.ltb_spec r1 0); [lia|]. reflexivity. }
  unfold Vec.new. step_with total_vec_allocate; [lia|].
  intros v0 h1 [-> ->].
  set (blank := replicate (Z.to_nat (Mat._n_cols m)) None).
  set (v0 := {| Vec._mat := length h; Vec._n_rows := 1 |}).
  set (mv := as_mat (T:=T) v0).
  set (h1 := h ++ [blank]).
  assert (Hcell1 : forall i j, cell m h1 i j = cell m h i j).
  { intros i j. apply cell_other. apply lookup_app_l. exact Hlt. }
  assert (Ha1 : allocated m h1).
  { eapply allocated_other; [|exact Ha]. apply lookup_app_l. exact Hlt. }
  assert (Hne : Mat._mat m <> Mat._mat mv) by (unfold mv, v0; cbn; lia).
  (* loading row r1 into the temporary *)
  apply total_bind. eapply total_mono.
  { apply (total_vec_load mv v0 h1 (fun j => elem m h r1 j)
             (fun i => Mat.MatRow_at (Mat.MatRow_new (Mat.Plain m) r1) i)).
    - apply same_store_refl.
    - reflexivity.
    - unfold mv, v0; cbn; lia.
    - apply allocated_fresh_vec.
    - intros i h' P w Hi Hu.
      cbn [Mat.MatRow_at Mat.MatRow_new Mat._matrix Mat._row Mat.vat].
      pose proof (total_at_other mv m h1 h' P w r1 i (elem m h r1 i)
                    (fun x hx => x = elem m h r1 i /\ hx = h') Hu Hne) as Ht.
      unfold total in Ht.
      destruct (Mat.at_ m r1 i h') as [[x hx]| | |];
        try (exfalso; apply Ht;
             [split; [lia | unfold mv, v0 in Hi; cbn in Hi; lia]
             | rewrite Hcell1; apply readable_elem;
               [exact Hread | split; [lia | unfold mv, v0 in Hi; cbn in Hi; lia]]
             | split; reflexivity]).
      destruct Ht as [-> ->];
        [split; [lia | unfold mv, v0 in Hi; cbn in Hi; lia]
        | rewrite Hcell1; apply readable_elem;
          [exact Hread | split; [lia | unfold mv, v0 in Hi; cbn in Hi; lia]]
        | split; reflexivity |].
      reflexivity. }
  intros v h2 [Hv Hu2].
  assert (Hcell2 : forall i j, cell m h2 i j = cell m h i j).
  { intros i j. rewrite <- Hcell1. apply cell_other. apply Hu2. exact Hne. }
  assert (Ha2 : allocated m h2).
  { eapply allocated_other; [|exact Ha1]. apply Hu2. exact Hne. }
  assert (Hvec2 : forall j, 0 <= j < Mat._n_cols m ->
            cell mv h2 0 j = Some (elem m h r1 j)).
  { intros j Hj. destruct Hu2 as (_ & _ & _ & Hcv).
    apply (Hcv 0 j). unfold mv, v0, in_range; cbn; lia. }
  assert (Hlen2 : length h2 = S (length h)).
  { destruct Hu2 as (Hl & _). rewrite Hl. unfold h1. rewrite length_app. cbn. lia. }
  assert (Hold2 : forall l, (l < length h)%nat -> h2 !! l = h !! l).
  { intros l Hl. destruct Hu2 as (_ & Ho & _).
    rewrite Ho by (unfold mv, v0; cbn; lia). apply lookup_app_l. exact Hl. }
  (* row r2 over row r1 *)
  apply total_bind. eapply total_mono.
  { apply (row_loop m h2 (fun _ _ => false) (fun i j => elem m h r2 j) r1
             (fun i this => x <- Mat.at_ this r2 i ;; Mat.set this r1 i x));
      [exact Hr1 | lia | | apply same_store_refl | apply updates_refl; exact Ha2].
    intros j Hj s hx Hs Hu. apply total_bind.
    eapply (total_at_untouched m s h2 hx);
      [exact Hs | exact Hu | split; lia
      | cbn; rewrite Z.ltb_irrefl, andb_false_r; reflexivity
      | rewrite Hcell2; apply readable_elem; [exact Hread | split; lia] |].
    eapply total_mono.
    - eapply (set_updates m s h2 hx);
        [exact Hs | exact Hu | split; lia | reflexivity].
    - intros s' h' (Hs' & _ & Hu'). split; assumption. }
  intros s3 h3 [Hs3 Hu3].
  (* the temporary over row r2 *)
  unfold Mat.setRow, Vec.length.
  destruct Hv as [Ev1 Ev2].
  assert (En : Vec._n_elems v = Mat._n_cols s3).
  { rewrite Ev2. destruct Hs3 as (_ & _ & ->). reflexivity. }
  rewrite En, Z.eqb_refl. cbn [negb].
  assert (Ec3 : Mat._n_cols s3 = Mat._n_cols m) by apply Hs3.
  rewrite Ec3.
  set (final := fun i j => if i =? r2 then elem m h r1 j
                           else if i =? r1 then elem m h r2 j else elem m h i j).
  assert (Hu3' : updates m h2 h3 (fun i _ => i =? r1)
                   (fun i j => if i =? r2 then elem m h r1 j else elem m h r2 j)).
  { eapply updates_values; [|eapply updates_ext; [|exact Hu3]].
    - intros i j _ Hi. cbv beta in *. apply Z.eqb_eq in Hi. subst i.
      destruct (Z.eqb_spec r1 r2); [subst; reflexivity | reflexivity].
    - intros i j _. reflexivity. }
  eapply total_mono.
  { apply (row_loop m h2 (fun i _ => i =? r1)
             (fun i j => if i =? r2 then elem m h r1 j else elem m h r2 j) r2
             (fun i this => x <- Vec.at_ v i ;; Mat.set this r2 i x));
      [exact Hr2 | lia | | exact Hs3 | exact Hu3'].
    intros j Hj s hx Hs Hu. apply total_bind.
    eapply (total_vec_at mv v hx j (elem m h r1 j)).
    - repeat split; cbn; [exact Ev1 | rewrite Ev2; reflexivity].
    - unfold mv, v0; cbn; lia.
    - reflexivity.
    - rewrite (cell_other mv h2 hx); [apply Hvec2; exact Hj|].
      apply Hu. unfold mv, v0; cbn; lia.
    - eapply total_mono.
      + eapply (set_updates m s h2 hx);
          [exact Hs | exact Hu | split; lia |].
        cbv beta. rewrite Z.eqb_refl. reflexivity.
      + intros s' h' (Hs' & _ & Hu'). split; assumption. }
  intros s4 h4 [Hs4 Hu4]. split; [exact Hs4|].
  destruct Hu4 as (Hl4 & Ho4 & Ha4 & Hc4).
  split; [congruence|]. split.
  { intros l Hl Hnl. rewrite Ho4 by exact Hnl. apply Hold2. exact Hl. }
  split; [exact Ha4|].
  intros i j Hij. rewrite (Hc4 i j Hij). cbv beta.
  destruct (Z.eqb_spec i r1), (Z.eqb_spec i r2); cbn [orb]; try reflexivity.
  rewrite Hcell2. apply readable_elem; [exact Hread | exact Hij].
Qed.
End RowSwap.

Section VectorTheorems.
Context {T : Type} {ST : Scalar T}.
Implicit Types (h : heap T) (m this : Mat.t T) (v : Vec.t).

Lemma cell_as_mat v h k : cell (as_mat (T:=T) v) h 0 k = vcell v h k.
Proof. unfold cell, vcell. cbn. rewrite Z.add_0_r. reflexivity. Qed.

Lemma vec_readable_elem v h k :
  vec_readable v h -> 0 <= k < Vec.length v -> vcell v h k = Some (vec_elem v h k).
Proof.
  intros Hr Hk. destruct (Hr k Hk) as [x Hx]. unfold vec_elem. rewrite Hx. reflexivity.
Qed.

Lemma vec_at_readable v h k :
  vec_readable v h -> 0 <= k < Vec.length v ->
  Vec.at_ v k h = Ret (vec_elem v h k, h).
Proof.
  intros Hr Hk. rewrite vec_at_as_mat.
  apply at_cell; [cbn; lia | cbn; unfold Vec.length in Hk; lia|].
  rewrite cell_as_mat. apply vec_readable_elem; assumption.
Qed.

(** A sweep down one column. *)
Lemma col_loop m h0 (P0 : Z -> Z -> bool) (v : Z -> Z -> T) c
    (cellM : Z -> Mat.t T -> M T (Mat.t T)) :
  0 <= c < Mat._n_cols m -> 0 <= Mat._n_rows m ->
  (forall i, 0 <= i < Mat._n_rows m ->
     writes_cell m h0 (fun i' j' => P0 i' j' || ((j' =? c) && (i' <? i))) v i c
       (cellM i)) ->
  forall this h,
    same_store m this -> updates m h0 h P0 v ->
    total (for_range 0 (Mat._n_rows m) cellM this) h
      (fun this' h' =>
         same_store m this' /\
         updates m h0 h' (fun i' j' => P0 i' j' || (j' =? c)) v).
Proof.
  intros Hc Hr Hbody this h Hs Hu.
  eapply total_mono.
  - apply (total_for_range cellM
      (fun b this' h' =>
         same_store m this' /\
         updates m h0 h' (fun i' j' => P0 i' j' || ((j' =? c) && (i' <? b))) v));
      [exact Hr | |].
    + intros i s h1 Hi [Hs1 Hu1]. eapply total_mono; [apply Hbody; eassumption|].
      intros s' h' [Hs' Hu']. split; [exact Hs'|].
      eapply updates_ext; [|exact Hu']. intros i' j' _. cbv beta.
      destruct (P0 i' j'); cbn [orb]; [reflexivity|].
      destruct (Z.eqb_spec j' c); cbn [andb];
        [|rewrite andb_false_r; reflexivity].
      destruct (Z.ltb_spec i' i), (Z.eqb_spec i' i), (Z.ltb_spec i' (i + 1));
        cbn; try reflexivity; lia.
    + split; [exact Hs|]. eapply updates_ext; [|exact Hu].
      intros i' j' [Hi' _]. cbv beta.
      destruct (Z.ltb_spec i' 0); [lia|]. rewrite andb_false_r, orb_false_r.
      reflexivity.
  - intros s' h' [Hs' Hu']. split; [exact Hs'|].
    eapply updates_ext; [|exact Hu']. intros i' j' [Hi' _]. cbv beta.
    destruct (Z.ltb_spec i' (Mat._n_rows m)); [|lia].
    rewrite andb_true_r. reflexivity.
Qed.

Lemma total_vec_at_other m v h0 h (P : Z -> Z -> bool) (w : Z -> Z -> T) k
    (Q : T -> heap T -> Prop) :
  updates m h0 h P w -> Vec._mat v <> Mat._mat m ->
  vec_readable v h0 -> 0 <= k < Vec.length v ->
  Q (vec_elem v h0 k) h -> total (Vec.at_ v k) h Q.
Proof.
  intros Hu Hne Hr Hk HQ.
  apply (total_vec_at (as_mat v) v h k (vec_elem v h0 k));
    [apply same_store_refl | exact Hk | reflexivity | | exact HQ].
  rewrite (cell_other (as_mat v) h0 h) by (apply Hu; exact Hne).
  rewrite cell_as_mat. apply vec_readable_elem; assumption.
Qed.

(** [setRow(row, _vec)] throws [BadDimensionsError] unless the vector has
    as many elements as the matrix has columns; otherwise it overwrites
    row [row] with the elements of the vector and writes nothing else. *)
Theorem setRow_overwrites_row (m : Mat.t T) (row : Z) (vec : Vec.t) (h : heap T) :
  (Vec.length vec <> Mat._n_cols m ->
   Mat.setRow m row vec h = Throw BadDimensionsError) /\
  (Vec.length vec = Mat._n_cols m ->
   0 <= row < Mat._n_rows m -> 0 < Mat._n_cols m ->
   allocated m h -> vec_readable vec h -> Vec._mat vec <> Mat._mat m ->
   total (Mat.setRow m row vec) h
     (fun m' h' =>
        same_store m m' /\
        updates m h h' (fun i _ => i =? row) (fun _ j => vec_elem vec h j))).
Proof.
  unfold Mat.setRow. split.
  - intros Hne. destruct (Z.eqb_spec (Vec.length vec) (Mat._n_cols m)); [contradiction|].
    reflexivity.
  - intros He Hrow Hc Ha Hread Hn. rewrite He, Z.eqb_refl. cbn [negb].
    eapply total_mono.
    + apply (row_loop m h (fun _ _ => false) (fun _ j => vec_elem vec h j) row
               (fun i this => x <- Vec.at_ vec i ;; Mat.set this row i x));
        [exact Hrow | lia | | apply same_store_refl | apply updates_refl; exact Ha].
      intros j Hj s h1 Hs1 Hu1. apply total_bind.
      eapply (total_vec_at_other m vec h h1);
        [exact Hu1 | exact Hn | exact Hread | lia |].
      eapply total_mono.
      * eapply (set_updates m s h h1);
          [exact Hs1 | exact Hu1 | split; lia | reflexivity].
      * intros s' h' (Hs' & _ & Hu'). split; assumption.
    + intros s h' [Hs Hu]. split; assumption.
Qed.

(** [setCol(col, _vec)] throws [BadDimensionsError] unless the vector has
    as many elements as the matrix has rows; otherwise it overwrites
    column [col] with the elements of the vector and writes nothing
    else. *)
Theorem setCol_overwrites_column (m : Mat.t T) (col : Z) (vec : Vec.t) (h : heap T) :
  (Vec.length vec <> Mat._n_rows m ->
   Mat.setCol m col vec h = Throw BadDimensionsError) /\
  (Vec.length vec = Mat._n_rows m ->
   0 <= col < Mat._n_cols m -> 0 < Mat._n_rows m ->
   allocated m h -> vec_readable vec h -> Vec._mat vec <> Mat._mat m ->
   total (Mat.setCol m col vec) h
     (fun m' h' =>
        same_store m m' /\
        updates m h h' (fun _ j => j =? col) (fun i _ => vec_elem vec h i))).
Proof.
  unfold Mat.setCol. split.
  - intros Hne. destruct (Z.eqb_spec (Vec.length vec) (Mat._n_rows m)); [contradiction|].
    reflexivity.
  - intros He Hcol Hr Ha Hread Hn. rewrite He, Z.eqb_refl. cbn [negb].
    eapply total_mono.
    + apply (col_loop m h (fun _ _ => false) (fun i _ => vec_elem vec h i) col
               (fun i this => x <- Vec.at_ vec i ;; Mat.set this i col x));
        [exact Hcol | lia | | apply same_store_refl | apply updates_refl; exact Ha].
      intros i Hi s h1 Hs1 Hu1. apply total_bind.
      eapply (total_vec_at_other m vec h h1);
        [exact Hu1 | exact Hn | exact Hread | lia |].
      eapply total_mono.
      * eapply (set_updates m s h h1);
          [exact Hs1 | exact Hu1 | split; lia | reflexivity].
      * intros s' h' (Hs' & _ & Hu'). split; assumption.
    + intros s h' [Hs Hu]. split; assumption.
Qed.

(** What a loaded fresh vector is. *)
Lemma vec_built_fresh n h v h' (val : Z -> T) :
  0 <= n ->
  let v0 := {| Vec._mat := length h; Vec._n_rows := 1; Vec._n_cols := n;
               Vec._n_elems := n; Vec._stickyComputeMask := None |} in
  same_vec v0 v ->
  updates (as_mat v0) (h ++ [replicate (Z.to_nat n) None]) h'
    (fun _ _ => true) (fun _ j => val j) ->
  vec_built h n val v h'.
Proof.
  intros Hn v0 [E1 E2] Hu.
  destruct (updates_fresh (as_mat v0) h h' _ _ _ eq_refl Hu) as [Hf Hl].
  split; [exact E1|]. split; [exact Hl|]. split; [exact Hf|].
  split; [unfold Vec.length; rewrite E2; reflexivity|].
  intros k Hk. rewrite vec_at_as_mat.
  rewrite (at_same_store (as_mat v0) (as_mat v))
    by (apply same_vec_store; split; assumption).
  apply at_cell; [cbn; lia | cbn; lia|].
  destruct Hu as (_ & _ & _ & Hc). apply (Hc 0 k). split; cbn; lia.
Qed.

(** [diag()] returns a fresh vector of [min(rows, cols)] elements holding
    the main diagonal; the matrix is not written. *)
Theorem diag_reads_main_diagonal (m : Mat.t T) (h : heap T) :
  0 < Mat._n_rows m -> 0 < Mat._n_cols m -> readable m h ->
  total (Mat.diag m) h
    (vec_built h (Z.min (Mat._n_rows m) (Mat._n_cols m)) (fun k => elem m h k k)).
Proof.
  intros Hr Hc Hread. unfold Mat.diag, Vec.new.
  set (n := Z.min (Mat._n_rows m) (Mat._n_cols m)).
  step_with total_vec_allocate; [lia|].
  intros v0 h1 [-> ->]. unfold Vec.length. cbn [Vec._n_elems].
  set (v0 := {| Vec._mat := length h; Vec._n_rows := 1 |}).
  pose proof (readable_lt m h Hr Hc Hread) as Hlt.
  eapply total_mono.
  - apply (total_vec_load (as_mat v0) v0 (h ++ [replicate (Z.to_nat n) None])
             (fun k => elem m h k k) (fun i => Mat.at_ m i i)).
    + apply same_store_refl.
    + reflexivity.
    + cbn. lia.
    + apply allocated_fresh_vec.
    + intros i h' P w Hi Hu. cbn in Hi.
      apply at_cell; [lia | lia |].
      rewrite (cell_other m (h ++ [replicate (Z.to_nat n) None]) h')
        by (apply Hu; cbn; lia).
      rewrite (cell_other m h) by (apply lookup_app_l; exact Hlt).
      apply readable_elem; [exact Hread | split; lia].
  - intros v h' [Hv Hu]. apply (vec_built_fresh n h v h' _ ltac:(lia) Hv Hu).
Qed.

(** [dot(v1, v2)] throws [EmptyElementError] when either vector is empty
    and [BadDimensionsError] when the lengths differ; on readable vectors
    of one positive length it returns the sum of the element-wise products
    and writes nothing. *)
Theorem dot_sums_products (v1 v2 : Vec.t) (h : heap T) :
  (Vec.length v1 = 0 \/ Vec.length v2 = 0 ->
   Vec.dot v1 v2 h = Throw EmptyElementError) /\
  (Vec.length v1 <> 0 -> Vec.length v2 <> 0 -> Vec.length v1 <> Vec.length v2 ->
   Vec.dot v1 v2 h = Throw BadDimensionsError) /\
  (0 < Vec.length v1 -> Vec.length v1 = Vec.length v2 ->
   vec_readable v1 h -> vec_readable v2 h ->
   Vec.dot v1 v2 h =
     Ret (dot_sum (vec_elem v1 h) (vec_elem v2 h) (Vec.length v1), h)).
Proof.
  unfold Vec.dot. split; [|split].
  - intros [E|E]; rewrite E; cbn [Z.eqb orb]; [reflexivity|].
    rewrite orb_true_r. reflexivity.
  - intros H1 H2 Hne.
    destruct (Z.eqb_spec (Vec.length v1) 0); [contradiction|].
    destruct (Z.eqb_spec (Vec.length v2) 0); [contradiction|].
    destruct (Z.eqb_spec (Vec.length v1) (Vec.length v2)); [contradiction|].
    reflexivity.
  - intros Hpos He Hr1 Hr2.
    destruct (Z.eqb_spec (Vec.length v1) 0); [lia|].
    destruct (Z.eqb_spec (Vec.length v2) 0); [lia|].
    destruct (Z.eqb_spec (Vec.length v1) (Vec.length v2)); [|contradiction].
    cbn [orb negb].
    assert (Ht : total (a <- Vec.at_ v1 0 ;; b <- Vec.at_ v2 0 ;;
                   for_range 1 (Vec.length v1)
                     (fun i result => a <- Vec.at_ v1 i ;; b <- Vec.at_ v2 i ;;
                        ret (s_add result (s_mul a b))) (s_mul a b)) h
                  (fun r h' => h' = h /\
                     r = dot_sum (vec_elem v1 h) (vec_elem v2 h) (Vec.length v1))).
    { apply total_bind. eapply total_eq; [apply vec_at_readable; [exact Hr1 | lia]|].
      apply total_bind. eapply total_eq; [apply vec_at_readable; [exact Hr2 | lia]|].
      apply (total_for_range _
        (fun k acc h' => h' = h /\ acc = dot_sum (vec_elem v1 h) (vec_elem v2 h) k));
        [lia | | split; reflexivity].
      intros k acc h1 Hk [-> ->].
      apply total_bind. eapply total_eq; [apply vec_at_readable; [exact Hr1 | lia]|].
      apply total_bind. eapply total_eq; [apply vec_at_readable; [exact Hr2 | lia]|].
      apply total_ret. split; [reflexivity|].
      rewrite dot_sum_step by lia. reflexivity. }
    destruct (total_inv _ _ _ Ht) as (r & h' & E & -> & ->). exact E.
Qed.

(** The bounds check of a vector accepts the index [length]: [at] throws
    exactly for a negative index and for one above [length], and the
    two-argument forms throw for every row other than [0]. *)
Theorem vec_at_bounds (v : Vec.t) (index : Z) (x : T) (h : heap T) :
  (Vec.at_ v index h = Throw OutOfBoundsError <->
   index < 0 \/ Vec.length v < index) /\
  (forall row, row <> 0 ->
     Vec.at2 v row index h = Throw OutOfBoundsError /\
     Vec.set2 v row index x h = Throw OutOfBoundsError).
Proof.
  split.
  - unfold Vec.at_, bind, lift, Vec._address, load.
    destruct (Z.ltb_spec index 0), (Z.ltb_spec (Vec.length v) index); cbn [orb];
      try (split; [intros _; lia | reflexivity]).
    split; [|lia]. cbn [fst snd].
    destruct (h !! Vec._mat v); [|discriminate].
    destruct (index <? 0); [discriminate|].
    destruct (_ !! _) as [[y|]|]; discriminate.
  - intros row Hrow. unfold Vec.at2, Vec.set2.
    destruct (Z.eqb_spec row 0); [contradiction|]. split; reflexivity.
Qed.
End VectorTheorems.

(** ** List constructors and the index operator *)

Section ListConstructors.
Context {T : Type} {ST : Scalar T}.
Implicit Types (h : heap T) (m this : Mat.t T) (v : Vec.t).

(** [M[i][j].at(0, 0)] is [M.at(i, j)]: on a matrix with at least one
    column, indexing twice and reading the one element of the view behaves
    as [at(i, j)] for every [i] and [j], failures included. *)
Theorem index_twice_is_at (m : Mat.t T) (i j : Z) (h : heap T) :
  1 <= Mat._n_cols m ->
  (row <- lift (Mat.index (Mat.Plain m) i) ;;
   e <- lift (Mat.index row j) ;;
   Mat.vat e 0 0) h
  = Mat.at_ m i j h.
Proof.
  intros Hc.
  assert (E1 : Mat.index (Mat.Plain m) i
               = Ret (Mat.SubMat 1 (Mat._n_cols m) (Mat.Plain m) i i 0
                        (Mat._n_cols m - 1))).
  { unfold Mat.index, Mat.range, Mat.SubMat_new. cbn [Mat.cols].
    rewrite Z.ltb_irrefl. destruct (Z.ltb_spec (Mat._n_cols m - 1) 0); [lia|].
    cbn [orb]. do 2 f_equal; lia. }
  assert (E2 : Mat.index (Mat.SubMat 1 (Mat._n_cols m) (Mat.Plain m) i i 0
                            (Mat._n_cols m - 1)) j
               = Ret (Mat.SubMat 1 1
                        (Mat.SubMat 1 (Mat._n_cols m) (Mat.Plain m) i i 0
                           (Mat._n_cols m - 1)) 0 0 j j)).
  { unfold Mat.index. cbn [Z.eqb Pos.eqb]. unfold Mat.range, Mat.SubMat_new.
    rewrite !Z.ltb_irrefl. cbn [orb]. do 2 f_equal; lia. }
  unfold bind. rewrite E1. cbn [lift]. rewrite E2. cbn [lift Mat.vat].
  change (0 <? 0) with false. change (1 <? 0) with false. cbn [orb].
  change (0 + 0) with 0. change (0 <? 0) with false. change (1 <? 0) with false.
  cbn [orb]. change (0 + j) with j. change (0 + i) with i.
  rewrite Z.add_0_r.
  unfold Mat.at_, bind, lift, Mat._address.
  destruct (Z.ltb_spec j 0), (Z.ltb_spec (Mat._n_cols m) j); cbn [orb];
    rewrite ?orb_true_r; reflexivity.
Qed.

(** [Vec{...}] builds a fresh vector that reads back the listed elements
    in order. *)
Theorem vec_of_list_reads_back (l : list T) (h : heap T) :
  total (Vec.of_list l) h
    (vec_built h (Z.of_nat (length l)) (listed1 l)).
Proof.
  unfold Vec.of_list. set (n := Z.of_nat (length l)).
  step_with total_vec_allocate; [lia|].
  intros v0 h1 [-> ->]. cbn [Vec._n_elems].
  set (v0 := {| Vec._mat := length h; Vec._n_rows := 1 |}).
  set (h1 := h ++ [replicate (Z.to_nat n) None]).
  eapply total_mono.
  - apply (total_for_range _
      (fun b v h' =>
         same_vec v0 v /\
         updates (as_mat v0) h1 h' (fun _ j' => j' <? b) (fun _ j => listed1 l j)));
      [lia | |].
    + intros i v h' Hi [Hv Hu].
      destruct (l !! Z.to_nat i) as [x|] eqn:Ex.
      2:{ apply lookup_ge_None in Ex. unfold n in Hi. lia. }
      eapply total_mono.
      * eapply (vec_set_updates (as_mat v0) v h1 h');
          [apply same_vec_store; exact Hv | exact Hu | cbn; lia | reflexivity |].
        unfold listed1. rewrite Ex. reflexivity.
      * intros v' h2 [Hv' Hu']. split.
        -- destruct Hv as [E1 E2], Hv' as [E3 E4]. split; congruence.
        -- eapply updates_ext; [|exact Hu']. intros i' j' [Hi' Hj']. cbv beta.
           cbn in Hi'.
           destruct (Z.ltb_spec j' i), (Z.eqb_spec i' 0), (Z.eqb_spec j' i),
             (Z.ltb_spec j' (i + 1)); cbn; try reflexivity; lia.
    + split; [apply same_vec_refl|].
      eapply updates_ext; [|apply updates_refl; apply allocated_fresh_vec].
      intros i' j' [_ Hj']. cbv beta. destruct (Z.ltb_spec j' 0); [lia|reflexivity].
  - intros v h' [Hv Hu]. apply (vec_built_fresh n h v h' _ ltac:(lia) Hv).
    eapply updates_ext; [|exact Hu]. intros i' j' [_ Hj']. cbv beta. cbn in Hj'.
    destruct (Z.ltb_spec j' n); [reflexivity|lia].
Qed.

(** [Mat{{...}, ...}] on a non-empty list of rows of one positive length
    builds a fresh matrix that reads back the listed elements. *)
Theorem of_list_reads_back (first : list T) (rest : list (list T)) (h : heap T) :
  (0 < length first)%nat ->
  Forall (fun row => length row = length first) rest ->
  total (Mat.of_list (first :: rest)) h
    (built h (Z.of_nat (length (first :: rest))) (Z.of_nat (length first))
       (listed (first :: rest))).
Proof.
  intros Hpos Hall. set (l := first :: rest).
  assert (Hrows : forall i row, l !! i = Some row -> length row = length first).
  { intros [|i] row; cbn; [intros [= <-]; reflexivity|].
    intros Hi. rewrite Forall_forall in Hall. apply Hall.
    eapply list_elem_of_lookup_2. exact Hi. }
  unfold Mat.of_list. fold l.
  set (nr := Z.of_nat (length l)). set (nc := Z.of_nat (length first)).
  assert (Hnr : 0 < nr) by (unfold nr, l; cbn [length]; lia).
  step_with total_allocate; [exact Hnr | lia |].
  intros m0 h1 [-> ->]. cbn [Mat._n_rows].
  set (m := {| Mat._mat := length h; Mat._n_rows := nr |}).
  eapply total_mono.
  - apply (grid_loop m (h ++ [replicate (Z.to_nat (nr * nc)) None]) (listed l)
       Mat._n_cols
       (fun i j this =>
          match l !! Z.to_nat i with
          | None => undefined
          | Some row =>
              if negb (Z.of_nat (length row) =? Mat._n_cols this)
              then throw BadDimensionsError
              else match row !! Z.to_nat j with
                   | Some x => Mat.set this i j x
                   | None => undefined
                   end
          end));
      [unfold m; cbn; lia | unfold m; cbn; lia | | | apply same_store_refl
      | apply updates_refl; apply allocated_fresh].
    + intros s (_ & _ & E). exact E.
    + intros i j [Hi Hj] s h1 Hs1 Hu1. cbn in Hi, Hj.
      destruct (l !! Z.to_nat i) as [row|] eqn:Erow.
      2:{ apply lookup_ge_None in Erow. unfold nr in Hi. lia. }
      pose proof (Hrows _ _ Erow) as Hlen.
      assert (Ec : Mat._n_cols s = nc) by (destruct Hs1 as (_ & _ & ->); reflexivity).
      rewrite Ec, Hlen. fold nc. rewrite Z.eqb_refl. cbn [negb].
      destruct (row !! Z.to_nat j) as [x|] eqn:Ex.
      2:{ apply lookup_ge_None in Ex. unfold nc in Hj. lia. }
      eapply total_mono.
      * eapply (set_updates m s _ h1);
          [exact Hs1 | exact Hu1 | split; cbn; lia |].
        unfold listed. rewrite Erow, Ex. reflexivity.
      * intros s' h' (Hs' & _ & Hu'). split; assumption.
  - intros s h' [Hs Hu]. apply (built_fresh nr nc h s h' _ Hs Hu).
Qed.
End ListConstructors.

Section ThrowRules.
Context {T : Type} {ST : Scalar T}.
Implicit Types (h : heap T) (m this : Mat.t T) (e : ORCAException).

Lemma rt_total {A} e (c : M T A) h (Q : A -> heap T -> Prop) :
  total c h Q -> returns_or_throws e c h Q.
Proof.
  unfold total, returns_or_throws. destruct (c h) as [[a h']| | |]; tauto.
Qed.

Lemma rt_throw {A} e h (Q : A -> heap T -> Prop) :
  returns_or_throws e (throw e) h Q.
Proof. reflexivity. Qed.

Lemma rt_bind {A B} e (c : M T A) (k : A -> M T B) h (Q : B -> heap T -> Prop) :
  returns_or_throws e c h (fun a h' => returns_or_throws e (k a) h' Q) ->
  returns_or_throws e (bind c k) h Q.
Proof.
  unfold returns_or_throws, bind. destruct (c h) as [[a h']| | |]; tauto.
Qed.

Lemma rt_mono {A} e (c : M T A) h (Q Q' : A -> heap T -> Prop) :
  returns_or_throws e c h Q -> (forall a h', Q a h' -> Q' a h') ->
  returns_or_throws e c h Q'.
Proof.
  unfold returns_or_throws. destruct (c h) as [[a h']| | |]; auto.
Qed.

Lemma rt_for_range {S} e (body : Z -> S -> M T S)
    (Inv : Z -> S -> heap T -> Prop) (lo hi : Z) :
  lo <= hi ->
  (forall i s h, lo <= i < hi -> Inv i s h ->
     returns_or_throws e (body i s) h (Inv (i + 1))) ->
  forall s h, Inv lo s h -> returns_or_throws e (for_range lo hi body s) h (Inv hi).
Proof.
  intros Hle Hbody. unfold for_range.
  remember (Z.to_nat (hi - lo)) as n eqn:En.
  revert lo Hle Hbody En. induction n as [|n IH]; intros lo Hle Hbody En s h Hs.
  - assert (hi = lo) by lia. subst hi. rewrite Z.sub_diag. cbn. exact Hs.
  - rewrite seqZ_cons by lia. cbn [foldM]. apply rt_bind.
    eapply rt_mono; [apply Hbody; [lia | exact Hs]|].
    intros s' h' Hs'. replace (Z.pred (hi - lo)) with (hi - Z.succ lo) by lia.
    apply IH; [lia | | lia | ].
    + intros i s0 h0 Hi. apply Hbody. lia.
    + replace (Z.succ lo) with (lo + 1) by lia. exact Hs'.
Qed.

(** Behind a first row that is not empty, a row of another length makes
    the list constructor throw. *)
Lemma of_list_ragged_rows (first : list T) (rest : list (list T)) (h : heap T) :
  (0 < length first)%nat ->
  Exists (fun row => length row <> length first) rest ->
  Mat.of_list (first :: rest) h = Throw BadDimensionsError.
Proof.
  intros Hpos Hex. set (l := first :: rest).
  set (good := fun k : Z =>
         forall row, l !! Z.to_nat k = Some row -> length row = length first).
  set (nr := Z.of_nat (length l)). set (nc := Z.of_nat (length first)).
  assert (Hnr : 0 < nr) by (unfold nr, l; cbn [length]; lia).
  assert (Hrt : returns_or_throws BadDimensionsError (Mat.of_list l) h
                  (fun _ _ => forall k, 0 <= k < nr -> good k)).
  { unfold Mat.of_list, l. fold l. fold nr nc.
    apply rt_bind. apply rt_total. eapply total_mono;
      [apply total_allocate; [exact Hnr | lia]|].
    intros m0 h1 [-> ->]. cbn [Mat._n_rows].
    set (m := {| Mat._mat := length h; Mat._n_rows := nr |}).
    set (h0 := h ++ [replicate (Z.to_nat (nr * nc)) None]).
    eapply rt_mono.
    - apply (rt_for_range BadDimensionsError _
        (fun a s h' =>
           same_store m s /\ (exists P, updates m h0 h' P (listed l)) /\
           forall k, 0 <= k < a -> good k)); [lia | |].
      + intros i s h1 Hi (Hs & Hu & Hgood).
        assert (Ec : Mat._n_cols s = nc) by (destruct Hs as (_ & _ & ->); reflexivity).
        rewrite Ec. eapply rt_mono.
        * apply (rt_for_range BadDimensionsError _
            (fun b s h' =>
               same_store m s /\ (exists P, updates m h0 h' P (listed l)) /\
               (0 < b -> good i))); [lia | |].
          -- intros j s1 h2 Hj (Hs1 & [P Hu1] & _).
             destruct (l !! Z.to_nat i) as [row|] eqn:Erow.
             2:{ apply lookup_ge_None in Erow. unfold nr in Hi. lia. }
             assert (Ec1 : Mat._n_cols s1 = nc)
               by (destruct Hs1 as (_ & _ & ->); reflexivity).
             rewrite Ec1.
             destruct (Z.eqb_spec (Z.of_nat (length row)) nc) as [Hlen|Hlen];
               cbn [negb]; [|apply rt_throw].
             destruct (row !! Z.to_nat j) as [x|] eqn:Ex.
             2:{ apply lookup_ge_None in Ex. unfold nc in *. lia. }
             apply rt_total. eapply total_mono.
             ++ eapply (set_updates m s1 h0 h2);
                  [exact Hs1 | exact Hu1 | split; cbn; lia |].
                unfold listed. rewrite Erow, Ex. reflexivity.
             ++ intros s' h' (Hs' & _ & Hu'). split; [exact Hs'|].
                split; [eexists; exact Hu'|].
                intros _ row' Hrow'. unfold nc in Hlen.
                assert (row' = row) by congruence. subst. lia.
          -- split; [exact Hs|]. split; [exact Hu|]. lia.
        * intros s' h' (Hs' & Hu' & Hg). split; [exact Hs'|]. split; [exact Hu'|].
          intros k Hk. destruct (Z.eq_dec k i) as [->|Hne].
          -- apply Hg. unfold nc. lia.
          -- apply Hgood. lia.
      + split; [apply same_store_refl|]. split.
        * eexists. apply updates_refl. apply allocated_fresh.
        * intros k Hk. lia.
    - intros s h' (_ & _ & Hg). exact Hg. }
  unfold returns_or_throws in Hrt. fold l.
  destruct (Mat.of_list l h) as [[a h']|e| |]; try contradiction.
  - exfalso. apply Exists_exists in Hex. destruct Hex as (row & Hin & Hlen).
    apply list_elem_of_lookup_1 in Hin. destruct Hin as [i Hi].
    apply Hlen. apply (Hrt (Z.of_nat (S i))).
    + apply lookup_lt_Some in Hi. unfold nr, l. cbn [length]. lia.
    + rewrite Nat2Z.id. exact Hi.
  - subst e. reflexivity.
Qed.

(** [Mat{{...}, ...}] on a list of rows: when the first row is empty, the
    allocation of [0] columns throws [EmptyElementError], whatever the
    other rows are, and no row is compared; when the first row is not
    empty and one of the other rows has not its length, the constructor
    throws [BadDimensionsError]. *)
Theorem of_list_ragged (first : list T) (rest : list (list T)) (h : heap T) :
  (first = [] ->
   Mat.of_list (first :: rest) h = Throw EmptyElementError) /\
  (first <> [] ->
   Exists (fun row => length row <> length first) rest ->
   Mat.of_list (first :: rest) h = Throw BadDimensionsError).
Proof.
  split.
  - intros ->. unfold Mat.of_list, bind, Mat._allocate.
    cbn [length].
    destruct (Z.ltb_spec (Z.of_nat (S (length rest))) 0); [lia|].
    reflexivity.
  - intros Hne. apply of_list_ragged_rows.
    destruct first; [contradiction | cbn [length]; lia].
Qed.
End ThrowRules.

(** ** The constructor of block matrices *)

Ltac bool_lia :=
  apply eq_true_iff_eq;
  rewrite ?orb_true_iff, ?andb_true_iff, ?Z.leb_le, ?Z.ltb_lt, ?Z.eqb_eq;
  lia.

Section Blocks.
Context {T : Type} {ST : Scalar T}.
Implicit Types (h : heap T) (m this : Mat.t T).

(** A sweep over the cells of one block. *)
Lemma block_loop m h0 (v : Z -> Z -> T) r0 c0 nr nc
    (cellM : Z -> Z -> Mat.t T -> M T (Mat.t T)) :
  0 <= nr -> 0 <= nc ->
  (forall i j, 0 <= i < nr -> 0 <= j < nc ->
     forall P, writes_cell m h0 P v (r0 + i) (c0 + j) (cellM i j)) ->
  forall this h,
    same_store m this -> updates m h0 h (fun _ _ => false) v ->
    total (for_range 0 nr
             (fun i this => for_range 0 nc
                (fun j this => cellM i j this) this) this) h
      (fun this' h' =>
         same_store m this' /\ updates m h0 h' (in_block r0 c0 nr nc) v).
Proof.
  intros Hr Hc Hbody this h Hs Hu.
  eapply total_mono.
  - apply (total_for_range _
      (fun a this' h' =>
         same_store m this' /\ updates m h0 h' (in_block r0 c0 a nc) v));
      [exact Hr | |].
    + intros i s h1 Hi [Hs1 Hu1]. eapply total_mono.
      * apply (total_for_range (fun j this => cellM i j this)
          (fun b this' h' =>
             same_store m this' /\
             updates m h0 h'
               (fun i' j' => in_block r0 c0 i nc i' j'
                             || ((i' =? r0 + i) && (c0 <=? j') && (j' <? c0 + b))) v));
          [exact Hc | |].
        -- intros j s2 h2 Hj [Hs2 Hu2]. eapply total_mono.
           ++ apply (Hbody i j Hi Hj _ s2 h2 Hs2 Hu2).
           ++ intros s' h' [Hs' Hu']. split; [exact Hs'|].
              eapply updates_ext; [|exact Hu']. intros i' j' _. cbv beta.
              unfold in_block. bool_lia.
        -- split; [exact Hs1|]. eapply updates_ext; [|exact Hu1].
           intros i' j' _. cbv beta. unfold in_block. bool_lia.
      * intros s' h' [Hs' Hu']. split; [exact Hs'|].
        eapply updates_ext; [|exact Hu']. intros i' j' _. cbv beta.
        unfold in_block. bool_lia.
    + split; [exact Hs|]. eapply updates_ext; [|exact Hu].
      intros i' j' _. cbv beta. unfold in_block. bool_lia.
  - intros s' h' [Hs' Hu']. split; assumption.
Qed.

(** Copying the block [b] into [m] at [(r0, c0)]. *)
Lemma total_block_copy m (b : Mat.t T) h1 r0 c0 this (val : Z -> Z -> T) :
  (forall i j, 0 <= i < Mat._n_rows b -> 0 <= j < Mat._n_cols b ->
     cell b h1 i j = Some (val (r0 + i) (c0 + j))) ->
  Mat._mat b <> Mat._mat m ->
  0 <= r0 -> 0 <= c0 -> 0 <= Mat._n_rows b -> 0 <= Mat._n_cols b ->
  r0 + Mat._n_rows b <= Mat._n_rows m -> c0 + Mat._n_cols b <= Mat._n_cols m ->
  same_store m this -> allocated m h1 ->
  total (for_range 0 (Mat._n_rows b)
           (fun iInnerLoop this => for_range 0 (Mat._n_cols b)
              (fun jInnerLoop this =>
                 x <- Mat.at_ b iInnerLoop jInnerLoop ;;
                 Mat.set this (r0 + iInnerLoop) (c0 + jInnerLoop) x) this) this) h1
    (fun this' h' =>
       same_store m this' /\
       updates m h1 h' (in_block r0 c0 (Mat._n_rows b) (Mat._n_cols b)) val).
Proof.
  intros Hcells Hne Hr0 Hc0 Hnr Hnc Hfr Hfc Hs Ha.
  apply (block_loop m h1 val r0 c0 (Mat._n_rows b) (Mat._n_cols b)
           (fun i j this => x <- Mat.at_ b i j ;; Mat.set this (r0 + i) (c0 + j) x));
    [exact Hnr | exact Hnc | | exact Hs | apply updates_refl; exact Ha].
  intros i j Hi Hj P s h Hs1 Hu1. apply total_bind.
  eapply (total_at_other m b h1 h);
    [exact Hu1 | exact Hne | split; assumption | apply Hcells; assumption |].
  eapply total_mono.
  - eapply (set_updates m s h1 h);
      [exact Hs1 | exact Hu1 | split; lia | reflexivity].
  - intros s' h' (Hs' & _ & Hu'). split; assumption.
Qed.

Lemma cell_fresh rows cols h m i j :
  Mat._mat m = length h ->
  cell m (h ++ [replicate (Z.to_nat (rows * cols)) (@None T)]) i j = None.
Proof.
  intros Hm. unfold cell. rewrite Hm, lookup_app_r by lia.
  rewrite Nat.sub_diag. cbn [lookup list_lookup].
  destruct (replicate _ _ !! _) as [[x|]|] eqn:E; try reflexivity.
  apply lookup_replicate in E. destruct E as [E _]. discriminate E.
Qed.

(** The block constructor on one row of two blocks, [Mat{{A, B}}], with
    [rows(B) = rows(A)] and [rows(A) <= cols(A)]: the result is a fresh
    [rows(A)] x [(cols(A) + cols(B))] matrix; [A] is copied to the columns
    from [0], and [B] to the columns from [rows(A)], the column offset
    being advanced by the rows of the block.  For a square [A] this is
    [A] beside [B]; otherwise [B] overwrites columns of [A], and the
    columns from [max(cols(A), rows(A) + cols(B))] on are never
    written. *)
Theorem of_blocks_row_of_two (A B : Mat.t T) (h : heap T) :
  0 < Mat._n_rows A -> 0 < Mat._n_cols A -> 0 < Mat._n_cols B ->
  Mat._n_rows B = Mat._n_rows A -> Mat._n_rows A <= Mat._n_cols A ->
  readable A h -> readable B h ->
  total (Mat.of_blocks [[A; B]]) h
    (fun m h' =>
       fresh_in h m h' /\
       Mat._n_rows m = Mat._n_rows A /\
       Mat._n_cols m = Mat._n_cols A + Mat._n_cols B /\
       forall i j, in_range m i j ->
         cell m h' i j =
           if (Mat._n_rows A <=? j) && (j <? Mat._n_rows A + Mat._n_cols B)
           then Some (elem B h i (j - Mat._n_rows A))
           else if j <? Mat._n_cols A then Some (elem A h i j)
           else None).
Proof.
  intros HrA HcA HcB HrB Hle HreadA HreadB.
  unfold Mat.of_blocks. cbn [fold_left foldM].
  apply total_bind. 
  assert (Edims : forall h0 : heap T,
    (x <- (colNumTemp <- (x <- (if negb (Mat._n_rows A =? Mat._n_rows A)
                                 then throw BadDimensionsError
                                 else ret (0 + Mat._n_cols A)) ;;
                           x0 <- (if negb (Mat._n_rows B =? Mat._n_rows A)
                                  then throw BadDimensionsError
                                  else ret (x + Mat._n_cols B)) ;;
                           ret x0) ;;
           (if negb (colNumTemp =? 0 + Mat._n_cols A + Mat._n_cols B)
            then throw BadDimensionsError
            else ret (0 + Mat._n_rows A))) ;;
     ret x) h0 = Ret (Mat._n_rows A, h0)).
  { intros h0. rewrite Z.eqb_refl, HrB, Z.eqb_refl. cbn [negb].
    unfold bind, ret. rewrite Z.eqb_refl. reflexivity. }
  eapply total_eq; [apply Edims|]. clear Edims.
  change (0 + Mat._n_cols A + Mat._n_cols B) with (Mat._n_cols A + Mat._n_cols B).
  step_with total_allocate; [exact HrA | lia |].
  intros m0 h1 [-> ->].
  set (nr := Mat._n_rows A). set (nc := Mat._n_cols A + Mat._n_cols B).
  set (blank := replicate (Z.to_nat (nr * nc)) None).
  set (m := {| Mat._mat := length h; Mat._n_rows := nr |}).
  destruct (readable_after_allocate A h blank HrA HcA HreadA) as [HnA HcellA].
  destruct (readable_after_allocate B h blank) as [HnB HcellB];
    [lia | exact HcB | exact HreadB |].
  repeat apply total_bind.
  eapply total_mono.
  { apply (total_block_copy m A (h ++ [blank]) 0 0 m (fun i j => elem A h i j));
      [ | unfold m; cbn; lia | lia | lia | lia | lia
        | unfold m, nr; cbn; lia | unfold m, nc; cbn; lia
        | apply same_store_refl | apply allocated_fresh].
    intros i j Hi Hj. apply HcellA. split; assumption. }
  intros s1 h1 [Hs1 Hu1]. apply total_ret. cbv beta iota.
  change (0 + nr) with nr.
  assert (Ha1 : allocated m h1) by apply Hu1.
  repeat apply total_bind.
  eapply total_mono.
  { apply (total_block_copy m B h1 0 nr s1 (fun i j => elem B h i (j - nr)));
      [ | unfold m; cbn; lia | lia | unfold nr; lia | lia | lia
        | unfold m, nr; cbn; lia | unfold m, nc, nr; cbn; lia
        | exact Hs1 | exact Ha1].
    intros i j Hi Hj.
    rewrite (cell_other B (h ++ [blank]) h1) by (apply Hu1; unfold m; cbn; lia).
    replace (nr + j - nr) with j by lia. apply HcellB. split; assumption. }
  intros s2 h2 [Hs2 Hu2]. repeat apply total_ret.
  cbn [fst].
  pose proof (updates_then m _ _ _ _ _ _ _ Hu1 Hu2) as Hu.
  destruct (updates_fresh m h h2 _ _ blank eq_refl Hu) as [Hf Hl].
  split; [split; [apply Hs2 | split; [exact Hl | exact Hf]]|].
  split; [apply Hs2|]. split; [apply Hs2|].
  intros i j Hij.
  assert (Hij' : in_range m i j).
  { destruct Hs2 as (_ & E1 & E2). unfold in_range in *. rewrite <- E1, <- E2. exact Hij. }
  rewrite (cell_same_store m s2) by exact Hs2.
  destruct Hu as (_ & _ & _ & Hc). rewrite (Hc i j Hij'). cbv beta.
  destruct Hij' as [Hi Hj]. unfold m in Hi, Hj. cbn in Hi, Hj.
  unfold in_block. fold nr.
  destruct (Z.leb_spec nr j), (Z.ltb_spec j (nr + Mat._n_cols B)),
    (Z.ltb_spec j (Mat._n_cols A)), (Z.leb_spec 0 i), (Z.ltb_spec i (0 + nr)),
    (Z.leb_spec 0 j), (Z.ltb_spec j (0 + Mat._n_cols A)), (Z.ltb_spec i (0 + Mat._n_rows B));
    cbn [andb orb]; try reflexivity; try lia.
  all: apply (cell_fresh nr nc h m i j); reflexivity.
Qed.
End Blocks.

(** ** The kernels on 2x2 matrices *)

Section TwoByTwo.
Context {T : Type} {ST : Scalar T}.



Lemma det_of_2x2_paths (a b c d : T) :
  det_of_2x2 a b c d =
    if s_eqb a (lit 0) then
      if s_eqb c (lit 0) then
        if s_eqb b (lit 0) then
          if s_eqb d (lit 0) then Ret (lit 0) else Undefined
        else Undefined
      else det_by_pivot (lit (-1)) c a d b
    else det_by_pivot (lit 1) a c b d.
Proof.
  unfold det_of_2x2, det_by_pivot. destruct ST as [l add mul div neg eqb].
  cbn [lit s_add s_mul s_div s_neg s_eqb].
  destruct (eqb a (l 0)) eqn:Ea.
  - destruct (eqb c (l 0)) eqn:Ec.
    + destruct (eqb b (l 0)) eqn:Eb.
      * destruct (eqb d (l 0)) eqn:Ed.
        -- vm_compute. rewrite Ea. vm_compute. rewrite Ec. vm_compute.
           rewrite Eb. vm_compute. rewrite Ed. reflexivity.
        -- vm_compute. rewrite Ea. vm_compute. rewrite Ec. vm_compute.
           rewrite Eb. vm_compute. rewrite Ed. vm_compute. rewrite Ed. reflexivity.
      * vm_compute. rewrite Ea. vm_compute. rewrite Ec. vm_compute.
        rewrite Eb. vm_compute. rewrite Eb. reflexivity.
    + destruct (eqb (add b (mul (neg a) (mul (div (l 1) c) d))) (l 0)) eqn:E1.
      * vm_compute. rewrite Ea. vm_compute. rewrite Ec. vm_compute.
        rewrite Ec. vm_compute. rewrite E1. reflexivity.
      * vm_compute. rewrite Ea. vm_compute. rewrite Ec. vm_compute.
        rewrite Ec. vm_compute. rewrite E1. vm_compute. rewrite E1. reflexivity.
  - destruct (eqb (add d (mul (neg c) (mul (div (l 1) a) b))) (l 0)) eqn:E1.
    + vm_compute. rewrite Ea. vm_compute. rewrite Ea. vm_compute.
      rewrite E1. reflexivity.
    + vm_compute. rewrite Ea. vm_compute. rewrite Ea. vm_compute.
      rewrite E1. vm_compute. rewrite E1. reflexivity.
Qed.
End TwoByTwo.

Section Steps.
Context {T : Type}.

Lemma bind_step {A B} (c : M T A) (k : A -> M T B) h a h' :
  c h = Ret (a, h') -> bind c k h = k a h'.
Proof. unfold bind. intros ->. reflexivity. Qed.

Lemma bind_assoc {A B C} (c : M T A) (k1 : A -> M T B) (k2 : B -> M T C) h :
  bind (bind c k1) k2 h = bind c (fun a => bind (k1 a) k2) h.
Proof. unfold bind. destruct (c h) as [[a h']| | |]; reflexivity. Qed.
End Steps.

Section TwoByTwoKernels.
Context {T : Type} {ST : Scalar T}.
Variable generator : Z -> Z -> T.



Lemma rref_of_2x2_paths (a b c d : T) :
  (s_eqb a (lit 0) = false ->
   rref_of_2x2 a b c d = rref_by_pivot a c b d) /\
  (s_eqb a (lit 0) = true -> s_eqb c (lit 0) = false ->
   rref_of_2x2 a b c d = rref_by_pivot c a d b).
Proof.
  unfold rref_of_2x2, rref_by_pivot. destruct ST as [l add mul div neg eqb].
  cbn [lit s_add s_mul s_div s_neg s_eqb]. split.
  - intros Ea.
    destruct (eqb (add d (mul (neg c) (mul (div (l 1) a) b))) (l 0)) eqn:E1.
    + vm_compute. rewrite Ea. vm_compute. rewrite Ea. vm_compute.
      rewrite E1. reflexivity.
    + vm_compute. rewrite Ea. vm_compute. rewrite Ea. vm_compute.
      rewrite E1. vm_compute. rewrite E1. reflexivity.
  - intros Ea Ec.
    destruct (eqb (add b (mul (neg a) (mul (div (l 1) c) d))) (l 0)) eqn:E1.
    + vm_compute. rewrite Ea. vm_compute. rewrite Ec. vm_compute.
      rewrite Ec. vm_compute. rewrite E1. reflexivity.
    + vm_compute. rewrite Ea. vm_compute. rewrite Ec. vm_compute.
      rewrite Ec. vm_compute. rewrite E1. vm_compute. rewrite E1. reflexivity.
Qed.



Ltac enter_inv :=
  unfold inv_of_2x2, reduced_by_pivot, run;
  erewrite bind_step by (vm_compute; reflexivity);
  unfold Mat.inv;
  do 2 (lazymatch goal with |- context [if ?c then _ else _] =>
          let v := eval vm_compute in c in change c with v; cbv iota end);
  rewrite bind_assoc;
  erewrite bind_step by (vm_compute; reflexivity);
  rewrite bind_assoc;
  match goal with |- result_of (bind _ ?K _) = _ => remember K as k eqn:Hk end.

Lemma inv_of_2x2_paths (a b c d : T) :
  (s_eqb a (lit 0) = false ->
   inv_of_2x2 generator a b c d = reduced_by_pivot a c b d (lit 1) (lit 0) (lit 0) (lit 1)) /\
  (s_eqb a (lit 0) = true -> s_eqb c (lit 0) = false ->
   inv_of_2x2 generator a b c d = reduced_by_pivot c a d b (lit 0) (lit 1) (lit 1) (lit 0)).
Proof.
  split.
  - intros Ea. enter_inv. destruct ST as [l add mul div neg eqb].
    cbn [lit s_add s_mul s_div s_neg s_eqb] in *.
    destruct (eqb (add d (mul (neg c) (mul (div (l 1) a) b))) (l 0)) eqn:E1.
    + vm_compute. rewrite Ea. vm_compute. rewrite Ea. vm_compute.
      rewrite E1. vm_compute. subst k. vm_compute. reflexivity.
    + vm_compute. rewrite Ea. vm_compute. rewrite Ea. vm_compute.
      rewrite E1. vm_compute. rewrite E1. vm_compute. subst k. vm_compute.
      reflexivity.
  - intros Ea Ec. enter_inv. destruct ST as [l add mul div neg eqb].
    cbn [lit s_add s_mul s_div s_neg s_eqb] in *.
    destruct (eqb (add b (mul (neg a) (mul (div (l 1) c) d))) (l 0)) eqn:E1.
    + vm_compute. rewrite Ea. vm_compute. rewrite Ec. vm_compute.
      rewrite Ec. vm_compute. rewrite E1. vm_compute. subst k. vm_compute.
      reflexivity.
    + vm_compute. rewrite Ea. vm_compute. rewrite Ec. vm_compute.
      rewrite Ec. vm_compute. rewrite E1. vm_compute. rewrite E1. vm_compute.
      subst k. vm_compute. reflexivity.
Qed.
End TwoByTwoKernels.

Section TwoByTwoRational.
Local Open Scope Q_scope.

Lemma det_by_pivot_rational (sign p q r s : Q) :
  ~ p == 0 ->
  exists x, det_by_pivot sign p q r s = Ret x /\ x == sign * (p * s - q * r).
Proof.
  intros Hp. unfold det_by_pivot. cbn [lit s_add s_mul s_div s_neg s_eqb Scalar_Q].
  destruct (Qeq_bool _ _) eqn:E.
  - eexists. split; [reflexivity|]. apply Qeq_bool_eq in E.
    rewrite !Qred_correct in E.
    assert (H : p * s - q * r == p * (s + - q * (inject_Z 1 / p * r)))
      by (field; exact Hp).
    rewrite H, E. change (inject_Z 0) with 0. ring.
  - eexists. split; [reflexivity|]. apply Qeq_bool_neq in E.
    rewrite !Qred_correct in *. 
    change (inject_Z 1) with 1 in *. change (inject_Z 0) with 0 in *.
    field. split; [exact Hp|]. intros H. apply E.
    assert (H' : s + - q * (1 / p * r) == (s * p + - q * r) / p)
      by (field; exact Hp).
    rewrite H', H. field. exact Hp.
Qed.

(** [det()] on a rational 2x2 matrix whose first column is not zero
    returns [a * d - b * c]. *)
Theorem det_2x2_first_column_nonzero (a b c d : Q) :
  ~ (a == 0 /\ c == 0) ->
  exists x, det_of_2x2 a b c d = Ret x /\ x == a * d - b * c.
Proof.
  intros Hcol. rewrite det_of_2x2_paths. cbn [lit s_eqb Scalar_Q].
  destruct (Qeq_bool a (inject_Z 0)) eqn:Ea.
  - apply Qeq_bool_eq in Ea. change (inject_Z 0) with 0 in Ea.
    destruct (Qeq_bool c (inject_Z 0)) eqn:Ec.
    + apply Qeq_bool_eq in Ec. exfalso. apply Hcol. split; assumption.
    + apply Qeq_bool_neq in Ec.
      destruct (det_by_pivot_rational (inject_Z (-1)) c a d b Ec) as (x & Ex & Hx).
      exists x. split; [exact Ex|]. rewrite Hx, Ea.
      change (inject_Z (-1)) with (-1#1). ring.
  - apply Qeq_bool_neq in Ea.
    destruct (det_by_pivot_rational (inject_Z 1) a c b d Ea) as (x & Ex & Hx).
    exists x. split; [exact Ex|]. rewrite Hx. change (inject_Z 1) with 1. ring.
Qed.

(** When the first column of a rational 2x2 matrix is zero, [det()]
    returns [0] only for the zero matrix: in every other case the pivot
    search of the second row reads [at(1, 2)], one past the end of the
    buffer. *)
Theorem det_2x2_first_column_zero (a b c d : Q) :
  a == 0 -> c == 0 ->
  det_of_2x2 a b c d = if Qeq_bool b 0 && Qeq_bool d 0 then Ret 0 else Undefined.
Proof.
  intros Ha Hc. rewrite det_of_2x2_paths. cbn [lit s_eqb Scalar_Q].
  change (inject_Z 0) with 0.
  rewrite (proj2 (Qeq_bool_iff a 0) Ha), (proj2 (Qeq_bool_iff c 0) Hc).
  destruct (Qeq_bool b 0), (Qeq_bool d 0); reflexivity.
Qed.

Lemma first_column_of_invertible (a b c d : Q) :
  ~ a * d - b * c == 0 ->
  Qeq_bool a 0 = false \/ (a == 0 /\ Qeq_bool a 0 = true /\ Qeq_bool c 0 = false).
Proof.
  intros Hdet. destruct (Qeq_bool a 0) eqn:Ea; [right|left; reflexivity].
  apply Qeq_bool_eq in Ea. split; [exact Ea|]. split; [reflexivity|].
  destruct (Qeq_bool c 0) eqn:Ec; [|reflexivity].
  apply Qeq_bool_eq in Ec. exfalso. apply Hdet. rewrite Ea, Ec. ring.
Qed.

Lemma rref_by_pivot_rational (p q r s : Q) :
  ~ p == 0 -> ~ p * s - q * r == 0 ->
  exists x11 x12 x21 x22,
    rref_by_pivot p q r s = Ret [[x11; x12]; [x21; x22]] /\
    x11 == 1 /\ x12 == 0 /\ x21 == 0 /\ x22 == 1.
Proof.
  intros Hp Hdet. unfold rref_by_pivot.
  cbn [lit s_add s_mul s_div s_neg s_eqb Scalar_Q].
  change (inject_Z 1) with 1. change (inject_Z 0) with 0.
  assert (Hs : ~ s + - q * (1 / p * r) == 0).
  { intros H. apply Hdet.
    assert (H' : p * s - q * r == p * (s + - q * (1 / p * r))) by (field; exact Hp).
    rewrite H', H. ring. }
  destruct (Qeq_bool _ _) eqn:E.
  - apply Qeq_bool_eq in E. rewrite !Qred_correct in E. contradiction.
  - do 4 eexists. split; [reflexivity|].
    rewrite !Qred_correct.
    assert (Hs' : ~ s * p + - q * r == 0).
    { intros H. apply Hdet. rewrite <- H. ring. }
    repeat split; field; split; assumption.
Qed.

(** [rref()] on an invertible rational 2x2 matrix returns the identity. *)
Theorem rref_2x2_invertible (a b c d : Q) :
  ~ a * d - b * c == 0 ->
  exists x11 x12 x21 x22,
    rref_of_2x2 a b c d = Ret [[x11; x12]; [x21; x22]] /\
    x11 == 1 /\ x12 == 0 /\ x21 == 0 /\ x22 == 1.
Proof.
  intros Hdet. destruct (rref_of_2x2_paths a b c d) as [H1 H2].
  destruct (first_column_of_invertible a b c d Hdet) as [Ea|(Ha & Ea & Ec)].
  - rewrite (H1 Ea). apply rref_by_pivot_rational.
    + apply Qeq_bool_neq. exact Ea.
    + intros H. apply Hdet. rewrite <- H. ring.
  - rewrite (H2 Ea Ec). apply rref_by_pivot_rational.
    + apply Qeq_bool_neq. exact Ec.
    + intros H. apply Hdet. rewrite Ha in *.
      assert (H' : 0 * d - b * c == - (c * b - 0 * d)) by ring.
      rewrite H', H. ring.
Qed.

Lemma reduced_by_pivot_rational (p q r s e11 e12 e21 e22 : Q) :
  ~ p == 0 -> ~ p * s - q * r == 0 ->
  exists x11 x12 x21 x22,
    reduced_by_pivot p q r s e11 e12 e21 e22 = Ret [[x11; x12]; [x21; x22]] /\
    x11 == (s * e11 - r * e21) / (p * s - q * r) /\
    x12 == (s * e12 - r * e22) / (p * s - q * r) /\
    x21 == (p * e21 - q * e11) / (p * s - q * r) /\
    x22 == (p * e22 - q * e12) / (p * s - q * r).
Proof.
  intros Hp Hdet. unfold reduced_by_pivot.
  cbn [lit s_add s_mul s_div s_neg s_eqb Scalar_Q].
  change (inject_Z 1) with 1. change (inject_Z 0) with 0.
  assert (Hs : ~ s + - q * (1 / p * r) == 0).
  { intros H. apply Hdet.
    assert (H' : p * s - q * r == p * (s + - q * (1 / p * r))) by (field; exact Hp).
    rewrite H', H. ring. }
  destruct (Qeq_bool _ _) eqn:E.
  - apply Qeq_bool_eq in E. rewrite !Qred_correct in E. contradiction.
  - do 4 eexists. split; [reflexivity|].
    rewrite !Qred_correct.
    assert (Hs' : ~ s * p + - q * r == 0).
    { intros H. apply Hdet. rewrite <- H. ring. }
    assert (Hs'' : ~ p * s - q * r == 0) by exact Hdet.
    repeat split; field; repeat split; assumption.
Qed.

(** [inv()] on an invertible rational 2x2 matrix [[a, b], [c, d]] returns
    its inverse, [[d, -b], [-c, a]] divided by [a * d - b * c]. *)
Theorem inv_2x2_invertible (generator : Z -> Z -> Q) (a b c d : Q) :
  ~ a * d - b * c == 0 ->
  exists x11 x12 x21 x22,
    inv_of_2x2 generator a b c d = Ret [[x11; x12]; [x21; x22]] /\
    x11 == d / (a * d - b * c) /\ x12 == - b / (a * d - b * c) /\
    x21 == - c / (a * d - b * c) /\ x22 == a / (a * d - b * c).
Proof.
  intros Hdet. destruct (inv_of_2x2_paths generator a b c d) as [H1 H2].
  destruct (first_column_of_invertible a b c d Hdet) as [Ea|(Ha & Ea & Ec)].
  - rewrite (H1 Ea).
    destruct (reduced_by_pivot_rational a c b d (inject_Z 1) (inject_Z 0)
                (inject_Z 0) (inject_Z 1)) as (x11 & x12 & x21 & x22 & E & E1 & E2 & E3 & E4).
    + apply Qeq_bool_neq. exact Ea.
    + intros H. apply Hdet. rewrite <- H. ring.
    + exists x11, x12, x21, x22. split; [exact E|].
      change (inject_Z 1) with 1 in *. change (inject_Z 0) with 0 in *.
      assert (Hd' : ~ a * d - c * b == 0) by (intros H; apply Hdet; rewrite <- H; ring).
      rewrite E1, E2, E3, E4. repeat split; field; assumption.
  - rewrite (H2 Ea Ec).
    destruct (reduced_by_pivot_rational c a d b (inject_Z 0) (inject_Z 1)
                (inject_Z 1) (inject_Z 0)) as (x11 & x12 & x21 & x22 & E & E1 & E2 & E3 & E4).
    + apply Qeq_bool_neq. exact Ec.
    + intros H. apply Hdet.
      assert (H' : a * d - b * c == - (c * b - a * d)) by ring.
      rewrite H', H. ring.
    + exists x11, x12, x21, x22. split; [exact E|].
      change (inject_Z 1) with 1 in *. change (inject_Z 0) with 0 in *.
      assert (Hd' : ~ c * b - a * d == 0).
      { intros H. apply Hdet.
        assert (H' : a * d - b * c == - (c * b - a * d)) by ring.
        rewrite H', H. ring. }
      rewrite E1, E2, E3, E4. repeat split; field; split; assumption.
Qed.
End TwoByTwoRational.

(** ** Instances on the scenario objects *)

Lemma M21_allocated : allocated Scenario.M21_obj Scenario.M21_heap.
Proof. eexists. split; reflexivity. Qed.

Lemma M21_pair_readable : readable Scenario.M21_obj M21_pair_heap.
Proof.
  intros i j Hi Hj. cbn in Hi, Hj.
  assert (Ei : i = 0 \/ i = 1) by lia.
  assert (Ej : j = 0 \/ j = 1) by lia.
  destruct Ei as [-> | ->], Ej as [-> | ->]; eexists; vm_compute; reflexivity.
Qed.

Lemma M21_pair_allocated : allocated Scenario.M21_obj M21_pair_heap.
Proof. eexists. split; reflexivity. Qed.

Lemma pair_vec_readable : vec_readable pair_vec M21_pair_heap.
Proof.
  intros k Hk. cbn in Hk. assert (Ek : k = 0 \/ k = 1) by lia.
  destruct Ek as [-> | ->]; eexists; vm_compute; reflexivity.
Qed.

Lemma of_fill_contents_witness :
  total (Mat.of_fill (fun _ _ => 0%Q) 2 3 fill.eye) []
    (built [] 2 3 kronecker).
Proof.
  apply (of_fill_contents (fun _ _ => 0%Q) 2 3 []); lia.
Defined.

Lemma of_fill_value_contents_witness :
  total (Mat.of_fill_value 2 3 fill.value 7%Q) []
    (built [] 2 3 (fun _ _ => 7%Q)).
Proof.
  apply (of_fill_value_contents 2 3 7%Q []); lia.
Defined.

Lemma copy_is_deep_witness :
  total (Mat.of_ptr (Mat.Plain Scenario.M21_obj)) Scenario.M21_heap
    (fun c h1 =>
       built Scenario.M21_heap 2 2 (elem Scenario.M21_obj Scenario.M21_heap) c h1 /\
       reads_as Scenario.M21_obj h1 (elem Scenario.M21_obj Scenario.M21_heap) /\
       forall i j x, in_range c i j ->
         total (Mat.set c i j x) h1
           (fun c' h2 =>
              Mat.at_ c' i j h2 = Ret (x, h2) /\
              reads_as Scenario.M21_obj h2 (elem Scenario.M21_obj Scenario.M21_heap))).
Proof.
  apply (copy_is_deep Scenario.M21_obj Scenario.M21_heap);
    [simpl; lia | simpl; lia | exact M21_readable].
Defined.

Lemma materialised_range_witness :
  total (v <- lift (Mat.range (Mat.Plain Scenario.M21_obj) 1 1 0 1) ;; Mat.of_ptr v)
    Scenario.M21_heap
    (built Scenario.M21_heap (1 - 1 + 1) (1 - 0 + 1)
       (fun i j => elem Scenario.M21_obj Scenario.M21_heap (i + 1) (j + 0))).
Proof.
  apply (materialised_range Scenario.M21_obj Scenario.M21_heap 1 1 0 1);
    [exact M21_readable | lia | simpl; lia | lia | simpl; lia].
Defined.

Lemma materialised_transpose_witness :
  total (Mat.of_ptr (Mat.tr (Mat.Plain Scenario.M21_obj))) Scenario.M21_heap
    (built Scenario.M21_heap 2 2
       (fun i j => elem Scenario.M21_obj Scenario.M21_heap j i)) /\
  total (Mat.of_ptr (Mat.tr (Mat.tr (Mat.Plain Scenario.M21_obj)))) Scenario.M21_heap
    (built Scenario.M21_heap 2 2 (elem Scenario.M21_obj Scenario.M21_heap)).
Proof.
  apply (materialised_transpose Scenario.M21_obj Scenario.M21_heap);
    [simpl; lia | simpl; lia | exact M21_readable].
Defined.

Lemma operator_add_elementwise_witness :
  total (Mat.operator_add Scenario.M21_obj Scenario.M21_obj) Scenario.M21_heap
    (built Scenario.M21_heap 2 2
       (fun i j => s_add (elem Scenario.M21_obj Scenario.M21_heap i j)
                         (elem Scenario.M21_obj Scenario.M21_heap i j))).
Proof.
  apply (operator_add_elementwise Scenario.M21_obj Scenario.M21_obj Scenario.M21_heap);
    [simpl; lia | simpl; lia | reflexivity | reflexivity
    | exact M21_readable | exact M21_readable].
Defined.

Lemma operator_sub_elementwise_witness :
  total (Mat.operator_sub Scenario.M21_obj Scenario.M21_obj) Scenario.M21_heap
    (built Scenario.M21_heap 2 2
       (fun i j => s_sub (elem Scenario.M21_obj Scenario.M21_heap i j)
                         (elem Scenario.M21_obj Scenario.M21_heap i j))).
Proof.
  apply (operator_sub_elementwise Scenario.M21_obj Scenario.M21_obj Scenario.M21_heap);
    [simpl; lia | simpl; lia | reflexivity | reflexivity
    | exact M21_readable | exact M21_readable].
Defined.

Lemma operator_add_sub_bad_dimensions_witness :
  Mat.operator_add Scenario.row12_obj Scenario.M21_obj Scenario.M21_heap
    = Throw BadDimensionsError /\
  Mat.operator_sub Scenario.row12_obj Scenario.M21_obj Scenario.M21_heap
    = Throw BadDimensionsError.
Proof.
  apply (operator_add_sub_bad_dimensions Scenario.row12_obj Scenario.M21_obj
           Scenario.M21_heap).
  left. simpl. lia.
Defined.

Lemma operator_neg_elementwise_witness :
  total (Mat.operator_neg Scenario.M21_obj) Scenario.M21_heap
    (built Scenario.M21_heap 2 2
       (fun i j => s_neg (elem Scenario.M21_obj Scenario.M21_heap i j))).
Proof.
  apply (operator_neg_elementwise Scenario.M21_obj Scenario.M21_heap);
    [simpl; lia | simpl; lia | exact M21_readable].
Defined.

Lemma operator_mul_dot_products_witness :
  total (Mat.operator_mul Scenario.M21_obj Scenario.M21_obj) Scenario.M21_heap
    (fun r h' =>
       r.1 = None /\
       built Scenario.M21_heap 2 2
         (fun i j => dot_sum (fun k => elem Scenario.M21_obj Scenario.M21_heap i k)
                             (fun k => elem Scenario.M21_obj Scenario.M21_heap k j) 2)
         r.2 h').
Proof.
  apply (operator_mul_dot_products Scenario.M21_obj Scenario.M21_obj Scenario.M21_heap);
    [simpl; lia | simpl; lia | simpl; lia | simpl; lia
    | exact M21_readable | exact M21_readable].
Defined.

Lemma operator_scale_in_place_witness :
  total (Mat.operator_scale Scenario.M21_cached 3%Q) Scenario.M21_heap
    (fun r h' =>
       same_store Scenario.M21_cached r /\
       updates Scenario.M21_cached Scenario.M21_heap h' (fun _ _ => true)
         (fun i j => s_mul (elem Scenario.M21_cached Scenario.M21_heap i j) 3%Q) /\
       forall d, det_valid Scenario.M21_cached = true ->
                 Mat._det Scenario.M21_cached = Some d ->
                 det_value Scenario.M21_cached h' = Ret d).
Proof.
  apply (operator_scale_in_place Scenario.M21_cached 3%Q Scenario.M21_heap);
    [simpl; lia | simpl; lia | exact M21_allocated | exact M21_readable].
Defined.

Lemma rowMutliply_scales_row_witness :
  total (Mat.rowMutliply Scenario.M21_obj 1 3%Q) Scenario.M21_heap
    (fun m' h' =>
       same_store Scenario.M21_obj m' /\
       updates Scenario.M21_obj Scenario.M21_heap h' (fun i _ => i =? 1)
         (fun i j => s_mul 3%Q (elem Scenario.M21_obj Scenario.M21_heap i j))).
Proof.
  apply (rowMutliply_scales_row Scenario.M21_obj 1 3%Q Scenario.M21_heap);
    [simpl; lia | simpl; lia | exact M21_allocated | exact M21_readable].
Defined.

Lemma rowAdd_adds_multiple_witness :
  total (Mat.rowAdd Scenario.M21_obj 1 0 3%Q) Scenario.M21_heap
    (fun m' h' =>
       same_store Scenario.M21_obj m' /\
       updates Scenario.M21_obj Scenario.M21_heap h' (fun i _ => i =? 1)
         (fun i j => s_add (elem Scenario.M21_obj Scenario.M21_heap i j)
                       (s_mul 3%Q (elem Scenario.M21_obj Scenario.M21_heap 0 j)))).
Proof.
  apply (rowAdd_adds_multiple Scenario.M21_obj 1 0 3%Q Scenario.M21_heap);
    [simpl; lia | simpl; lia | simpl; lia | exact M21_allocated | exact M21_readable].
Defined.

Lemma rowSwap_exchanges_rows_witness :
  total (Mat.rowSwap Scenario.M21_obj 0 1) Scenario.M21_heap
    (fun m' h' =>
       same_store Scenario.M21_obj m' /\
       length h' = S (length Scenario.M21_heap) /\
       (forall l, (l < length Scenario.M21_heap)%nat ->
                  l <> Mat._mat Scenario.M21_obj -> h' !! l = Scenario.M21_heap !! l) /\
       allocated Scenario.M21_obj h' /\
       forall i j, in_range Scenario.M21_obj i j ->
         cell Scenario.M21_obj h' i j =
           Some (if i =? 1 then elem Scenario.M21_obj Scenario.M21_heap 0 j
                 else if i =? 0 then elem Scenario.M21_obj Scenario.M21_heap 1 j
                 else elem Scenario.M21_obj Scenario.M21_heap i j)).
Proof.
  apply (rowSwap_exchanges_rows Scenario.M21_obj 0 1 Scenario.M21_heap);
    [simpl; lia | simpl; lia | simpl; lia | exact M21_allocated | exact M21_readable].
Defined.

Lemma setRow_overwrites_row_witness :
  total (Mat.setRow Scenario.M21_obj 1 pair_vec) M21_pair_heap
    (fun m' h' =>
       same_store Scenario.M21_obj m' /\
       updates Scenario.M21_obj M21_pair_heap h' (fun i _ => i =? 1)
         (fun _ j => vec_elem pair_vec M21_pair_heap j)).
Proof.
  apply (setRow_overwrites_row Scenario.M21_obj 1 pair_vec M21_pair_heap);
    [reflexivity | simpl; lia | simpl; lia | exact M21_pair_allocated
    | exact pair_vec_readable | simpl; lia].
Defined.

Lemma setCol_overwrites_column_witness :
  total (Mat.setCol Scenario.M21_obj 1 pair_vec) M21_pair_heap
    (fun m' h' =>
       same_store Scenario.M21_obj m' /\
       updates Scenario.M21_obj M21_pair_heap h' (fun _ j => j =? 1)
         (fun i _ => vec_elem pair_vec M21_pair_heap i)).
Proof.
  apply (setCol_overwrites_column Scenario.M21_obj 1 pair_vec M21_pair_heap);
    [reflexivity | simpl; lia | simpl; lia | exact M21_pair_allocated
    | exact pair_vec_readable | simpl; lia].
Defined.

Lemma diag_reads_main_diagonal_witness :
  total (Mat.diag Scenario.M21_obj) Scenario.M21_heap
    (vec_built Scenario.M21_heap (Z.min 2 2)
       (fun k => elem Scenario.M21_obj Scenario.M21_heap k k)).
Proof.
  apply (diag_reads_main_diagonal Scenario.M21_obj Scenario.M21_heap);
    [simpl; lia | simpl; lia | exact M21_readable].
Defined.

Lemma dot_sums_products_witness :
  Vec.dot pair_vec pair_vec M21_pair_heap =
    Ret (dot_sum (vec_elem pair_vec M21_pair_heap) (vec_elem pair_vec M21_pair_heap) 2,
         M21_pair_heap).
Proof.
  apply (dot_sums_products pair_vec pair_vec M21_pair_heap);
    [simpl; lia | reflexivity | exact pair_vec_readable | exact pair_vec_readable].
Defined.

Lemma vec_at_bounds_witness :
  Vec.at2 pair_vec 1 0 M21_pair_heap = Throw OutOfBoundsError /\
  Vec.set2 pair_vec 1 0 9%Q M21_pair_heap = Throw OutOfBoundsError.
Proof.
  apply (vec_at_bounds pair_vec 0 9%Q M21_pair_heap). lia.
Defined.

Lemma of_list_reads_back_witness :
  total (Mat.of_list Scenario.M23) []
    (built [] 2 3 (listed Scenario.M23)).
Proof.
  apply (of_list_reads_back [1; 2; 3]%Q [[4; 5; 6]%Q] []).
  - simpl. lia.
  - repeat constructor.
Defined.

Lemma of_list_ragged_witness :
  Mat.of_list [[]; [1]]%Q [] = Throw EmptyElementError /\
  Mat.of_list [[1; 2]; [3]]%Q [] = Throw BadDimensionsError.
Proof.
  split.
  - apply (of_list_ragged [] [[1%Q]] []). reflexivity.
  - apply (of_list_ragged [1; 2]%Q [[3%Q]] []).
    + discriminate.
    + constructor. simpl. lia.
Defined.

Lemma index_twice_is_at_witness :
  (row <- lift (Mat.index (Mat.Plain Scenario.M21_obj) 1) ;;
   e <- lift (Mat.index row 0) ;;
   Mat.vat e 0 0) Scenario.M21_heap
  = Mat.at_ Scenario.M21_obj 1 0 Scenario.M21_heap.
Proof.
  apply (index_twice_is_at Scenario.M21_obj 1 0 Scenario.M21_heap). simpl. lia.
Defined.

Lemma of_blocks_row_of_two_witness :
  total (Mat.of_blocks [[Scenario.M21_obj; Scenario.M21_obj]]) Scenario.M21_heap
    (fun m h' =>
       fresh_in Scenario.M21_heap m h' /\
       Mat._n_rows m = 2 /\
       Mat._n_cols m = 2 + 2 /\
       forall i j, in_range m i j ->
         cell m h' i j =
           if (2 <=? j) && (j <? 2 + 2)
           then Some (elem Scenario.M21_obj Scenario.M21_heap i (j - 2))
           else if j <? 2 then Some (elem Scenario.M21_obj Scenario.M21_heap i j)
           else None).
Proof.
  apply (of_blocks_row_of_two Scenario.M21_obj Scenario.M21_obj Scenario.M21_heap);
    [simpl; lia | simpl; lia | simpl; lia | reflexivity | simpl; lia
    | exact M21_readable | exact M21_readable].
Defined.

Section RationalInstances.
Local Open Scope Q_scope.

Lemma det_2x2_first_column_nonzero_witness :
  exists x, det_of_2x2 2 1 1 1 = Ret x /\ x == 2 * 1 - 1 * 1.
Proof.
  apply (det_2x2_first_column_nonzero 2 1 1 1). intros [H _]. discriminate H.
Defined.

Lemma det_2x2_first_column_zero_witness :
  det_of_2x2 0 1 0 0 =
    if Qeq_bool 1 0 && Qeq_bool 0 0 then Ret 0 else Undefined.
Proof.
  apply (det_2x2_first_column_zero 0 1 0 0); reflexivity.
Defined.

Lemma rref_2x2_invertible_witness :
  exists x11 x12 x21 x22,
    rref_of_2x2 2 1 1 1 = Ret [[x11; x12]; [x21; x22]] /\
    x11 == 1 /\ x12 == 0 /\ x21 == 0 /\ x22 == 1.
Proof.
  apply (rref_2x2_invertible 2 1 1 1). intros H. discriminate H.
Defined.

Lemma inv_2x2_invertible_witness :
  exists x11 x12 x21 x22,
    inv_of_2x2 (fun _ _ => 0) 2 1 1 1 = Ret [[x11; x12]; [x21; x22]] /\
    x11 == 1 / (2 * 1 - 1 * 1) /\ x12 == - 1 / (2 * 1 - 1 * 1) /\
    x21 == - 1 / (2 * 1 - 1 * 1) /\ x22 == 2 / (2 * 1 - 1 * 1).
Proof.
  apply (inv_2x2_invertible (fun _ _ => 0) 2 1 1 1). intros H. discriminate H.
Defined.
End RationalInstances.
